(** * Deployment planning: dependency validation, wave planning, timing, rollback

    A shallow embedding of the planning core of the repository:
    - [src/dependency_manager.py]   (class [DependencyManager]),
    - [lambda_functions/dependency_analyzer.py] (the Lambda entry point).

    Conventions of the embedding.
    - A Python [dict] keeps its insertion order, so a dict with string keys is
      an association list; [dict_get] is the lookup and [keys] the key view.
    - A Python [set] of strings is a [gset string].  Iterating over a set
      visits every member once in an order the language leaves open; that
      order is the [SetOrder] argument of every function that iterates a set.
    - A raised exception is a value of [Error]; functions that can raise
      return [Result].
    - Recursion and [while] loops carry a fuel argument; the entry points
      supply a fuel that is shown to be sufficient. *)

From Stdlib Require Import ZArith Lia.
From stdpp Require Import gmap strings list sets relations sorting.

Open Scope string_scope.
Open Scope Z_scope.
Open Scope list_scope.

(** ** Data model *)

(** The per-service record.  [DependencyManager._parse_services] fills
    [dependencies], [priority] and [parallel_group] (its [name] field repeats
    the dict key); [parse_service_dependencies] of the analyzer adds
    [estimated_deploy_time]. *)
Record ServiceInfo := {
  dependencies : list string;
  priority : Z;
  parallel_group : Z;
  estimated_deploy_time : Z
}.

(** [Dict V]: a Python dict with string keys, in insertion order. *)
Abbreviation Dict V := (list (string * V)).

Definition keys {V} (d : Dict V) : list string := d.*1.

Fixpoint dict_get {V} (k : string) (d : Dict V) : option V :=
  match d with
  | [] => None
  | (k', v) :: rest => if decide (k = k') then Some v else dict_get k rest
  end.

(** The iteration order of a set of strings: some enumeration of its
    members, each once. *)
Record SetOrder := {
  iter :> gset string → list string;
  iter_perm : ∀ X, iter X ≡ₚ elements X
}.

(** Exceptions raised by the planning code. *)
Inductive Error :=
  | InvalidDependencies (errors : list string)   (* ValueError("Invalid dependencies: ...") *)
  | UnknownStrategy (strategy : string)          (* ValueError("Unknown deployment strategy: ...") *)
  | CannotResolve (remaining : gset string)      (* ValueError("Cannot resolve dependencies ...") *)
  | MaxOfEmpty                                   (* ValueError: max() arg is an empty sequence *)
  | OutOfFuel.                                   (* the embedding's loop bound was reached *)

Inductive Result (A : Type) :=
  | Ok (a : A)
  | Raise (e : Error).
Arguments Ok {A} a.
Arguments Raise {A} e.

(** ** Dependency graph validator *)

(** [visited] and [rec_stack] of [_has_circular_dependencies]. *)
Definition dfs_state := (gset string * gset string)%type.

(** The [for dep in ...dependencies] loop of the inner [dfs]; [rec] is the
    recursive call. *)
Fixpoint dfs_deps (rec : string → dfs_state → option (bool * dfs_state))
    (deps : list string) (st : dfs_state) : option (bool * dfs_state) :=
  match deps with
  | [] => Some (false, st)
  | dep :: rest =>
      if decide (dep ∈ st.1) then
        if decide (dep ∈ st.2) then Some (true, st)
        else dfs_deps rec rest st
      else
        match rec dep st with
        | Some (false, st') => dfs_deps rec rest st'
        | r => r
        end
  end.

(** The inner function [dfs(service)]; [None] means the recursion bound
    [fuel] was reached. *)
Fixpoint dfs (services : Dict ServiceInfo) (fuel : nat) (service : string)
    (st : dfs_state) : option (bool * dfs_state) :=
  match fuel with
  | O => None
  | S fuel' =>
      let st1 : dfs_state := ({[service]} ∪ st.1, {[service]} ∪ st.2) in
      let r :=
        match dict_get service services with
        | Some info => dfs_deps (dfs services fuel') (dependencies info) st1
        | None => Some (false, st1)
        end in
      match r with
      | Some (false, (visited, rec_stack)) =>
          Some (false, (visited, rec_stack ∖ {[service]}))
      | _ => r
      end
  end.

(** The outer [for service in self.services] loop. *)
Fixpoint dfs_all (services : Dict ServiceInfo) (fuel : nat)
    (todo : list string) (st : dfs_state) : option bool :=
  match todo with
  | [] => Some false
  | service :: rest =>
      if decide (service ∈ st.1) then dfs_all services fuel rest st
      else
        match dfs services fuel service st with
        | Some (false, st') => dfs_all services fuel rest st'
        | Some (true, _) => Some true
        | None => None
        end
  end.

(** Every id the traversal can meet: the keys and all declared dependencies. *)
Definition nodes (services : Dict ServiceInfo) : gset string :=
  list_to_set (keys services) ∪
  ⋃ ((λ kv, list_to_set (dependencies kv.2)) <$> services).

Definition has_circular_fuel (services : Dict ServiceInfo) : option bool :=
  dfs_all services (S (size (nodes services))) (keys services) (∅, ∅).

(** [_has_circular_dependencies] / [has_circular_dependencies]. *)
Definition has_circular_dependencies (services : Dict ServiceInfo) : bool :=
  default false (has_circular_fuel services).

(** [_check_missing_dependencies] / [check_missing_dependencies]:
    the list [missing] gathered by the two nested loops, then
    [list(set(missing))]. *)
Definition missing_list (services : Dict ServiceInfo) : list string :=
  mjoin ((λ kv, filter (λ dep, dep ∉ keys services) (dependencies kv.2)) <$> services).

Definition check_missing_dependencies (o : SetOrder)
    (services : Dict ServiceInfo) : list string :=
  o (list_to_set (missing_list services)).

(** [validate_dependencies]: the pair [(len(errors) == 0, errors)]. *)
Definition validate_dependencies (o : SetOrder)
    (services : Dict ServiceInfo) : bool * list string :=
  let errors :=
    (if has_circular_dependencies services
     then ["Circular dependencies detected"] else []) ++
    ((λ dep, "Missing dependency: " +:+ dep) <$> check_missing_dependencies o services) in
  (bool_decide (length errors = 0%nat), errors).

(** ** The dependency relation *)

(** [edge services s d]: [s] is declared and lists [d] as a dependency. *)
Definition edge (services : Dict ServiceInfo) (s d : string) : Prop :=
  ∃ info, dict_get s services = Some info ∧ d ∈ dependencies info.

Definition has_cycle (services : Dict ServiceInfo) : Prop :=
  ∃ x, tc (edge services) x x.

(** ** Python built-ins used by the planners *)

(** [max(xs)] on integers: [None] stands for the [ValueError] on an empty
    sequence. *)
Definition py_max (xs : list Z) : option Z :=
  match xs with
  | [] => None
  | x :: rest => Some (foldl Z.max x rest)
  end.

(** [sum(xs)]. *)
Definition py_sum (xs : list Z) : Z := foldl Z.add 0 xs.

(** [d[k] = f(d[k])] for a key that is present: the entry keeps its place. *)
Fixpoint dict_alter {V} (f : V → V) (k : string) (d : Dict V) : Dict V :=
  match d with
  | [] => []
  | (k', v) :: rest =>
      if decide (k = k') then (k', f v) :: rest
      else (k', v) :: dict_alter f k rest
  end.

(** [d[k] = v]: an existing key keeps its place, a new one goes last. *)
Fixpoint dict_set {V} (k : string) (v : V) (d : Dict V) : Dict V :=
  match d with
  | [] => [(k, v)]
  | (k', v') :: rest =>
      if decide (k = k') then (k', v) :: rest
      else (k', v') :: dict_set k v rest
  end.

(** A [defaultdict(list)] keyed by integers: [groups[k].append(name)]. *)
Fixpoint group_append (k : Z) (name : string) (groups : list (Z * list string))
    : list (Z * list string) :=
  match groups with
  | [] => [(k, [name])]
  | (k', l) :: rest =>
      if decide (k = k') then (k', l ++ [name]) :: rest
      else (k', l) :: group_append k name rest
  end.

Fixpoint group_get (k : Z) (groups : list (Z * list string)) : list string :=
  match groups with
  | [] => []
  | (k', l) :: rest => if decide (k = k') then l else group_get k rest
  end.

(** ** Wave planner: the frontier loop

    [_get_parallel_optimized_order], [_get_priority_based_order],
    [create_parallel_optimized_waves] and [create_priority_based_waves] run
    the same [while remaining] loop.  They differ in the attribute services
    are grouped by ([group_key]) and in what is appended to [waves]
    ([make_wave]: the bare member list in the manager, a wave record in the
    analyzer). *)
Section frontier.
Context {W : Type}.
Variable o : SetOrder.
Variable group_key : ServiceInfo → Z.
Variable make_wave : nat → Z → list string → W.
Variable services : Dict ServiceInfo.

(** [all(dep in deployed or dep not in services for dep in ...)]. *)
Definition deps_satisfied (deployed : gset string) (info : ServiceInfo) : bool :=
  forallb (λ dep, bool_decide (dep ∈ deployed) || bool_decide (dep ∉ keys services))
          (dependencies info).

(** The [for service_name in remaining] loop that fills [groups].  The
    lookup [services[service_name]] cannot fail: [remaining] only holds
    keys of [services]. *)
Definition build_groups (deployed remaining : gset string) : list (Z * list string) :=
  foldl (λ groups name,
           match dict_get name services with
           | Some info =>
               if deps_satisfied deployed info
               then group_append (group_key info) name groups
               else groups
           | None => groups
           end)
        [] (o remaining).

(** [min(groups.keys())] of a non-empty [groups]. *)
Definition min_key (k0 : Z) (rest : list (Z * list string)) : Z :=
  foldl Z.min k0 rest.*1.

Fixpoint frontier_loop (fuel : nat) (wave_number : nat)
    (deployed remaining : gset string) (waves : list W) : Result (list W) :=
  if decide (remaining = ∅) then Ok waves
  else
    match fuel with
    | O => Raise OutOfFuel
    | S fuel' =>
        match build_groups deployed remaining with
        | [] => Raise (CannotResolve remaining)
        | (k0, l0) :: rest =>
            let min_group := min_key k0 rest in
            let current_wave := group_get min_group ((k0, l0) :: rest) in
            frontier_loop fuel' (S wave_number)
              (deployed ∪ list_to_set current_wave)
              (remaining ∖ list_to_set current_wave)
              (waves ++ [make_wave wave_number min_group current_wave])
        end
    end.

(** Every round removes at least one member of [remaining], so
    [size remaining] rounds are enough. *)
Definition frontier_waves : Result (list W) :=
  let remaining : gset string := list_to_set (keys services) in
  frontier_loop (size remaining) 1 ∅ remaining [].
End frontier.

(** ** Wave planner: the sequential order (Kahn's algorithm)

    [_get_sequential_order] and [create_sequential_waves]; [make_wave] builds
    what is appended for [current] ([[current]] in the manager, a wave record
    in the analyzer). *)
Section sequential.
Context {W : Type}.
Variable make_wave : nat → string → W.
Variable services : Dict ServiceInfo.

(** [in_degree = {service: 0 for service in services}] followed by the two
    nested loops that count, per service, the listed dependencies that are
    keys of [in_degree]. *)
Definition in_degree_init : Dict Z :=
  foldl (λ in_degree kv,
           foldl (λ in_degree dep,
                    if decide (dep ∈ keys in_degree)
                    then dict_alter (λ n, n + 1) kv.1 in_degree
                    else in_degree)
                 in_degree (dependencies kv.2))
        ((λ kv, (kv.1, 0)) <$> services) services.

(** The [for service_info in services.values()] loop run after [current]
    was taken from the queue. *)
Definition release (current : string) (in_degree : Dict Z) (queue : list string)
    : Dict Z * list string :=
  foldl (λ st kv,
           if decide (current ∈ dependencies kv.2) then
             let in_degree' := dict_alter (λ n, n - 1) kv.1 st.1 in
             if decide (dict_get kv.1 in_degree' = Some 0)
             then (in_degree', st.2 ++ [kv.1])
             else (in_degree', st.2)
           else st)
        (in_degree, queue) services.

Fixpoint kahn_loop (fuel : nat) (wave_number : nat) (in_degree : Dict Z)
    (queue : list string) (result : list W) : Result (list W) :=
  match queue with
  | [] => Ok result
  | current :: queue' =>
      match fuel with
      | O => Raise OutOfFuel
      | S fuel' =>
          let st := release current in_degree queue' in
          kahn_loop fuel' (S wave_number) st.1 st.2
                    (result ++ [make_wave wave_number current])
      end
  end.

(** A service enters the queue at most once, so [length services] rounds
    are enough. *)
Definition sequential_waves : Result (list W) :=
  let in_degree := in_degree_init in
  let queue := (filter (λ kv, kv.2 = 0) in_degree).*1 in
  kahn_loop (length services) 1 in_degree queue [].
End sequential.

(** ** [DependencyManager] *)

(** An entry of [config['deployment_strategies']]; an absent field is [None]. *)
Record StrategyConfig := {
  allow_parallel : option bool;
  max_concurrent : option Z
}.

(** The state of a [DependencyManager]: [self.services] and the parts of
    [self.config] that planning reads. *)
Record DependencyManager := {
  dm_services : Dict ServiceInfo;
  deployment_strategies : Dict StrategyConfig;
  rollback_order : list string
}.

Definition _get_sequential_order (services : Dict ServiceInfo)
    : Result (list (list string)) :=
  sequential_waves (λ _ current, [current]) services.

Definition _get_parallel_optimized_order (o : SetOrder) (services : Dict ServiceInfo)
    : Result (list (list string)) :=
  frontier_waves o parallel_group (λ _ _ current_wave, current_wave) services.

Definition _get_priority_based_order (o : SetOrder) (services : Dict ServiceInfo)
    : Result (list (list string)) :=
  frontier_waves o priority (λ _ _ current_wave, current_wave) services.

(** [filtered_services]: the entries of [self.services] named in
    [services_to_deploy] ([None]: all of them). *)
Definition filtered_services (services : Dict ServiceInfo)
    (services_to_deploy : option (list string)) : Dict ServiceInfo :=
  let services_to_deploy := default (keys services) services_to_deploy in
  filter (λ kv, kv.1 ∈ services_to_deploy) services.

(** [strategy_config.get('allow_parallel', False)] of
    [config['deployment_strategies'].get(strategy, {})]. *)
Definition strategy_allow_parallel (dm : DependencyManager) (strategy : string) : bool :=
  default false (dict_get strategy (deployment_strategies dm) ≫= allow_parallel).

Definition get_deployment_order (o : SetOrder) (dm : DependencyManager)
    (strategy : string) (services_to_deploy : option (list string))
    : Result (list (list string)) :=
  let '(is_valid, errors) := validate_dependencies o (dm_services dm) in
  if negb is_valid then Raise (InvalidDependencies errors)
  else
    let filtered := filtered_services (dm_services dm) services_to_deploy in
    if negb (strategy_allow_parallel dm strategy) || bool_decide (strategy = "sequential")
    then _get_sequential_order filtered
    else if decide (strategy = "parallel_optimized")
    then _get_parallel_optimized_order o filtered
    else if decide (strategy = "priority_based")
    then _get_priority_based_order o filtered
    else Raise (UnknownStrategy strategy).

(** [get_rollback_order]: [list(remaining)] enumerates a set. *)
Definition get_rollback_order (o : SetOrder) (dm : DependencyManager)
    (deployed_services : list string) : list string :=
  let rollback_config := rollback_order dm in
  let rollback_order := filter (λ service, service ∈ deployed_services) rollback_config in
  let remaining : gset string :=
    list_to_set deployed_services ∖ list_to_set rollback_order in
  rollback_order ++ o remaining.

Definition base_time : Z := 60.
Definition complex_services : list string := ["order-service"; "payment-service"].

(** [service_time] inside [_estimate_wave_time]: what one service contributes. *)
Definition service_time (service : string) : Z :=
  if decide (service ∈ complex_services) then base_time * 2 else base_time.

Definition _estimate_wave_time (services : list string) : Z :=
  foldl (λ max_time service, Z.max max_time (service_time service)) base_time services.

(** [_check_wave_dependencies]. *)
Definition _check_wave_dependencies (dm : DependencyManager) (wave : list string)
    (wave_index : nat) (all_waves : list (list string)) : bool :=
  let previous_services : gset string :=
    ⋃ (list_to_set <$> take wave_index all_waves) in
  forallb (λ service_name,
             match dict_get service_name (dm_services dm) with
             | Some service =>
                 forallb (λ dep, negb (bool_decide (dep ∈ keys (dm_services dm))
                                       && bool_decide (dep ∉ previous_services)))
                         (dependencies service)
             | None => true
             end) wave.

Record WaveInfo := {
  wi_wave_number : nat;
  wi_services : list string;
  wi_estimated_time : Z;
  wi_dependencies_satisfied : bool
}.

Record ManagerPlan := {
  mp_strategy : string;
  mp_total_waves : nat;
  mp_max_concurrent : Z;
  mp_allow_parallel : bool;
  mp_waves : list WaveInfo
}.

Definition get_deployment_plan (o : SetOrder) (dm : DependencyManager)
    (strategy : string) (services_to_deploy : option (list string))
    : Result ManagerPlan :=
  match get_deployment_order o dm strategy services_to_deploy with
  | Raise e => Raise e
  | Ok waves =>
      Ok {| mp_strategy := strategy;
            mp_total_waves := length waves;
            mp_max_concurrent :=
              default 1 (dict_get strategy (deployment_strategies dm) ≫= max_concurrent);
            mp_allow_parallel := strategy_allow_parallel dm strategy;
            mp_waves :=
              imap (λ i wave,
                      {| wi_wave_number := i + 1;
                         wi_services := wave;
                         wi_estimated_time := _estimate_wave_time wave;
                         wi_dependencies_satisfied :=
                           _check_wave_dependencies dm wave i waves |})
                   waves |}
  end.

(** ** The analyzer ([lambda_functions/dependency_analyzer.py]) *)

(** A wave dict.  [wave_group] is the [parallel_group] or [priority] entry
    (absent in a sequential wave).  The constant [deployment_context] entry
    is left out. *)
Record Wave := {
  wave_number : nat;
  wave_group : option Z;
  wave_services : list string;
  wave_allow_parallel : bool;
  wave_max_concurrent : Z;
  estimated_time : Z
}.

(** The dict returned by [load_dependency_config]. *)
Record AnalyzerConfig := {
  ac_services : Dict ServiceInfo;
  ac_max_concurrent_per_wave : string → Z
}.

Definition load_dependency_config : AnalyzerConfig :=
  {| ac_services :=
       [ ("auth-service",
          {| dependencies := []; priority := 1; parallel_group := 1;
             estimated_deploy_time := 60 |});
         ("menu-service",
          {| dependencies := ["auth-service"]; priority := 2; parallel_group := 2;
             estimated_deploy_time := 45 |});
         ("order-service",
          {| dependencies := ["auth-service"; "menu-service"]; priority := 3;
             parallel_group := 3; estimated_deploy_time := 90 |});
         ("payment-service",
          {| dependencies := ["auth-service"]; priority := 2; parallel_group := 2;
             estimated_deploy_time := 75 |});
         ("notification-service",
          {| dependencies := ["auth-service"]; priority := 2; parallel_group := 2;
             estimated_deploy_time := 30 |});
         ("analytics-service",
          {| dependencies := ["order-service"; "payment-service"]; priority := 4;
             parallel_group := 4; estimated_deploy_time := 60 |}) ];
     ac_max_concurrent_per_wave := λ strategy,
       if decide (strategy = "parallel_optimized") then 3
       else if decide (strategy = "priority_based") then 2
       else 1 |}.

(** The default entry of a service that the config does not know. *)
Definition default_service_info : ServiceInfo :=
  {| dependencies := []; priority := 999; parallel_group := 999;
     estimated_deploy_time := 60 |}.

Definition parse_service_dependencies (services : list string) (config : AnalyzerConfig)
    : Dict ServiceInfo :=
  foldl (λ service_info service,
           match dict_get service (ac_services config) with
           | Some service_config => dict_set service service_config service_info
           | None => dict_set service default_service_info service_info
           end)
        [] services.

(** [service_info[s]['estimated_deploy_time']]; the lookup is only made for
    keys of [service_info]. *)
Definition deploy_time (service_info : Dict ServiceInfo) (s : string) : Z :=
  from_option estimated_deploy_time 0 (dict_get s service_info).

(** The wave dict built in the frontier loops.  [max(...)] is taken over a
    group of [groups], which is never empty. *)
Definition frontier_wave (service_info : Dict ServiceInfo) (max_concurrent_per_wave : Z)
    (wave_number : nat) (min_group : Z) (current_wave_services : list string) : Wave :=
  {| wave_number := wave_number;
     wave_group := Some min_group;
     wave_services := current_wave_services;
     wave_allow_parallel := bool_decide (1 < length current_wave_services)%nat;
     wave_max_concurrent :=
       Z.min (Z.of_nat (length current_wave_services)) max_concurrent_per_wave;
     estimated_time :=
       default 0 (py_max (deploy_time service_info <$> current_wave_services)) |}.

Definition create_parallel_optimized_waves (o : SetOrder)
    (service_info : Dict ServiceInfo) (config : AnalyzerConfig) : Result (list Wave) :=
  frontier_waves o parallel_group
    (frontier_wave service_info (ac_max_concurrent_per_wave config "parallel_optimized"))
    service_info.

Definition create_priority_based_waves (o : SetOrder)
    (service_info : Dict ServiceInfo) (config : AnalyzerConfig) : Result (list Wave) :=
  frontier_waves o priority
    (frontier_wave service_info (ac_max_concurrent_per_wave config "priority_based"))
    service_info.

Definition sequential_wave (service_info : Dict ServiceInfo)
    (wave_number : nat) (current : string) : Wave :=
  {| wave_number := wave_number;
     wave_group := None;
     wave_services := [current];
     wave_allow_parallel := false;
     wave_max_concurrent := 1;
     estimated_time := deploy_time service_info current |}.

Definition create_sequential_waves (service_info : Dict ServiceInfo)
    : Result (list Wave) :=
  sequential_waves (sequential_wave service_info) service_info.

(** [create_deployment_plan].  The two float-valued entries
    ([time_savings_percentage], [parallel_efficiency]) are left out. *)
Record DeploymentPlan := {
  plan_strategy : string;
  total_waves : nat;
  total_services : nat;
  estimated_sequential_time : Z;
  estimated_optimized_time : Z;
  time_savings_seconds : Z;
  plan_waves : list Wave
}.

Definition create_deployment_plan (waves : list Wave) (strategy : string)
    (config : AnalyzerConfig) : DeploymentPlan :=
  let total_estimated_time := py_sum (estimated_time <$> waves) in
  let '(optimized_time, time_savings) :=
    if decide (strategy = "parallel_optimized") then
      let optimized_time := default 0 (py_max (estimated_time <$> waves)) in
      (optimized_time, total_estimated_time - optimized_time)
    else (total_estimated_time, 0) in
  {| plan_strategy := strategy;
     total_waves := length waves;
     total_services := foldl Nat.add 0%nat ((λ wave, length (wave_services wave)) <$> waves);
     estimated_sequential_time := total_estimated_time;
     estimated_optimized_time := optimized_time;
     time_savings_seconds := time_savings;
     plan_waves := waves |}.

Definition estimate_total_deployment_time (deployment_plan : DeploymentPlan) : Z :=
  if decide (plan_strategy deployment_plan = "sequential")
  then estimated_sequential_time deployment_plan
  else estimated_optimized_time deployment_plan.

(** The inner [get_depth] of [calculate_max_dependency_depth]; [visited] is
    copied for every dependency, so it is passed by value. *)
Fixpoint get_depth (service_info : Dict ServiceInfo) (fuel : nat)
    (service : string) (visited : gset string) : Result Z :=
  match fuel with
  | O => Raise OutOfFuel
  | S fuel' =>
      if decide (service ∈ visited) then Ok 0
      else
        let visited := {[service]} ∪ visited in
        match dict_get service service_info with
        | None => Ok 1
        | Some info =>
            match dependencies info with
            | [] => Ok 1
            | deps =>
                match
                  foldl (λ acc dep,
                           match acc with
                           | Raise e => Raise e
                           | Ok max_dep_depth =>
                               match get_depth service_info fuel' dep visited with
                               | Ok dep_depth => Ok (Z.max max_dep_depth dep_depth)
                               | Raise e => Raise e
                               end
                           end) (Ok 0) deps
                with
                | Ok max_dep_depth => Ok (max_dep_depth + 1)
                | Raise e => Raise e
                end
            end
        end
  end.

(** [max(get_depth(service) for service in service_info.keys())]. *)
Definition calculate_max_dependency_depth (service_info : Dict ServiceInfo) : Result Z :=
  let fuel := S (S (size (nodes service_info))) in
  match
    foldr (λ service acc,
             match get_depth service_info fuel service ∅, acc with
             | Ok d, Ok ds => Ok (d :: ds)
             | Raise e, _ => Raise e
             | _, Raise e => Raise e
             end) (Ok []) (keys service_info)
  with
  | Raise e => Raise e
  | Ok depths =>
      match py_max depths with
      | Some d => Ok d
      | None => Raise MaxOfEmpty
      end
  end.

Record Event := {
  ev_services : list string;
  ev_strategy : string
}.

Record DependencyAnalysis := {
  total_dependencies : nat;
  independent_services : nat;
  max_dependency_depth : Z
}.

Record Body := {
  body_strategy : string;
  body_total_services : nat;
  body_total_waves : nat;
  deployment_waves : list Wave;
  deployment_plan : DeploymentPlan;
  estimated_time_seconds : Z;
  parallel_optimization : bool;
  dependency_analysis : DependencyAnalysis
}.

Inductive Response :=
  | Response200 (body : Body)
  | Response500 (error : Error).

(** The [try] block of [lambda_handler]. *)
Definition analyze (o : SetOrder) (event : Event) : Result Body :=
  let services := ev_services event in
  let strategy := ev_strategy event in
  let dependency_config := load_dependency_config in
  let service_info := parse_service_dependencies services dependency_config in
  let '(valid, errors) := validate_dependencies o service_info in
  if negb valid then Raise (InvalidDependencies errors)
  else
    match
      (if decide (strategy = "parallel_optimized")
       then create_parallel_optimized_waves o service_info dependency_config
       else if decide (strategy = "priority_based")
       then create_priority_based_waves o service_info dependency_config
       else create_sequential_waves service_info)
    with
    | Raise e => Raise e
    | Ok waves =>
        let deployment_plan := create_deployment_plan waves strategy dependency_config in
        let estimated_time := estimate_total_deployment_time deployment_plan in
        match calculate_max_dependency_depth service_info with
        | Raise e => Raise e
        | Ok depth =>
            Ok {| body_strategy := strategy;
                  body_total_services := length services;
                  body_total_waves := length waves;
                  deployment_waves := waves;
                  deployment_plan := deployment_plan;
                  estimated_time_seconds := estimated_time;
                  parallel_optimization := bool_decide (strategy ≠ "sequential");
                  dependency_analysis :=
                    {| total_dependencies :=
                         foldl Nat.add 0%nat
                           ((λ kv, length (dependencies kv.2)) <$> service_info);
                       independent_services :=
                         length (filter (λ kv, dependencies kv.2 = []) service_info);
                       max_dependency_depth := depth |} |}
        end
    end.

(** [lambda_handler]: any exception becomes a status-500 response. *)
Definition lambda_handler (o : SetOrder) (event : Event) : Response :=
  match analyze o event with
  | Ok body => Response200 body
  | Raise e => Response500 e
  end.

(** ** Two iteration orders *)

(** Ascending enumeration of [elements], and its reverse: two of the orders
    a set may be iterated in. *)
Definition elements_order : SetOrder :=
  {| iter := elements; iter_perm := λ X, reflexivity (elements X) |}.

Definition reverse_order : SetOrder :=
  {| iter := λ X, reverse (elements X);
     iter_perm := λ X, reverse_Permutation (elements X) |}.

(** * Vocabulary of the statements *)

(** Finished nodes of the traversal ([visited] and off the recursion stack):
    their out-edges stay among the finished nodes and none lies on a cycle. *)
Definition finished_ok (services : Dict ServiceInfo) (V R : gset string) : Prop :=
  ∀ b, b ∈ V → b ∉ R →
    (∀ d, edge services b d → d ∈ V ∧ d ∉ R) ∧ ¬ tc (edge services) b b.

(** What holds when [dfs(s)] is called: [s] is new, and every service on the
    recursion stack reaches [s]. *)
Definition dfs_pre (services : Dict ServiceInfo) (s : string) (V R : gset string) : Prop :=
  (s ∉ V) ∧ s ∈ nodes services ∧ R ⊆ V ∧ finished_ok services V R ∧
  (∀ r, r ∈ R → rtc (edge services) r s).

(** What holds when [dfs(s)] returns [b]. *)
Definition dfs_post (services : Dict ServiceInfo) (b : bool) (s : string)
    (V R : gset string) (st' : dfs_state) : Prop :=
  if b then has_cycle services
  else st'.2 = R ∧ V ⊆ st'.1 ∧ s ∈ st'.1 ∧ finished_ok services st'.1 R.

Definition rec_ok (services : Dict ServiceInfo) (n : nat)
    (rec : string → dfs_state → option (bool * dfs_state)) : Prop :=
  ∀ s V R, dfs_pre services s V R → (size (nodes services ∖ V) < n)%nat →
    ∃ b st', rec s (V, R) = Some (b, st') ∧ dfs_post services b s V R st'.

(** One step of filling a [defaultdict(list)] from a partial key function. *)
Definition group_step (f : string → option Z)
    (groups : list (Z * list string)) (name : string) : list (Z * list string) :=
  match f name with
  | Some k => group_append k name groups
  | None => groups
  end.

(** The group a service is filed under in [build_groups], if it is deployable. *)
Definition ready_key (group_key : ServiceInfo → Z) (services : Dict ServiceInfo)
    (deployed : gset string) (name : string) : option Z :=
  match dict_get name services with
  | Some info =>
      if deps_satisfied services deployed info then Some (group_key info) else None
  | None => None
  end.

Definition result_map {A B} (f : A → B) (r : Result A) : Result B :=
  match r with
  | Ok a => Ok (f a)
  | Raise e => Raise e
  end.

(** Every dependency of a member of wave [i] that satisfies [selected] lies
    in a wave [j < i]. *)
Definition deps_before (services : Dict ServiceInfo) (selected : string → Prop)
    (waves : list (list string)) : Prop :=
  ∀ i wave s info dep,
    waves !! i = Some wave → s ∈ wave →
    dict_get s services = Some info → dep ∈ dependencies info →
    selected dep →
    ∃ j wave', (j < i)%nat ∧ waves !! j = Some wave' ∧ dep ∈ wave'.

(** The waves hold exactly the members of [selected], each once. *)
Definition partitions (selected : list string) (waves : list (list string)) : Prop :=
  NoDup (mjoin waves) ∧ ∀ s, s ∈ mjoin waves ↔ s ∈ selected.

(** Two errors that differ at most in the order of the validator's messages. *)
Definition error_equiv (e1 e2 : Error) : Prop :=
  match e1, e2 with
  | InvalidDependencies l1, InvalidDependencies l2 => l1 ≡ₚ l2
  | _, _ => e1 = e2
  end.

Definition result_rel {A} (R : A → A → Prop) (r1 r2 : Result A) : Prop :=
  match r1, r2 with
  | Ok a1, Ok a2 => R a1 a2
  | Raise e1, Raise e2 => error_equiv e1 e2
  | _, _ => False
  end.

(** Two wave records that differ at most in the order of their members. *)
Definition wave_equiv (w1 w2 : Wave) : Prop :=
  wave_number w1 = wave_number w2 ∧
  wave_group w1 = wave_group w2 ∧
  wave_services w1 ≡ₚ wave_services w2 ∧
  wave_allow_parallel w1 = wave_allow_parallel w2 ∧
  wave_max_concurrent w1 = wave_max_concurrent w2 ∧
  estimated_time w1 = estimated_time w2.

(** The initial in-degree of a service: the entries of its dependency list
    that are keys of [services], counted with repetition. *)
Definition occ (services : Dict ServiceInfo) (info : ServiceInfo) : Z :=
  Z.of_nat (length (filter (λ dep, dep ∈ keys services) (dependencies info))).

(** What [release current] subtracts from the in-degree of [k]. *)
Definition dec_of (l : Dict ServiceInfo) (current k : string) : Z :=
  match dict_get k l with
  | Some info => if decide (current ∈ dependencies info) then 1 else 0
  | None => 0
  end.

(** [ordered services P]: every declared dependency of a member of [P] that
    is a key of [services] stands earlier in [P]. *)
Definition ordered (services : Dict ServiceInfo) (P : list string) : Prop :=
  ∀ i c info dep,
    P !! i = Some c → dict_get c services = Some info →
    dep ∈ dependencies info → dep ∈ keys services →
    ∃ j, (j < i)%nat ∧ P !! j = Some dep.

(** The invariant of the [while queue] loop of the sequential order; [P] is
    the list of services already appended to [result]. *)
Definition kahn_inv (services : Dict ServiceInfo) (in_degree : Dict Z)
    (queue P : list string) : Prop :=
  keys in_degree = keys services ∧
  (∀ s info, dict_get s services = Some info →
     dict_get s in_degree =
     Some (occ services info -
           Z.of_nat (length (filter (λ p, p ∈ dependencies info) P)))) ∧
  NoDup (P ++ queue) ∧
  (∀ s, s ∈ P ++ queue → s ∈ keys services) ∧
  (∀ s, s ∈ keys services → (s ∈ P ++ queue ↔ dict_get s in_degree = Some 0)) ∧
  ordered services P.

(** [m] is a greatest element of [xs]. *)
Definition is_max (m : Z) (xs : list Z) : Prop :=
  m ∈ xs ∧ ∀ x, x ∈ xs → x ≤ m.

(** The (service, dependency) pairs whose dependency is not a key of the
    graph, in declaration order: what the specification's validator would
    report one by one. *)
Definition missing_pairs (services : Dict ServiceInfo) : list (string * string) :=
  mjoin ((λ kv, (λ dep, (kv.1, dep)) <$>
                  filter (λ dep, dep ∉ keys services) (dependencies kv.2)) <$> services).

(** The closed set of strategy tags. *)
Definition known_strategies : list string :=
  ["sequential"; "parallel_optimized"; "priority_based"].

(** ** Sample inputs *)

Definition service (deps : list string) (prio group : Z) : ServiceInfo :=
  {| dependencies := deps; priority := prio; parallel_group := group;
     estimated_deploy_time := 60 |}.

Definition parallel_catalog : Dict StrategyConfig :=
  [ ("parallel_optimized", {| allow_parallel := Some true; max_concurrent := Some 3 |});
    ("priority_based", {| allow_parallel := Some true; max_concurrent := Some 2 |});
    ("sequential", {| allow_parallel := Some false; max_concurrent := Some 1 |}) ].

(** [auth] first, then [menu] and [payment] side by side, then [order]. *)
Definition sample_manager : DependencyManager :=
  {| dm_services :=
       [ ("auth", service [] 1 1);
         ("menu", service ["auth"] 2 2);
         ("payment", service ["auth"] 2 2);
         ("order", service ["auth"; "menu"] 3 3) ];
     deployment_strategies := parallel_catalog;
     rollback_order := ["order"; "payment"; "menu"; "auth"] |}.

(** [B] lists its dependency [A] twice. *)
Definition repeated_dependency_manager : DependencyManager :=
  {| dm_services := [ ("A", service [] 1 1); ("B", service ["A"; "A"] 2 2) ];
     deployment_strategies := parallel_catalog;
     rollback_order := [] |}.

(** The cycle A → B → C → A. *)
Definition cycle_graph : Dict ServiceInfo :=
  [ ("A", service ["B"] 1 1); ("B", service ["C"] 1 1); ("C", service ["A"] 1 1) ].

(** [A] and [B] both depend on the undeclared [Z]. *)
Definition dangling_graph : Dict ServiceInfo :=
  [ ("A", service ["Z"] 1 1); ("B", service ["Z"] 1 1) ].

Definition sample_event (strategy : string) : Event :=
  {| ev_services := ["auth-service"; "menu-service"; "payment-service"; "order-service"];
     ev_strategy := strategy |}.

(** The waves the analyzer plans for [sample_event] under [priority_based]. *)
Definition sample_priority_waves : list Wave :=
  match
    create_priority_based_waves elements_order
      (parse_service_dependencies (ev_services (sample_event "priority_based"))
         load_dependency_config)
      load_dependency_config
  with
  | Ok waves => waves
  | Raise _ => []
  end.

(** ** More of [DependencyManager] *)

(** [can_deploy_parallel]: no listed service that is declared has a
    dependency in the same list. *)
Definition can_deploy_parallel (dm : DependencyManager) (services : list string) : bool :=
  let service_set : gset string := list_to_set services in
  forallb (λ service_name,
             match dict_get service_name (dm_services dm) with
             | Some service =>
                 negb (existsb (λ dep, bool_decide (dep ∈ service_set))
                               (dependencies service))
             | None => true
             end) services.

(** ** More vocabulary *)

(** [is_path services p]: each id of [p] lists the next one as a dependency. *)
Fixpoint is_path (services : Dict ServiceInfo) (p : list string) : Prop :=
  match p with
  | [] => True
  | x :: rest =>
      match rest with
      | [] => True
      | y :: _ => edge services x y ∧ is_path services rest
      end
  end.

(** A dependency chain that starts at [s], repeats no id and avoids [visited]. *)
Definition chain_from (services : Dict ServiceInfo) (visited : gset string)
    (s : string) (p : list string) : Prop :=
  head p = Some s ∧ NoDup p ∧ (∀ x, x ∈ p → x ∉ visited) ∧ is_path services p.

(** [wave] is the whole group [g]: the services not deployed [earlier]
    whose dependencies are satisfied and whose key is [g], and [g] is the
    least key among such services. *)
Definition lowest_ready_group (group_key : ServiceInfo → Z) (services : Dict ServiceInfo)
    (earlier : list string) (g : Z) (wave : list string) : Prop :=
  (∀ s, s ∈ wave ↔
        s ∈ keys services ∧ (s ∉ earlier) ∧
        ready_key group_key services (list_to_set earlier) s = Some g) ∧
  (∀ s k, s ∈ keys services → s ∉ earlier →
          ready_key group_key services (list_to_set earlier) s = Some k → g ≤ k).

(** The dependencies the analyzer's config declares for a service (none for
    a service it does not know). *)
Definition config_dependencies (config : AnalyzerConfig) (s : string) : list string :=
  from_option dependencies [] (dict_get s (ac_services config)).

(** Every requested service comes with all the dependencies the config
    declares for it. *)
Definition selection_closed (config : AnalyzerConfig) (services : list string) : Prop :=
  Forall (λ s, Forall (λ dep, dep ∈ services) (config_dependencies config s)) services.

Lemma dict_get_Some {V} k (d : Dict V) v : dict_get k d = Some v → (k, v) ∈ d.
Proof.
  induction d as [|[k' v'] d IH]; simpl; [done|].
  case_decide; intros Hg.
  - simplify_eq. left.
  - right. auto.
Qed.

Lemma dict_get_None {V} k (d : Dict V) : dict_get k d = None ↔ k ∉ keys d.
Proof.
  unfold keys. induction d as [|[k' v'] d IH]; simpl.
  - split; [intros _; apply not_elem_of_nil | done].
  - case_decide; rewrite not_elem_of_cons.
    + split; [done | intros [? _]; done].
    + rewrite IH. naive_solver.
Qed.

Lemma dict_get_is_Some {V} k (d : Dict V) : is_Some (dict_get k d) ↔ k ∈ keys d.
Proof.
  rewrite <- not_eq_None_Some, dict_get_None.
  destruct (decide (k ∈ keys d)); naive_solver.
Qed.

Lemma dict_get_NoDup {V} k (d : Dict V) v :
  NoDup (keys d) → (k, v) ∈ d → dict_get k d = Some v.
Proof.
  unfold keys. induction d as [|[k' v'] d IH]; simpl; intros Hnd Hin.
  - by apply elem_of_nil in Hin.
  - apply NoDup_cons in Hnd as [Hk Hnd].
    apply elem_of_cons in Hin as [Heq | Hin].
    + simplify_eq. by rewrite decide_True.
    + rewrite decide_False; [auto|].
      intros ->. apply Hk. apply list_elem_of_fmap. by exists (k', v).
Qed.

Section graph.
Variable services : Dict ServiceInfo.
Local Abbreviation E := (edge services).
Local Abbreviation U := (nodes services).
Local Abbreviation finished_ok := (finished_ok services).
Local Abbreviation dfs_pre := (dfs_pre services).
Local Abbreviation rec_ok := (rec_ok services).

Lemma edge_source_key s d : E s d → s ∈ keys services.
Proof. intros (info & Hget & _). apply dict_get_is_Some. eauto. Qed.

Lemma edge_target_node s d : E s d → d ∈ U.
Proof.
  intros (info & Hget & Hd). apply dict_get_Some in Hget.
  unfold nodes. apply elem_of_union_r, elem_of_union_list.
  exists (list_to_set (dependencies info)). split.
  - apply list_elem_of_fmap. by exists (s, info).
  - by apply elem_of_list_to_set.
Qed.

Lemma key_node s : s ∈ keys services → s ∈ U.
Proof. intros. unfold nodes. apply elem_of_union_l. by apply elem_of_list_to_set. Qed.

Lemma tc_first_step x z : tc E x z → ∃ y, E x y ∧ rtc E y z.
Proof.
  destruct 1 as [x y H | x y z H Htc].
  - exists y. split; [done | constructor].
  - exists y. split; [done | by apply tc_rtc].
Qed.

Lemma finished_reach V R b y :
  finished_ok V R → b ∈ V → b ∉ R → rtc E b y → y ∈ V ∧ y ∉ R.
Proof.
  intros Hok Hb1 Hb2 Hr. induction Hr as [|x y z Hxy Hyz IH]; [done|].
  destruct (Hok x Hb1 Hb2) as [Hcl _].
  destruct (Hcl y Hxy). auto.
Qed.

Lemma size_diff_mono (V V' : gset string) :
  V ⊆ V' → (size (U ∖ V') ≤ size (U ∖ V))%nat.
Proof. intros. apply subseteq_size. set_solver. Qed.

Lemma dfs_deps_ok n rec s deps V R0 :
  rec_ok n rec →
  s ∈ V → R0 ⊆ V → finished_ok V R0 →
  (∀ r, r ∈ R0 → rtc E r s) →
  (∀ d, d ∈ deps → E s d) →
  (size (U ∖ V) < n)%nat →
  ∃ b st', dfs_deps rec deps (V, R0) = Some (b, st') ∧
    if b then has_cycle services
    else st'.2 = R0 ∧ V ⊆ st'.1 ∧ finished_ok st'.1 R0 ∧
         ∀ d, d ∈ deps → d ∈ st'.1 ∧ d ∉ R0.
Proof.
  intros Hrec. revert V.
  induction deps as [|dep rest IH]; intros V HsV HR Hok Hpath Hedges Hsz; simpl.
  - exists false, (V, R0). split; [done|]. simpl.
    split_and!; [done..|]. intros d Hd. by apply elem_of_nil in Hd.
  - assert (E s dep) as Hsd by (apply Hedges; left).
    assert (∀ d, d ∈ rest → E s d) as Hrest by (intros; apply Hedges; by right).
    destruct (decide (dep ∈ V)) as [HdV | HdV].
    + destruct (decide (dep ∈ R0)) as [HdR | HdR].
      * exists true, (V, R0). split; [done|]. exists dep.
        eapply tc_rtc_l; [by apply Hpath | by apply tc_once].
      * destruct (IH V) as (b & st' & Heq & Hpost); [done..|].
        exists b, st'. split; [done|]. destruct b; [done|].
        destruct Hpost as (? & Hsub & ? & Hall). split_and!; [done..|].
        intros d [-> | Hd]%elem_of_cons; [|by auto].
        split; [set_solver | done].
    + destruct (Hrec dep V R0) as (b & st' & Heq & Hpost); [|done|].
      { split_and!; [done | by eapply edge_target_node | done | done |].
        intros r Hr. eapply rtc_r; [by apply Hpath | done]. }
      rewrite Heq. destruct b.
      * exists true, st'. done.
      * destruct st' as [V' R']. simpl in Hpost.
        destruct Hpost as (-> & Hsub & HdV' & Hok').
        destruct (IH V') as (b & st'' & Heq' & Hpost');
          [set_solver | set_solver | done | done | done | | ].
        { pose proof (size_diff_mono V V' Hsub). lia. }
        exists b, st''. split; [done|]. destruct b; [done|].
        destruct Hpost' as (? & Hsub' & ? & Hall). split_and!; [done | set_solver | done |].
        intros d [-> | Hd]%elem_of_cons; [|by auto].
        split; [set_solver | set_solver].
Qed.

Lemma dfs_ok fuel : rec_ok fuel (dfs services fuel).
Proof.
  induction fuel as [|fuel IH]; intros s V R (HsV & HsU & HR & Hok & Hpath) Hsz; [lia|].
  assert (s ∉ R) as HsR by set_solver.
  assert (size (U ∖ ({[s]} ∪ V)) < size (U ∖ V))%nat as Hlt.
  { apply subset_size. apply strict_spec_alt. split; [set_solver|].
    intros Heq. assert (s ∈ U ∖ V) as Hin by set_solver. rewrite <- Heq in Hin. set_solver. }
  assert (finished_ok ({[s]} ∪ V) ({[s]} ∪ R)) as Hok1.
  { intros b Hb1 Hb2.
    assert (b ∈ V ∧ b ∉ R) as [HbV HbR] by set_solver.
    destruct (Hok b HbV HbR) as [Hcl Hnc]. split; [|done].
    intros d Hbd. destruct (Hcl d Hbd). set_solver. }
  simpl. destruct (dict_get s services) as [info|] eqn:Hget.
  - destruct (dfs_deps_ok fuel (dfs services fuel) s (dependencies info)
                ({[s]} ∪ V) ({[s]} ∪ R)) as (b & st' & Heq & Hpost);
      [done | set_solver | set_solver | done | | | lia | ].
    { intros r [->%elem_of_singleton | Hr]%elem_of_union; [constructor | auto]. }
    { intros d Hd. by exists info. }
    rewrite Heq. destruct b.
    + exists true, st'. done.
    + destruct st' as [V' R']. simpl in Hpost.
      destruct Hpost as (-> & Hsub & Hok' & Hall).
      exists false, (V', ({[s]} ∪ R) ∖ {[s]}). split; [done|]. simpl.
      assert (({[s]} ∪ R) ∖ {[s]} = R) as -> by set_solver.
      split_and!; [done | set_solver | set_solver |].
      intros b HbV' HbR. destruct (decide (b = s)) as [-> | Hne].
      * assert (∀ d, E s d → d ∈ V' ∧ d ∉ {[s]} ∪ R) as Hcl.
        { intros d (info' & Hget' & Hd). simplify_eq. by apply Hall. }
        split; [intros d Hd; destruct (Hcl d Hd); set_solver|].
        intros (d & Hsd & Hds)%tc_first_step.
        destruct (Hcl d Hsd) as [Hd1 Hd2].
        destruct (finished_reach _ _ d s Hok' Hd1 Hd2 Hds). set_solver.
      * assert (b ∉ {[s]} ∪ R) as HbR' by set_solver.
        destruct (Hok' b HbV' HbR') as [Hcl Hnc]. split; [|done].
        intros d Hd. destruct (Hcl d Hd). set_solver.
  - exists false, ({[s]} ∪ V, ({[s]} ∪ R) ∖ {[s]}). split; [done|]. simpl.
    assert (({[s]} ∪ R) ∖ {[s]} = R) as -> by set_solver.
    split_and!; [done | set_solver | set_solver |].
    intros b HbV' HbR. destruct (decide (b = s)) as [-> | Hne].
    + assert (∀ d, ¬ E s d) as Hno.
      { intros d (info' & Hget' & _). congruence. }
      split; [intros d Hd; by destruct (Hno d)|].
      intros (d & Hsd & _)%tc_first_step. by destruct (Hno d).
    + assert (b ∈ V) as HbV by set_solver.
      destruct (Hok b HbV HbR) as [Hcl Hnc]. split; [|done].
      intros d Hd. destruct (Hcl d Hd). set_solver.
Qed.

Lemma dfs_all_ok fuel todo V :
  (size U < fuel)%nat →
  finished_ok V ∅ →
  (∀ s, s ∈ todo → s ∈ keys services) →
  ∃ b, dfs_all services fuel todo (V, ∅) = Some b ∧
    if b then has_cycle services
    else ∃ V', V ⊆ V' ∧ finished_ok V' ∅ ∧ ∀ s, s ∈ todo → s ∈ V'.
Proof.
  intros Hfuel. revert V.
  induction todo as [|s rest IH]; intros V Hok Hkeys; simpl.
  - exists false. split; [done|]. exists V. split_and!; [done..|].
    intros s Hs. by apply elem_of_nil in Hs.
  - assert (∀ s, s ∈ rest → s ∈ keys services) as Hrest by (intros; apply Hkeys; by right).
    destruct (decide (s ∈ V)) as [HsV | HsV].
    + destruct (IH V Hok Hrest) as (b & Heq & Hpost).
      exists b. split; [done|]. destruct b; [done|].
      destruct Hpost as (V' & Hsub & Hok' & Hall).
      exists V'. split_and!; [done..|].
      intros x [-> | Hx]%elem_of_cons; [set_solver | auto].
    + destruct (dfs_ok fuel s V ∅) as (b & st' & Heq & Hpost).
      { split_and!; [done | apply key_node, Hkeys, list_elem_of_here | set_solver | done | set_solver]. }
      { assert (U ∖ V ⊆ U) as Hs by set_solver. apply subseteq_size in Hs. lia. }
      rewrite Heq. destruct b.
      * exists true. done.
      * destruct st' as [V' R']. simpl in Hpost.
        destruct Hpost as (-> & Hsub & HsV' & Hok').
        destruct (IH V' Hok' Hrest) as (b & Heq' & Hpost').
        exists b. split; [done|]. destruct b; [done|].
        destruct Hpost' as (V'' & Hsub' & Hok'' & Hall).
        exists V''. split_and!; [set_solver | done |].
        intros x [-> | Hx]%elem_of_cons; [set_solver | auto].
Qed.

Lemma has_circular_fuel_spec :
  ∃ b, has_circular_fuel services = Some b ∧ (b = true ↔ has_cycle services).
Proof.
  destruct (dfs_all_ok (S (size U)) (keys services) ∅) as (b & Heq & Hpost);
    [lia | intros b Hb; set_solver | done |].
  exists b. split; [done|]. destruct b; [done|].
  split; [done|]. intros [x Hx]. exfalso.
  destruct Hpost as (V' & _ & Hok & Hall).
  assert (x ∈ keys services) as Hk.
  { apply tc_first_step in Hx as (y & Hxy & _). by eapply edge_source_key. }
  destruct (Hok x (Hall x Hk)) as [_ Hnc]; [set_solver|]. done.
Qed.

Lemma has_circular_dependencies_spec :
  has_circular_dependencies services = true ↔ has_cycle services.
Proof.
  unfold has_circular_dependencies.
  destruct has_circular_fuel_spec as (b & -> & Hb). done.
Qed.
End graph.

(** ** Grouping by an integer key *)

Section grouping.
Variable f : string → option Z.

Local Abbreviation group_step := (group_step f).

Lemma group_get_append k k' name g :
  group_get k (group_append k' name g) =
  if decide (k = k') then group_get k g ++ [name] else group_get k g.
Proof.
  induction g as [|[k0 l0] g IH]; simpl.
  - repeat case_decide; simplify_eq; done.
  - destruct (decide (k' = k0)) as [-> | Hne]; simpl.
    + destruct (decide (k = k0)); done.
    + destruct (decide (k = k0)) as [-> | Hne'].
      * by rewrite decide_False.
      * apply IH.
Qed.

Lemma group_keys_append k k' name g :
  k ∈ (group_append k' name g).*1 ↔ k = k' ∨ k ∈ g.*1.
Proof.
  induction g as [|[k0 l0] g IH]; simpl.
  - rewrite list_elem_of_singleton. set_solver.
  - case_decide; simpl; rewrite !elem_of_cons; [naive_solver|].
    rewrite IH. naive_solver.
Qed.

Lemma group_get_foldl k g l :
  group_get k (foldl group_step g l) =
  group_get k g ++ filter (λ n, f n = Some k) l.
Proof.
  revert g. induction l as [|n l IH]; intros g; simpl.
  - by rewrite app_nil_r.
  - rewrite IH. unfold group_step.
    destruct (f n) as [k'|] eqn:Hf.
    + rewrite group_get_append, filter_cons.
      destruct (decide (k = k')) as [-> | Hne].
      * rewrite decide_True by done. by rewrite <- app_assoc.
      * rewrite decide_False by congruence. done.
    + rewrite filter_cons. rewrite decide_False by congruence. done.
Qed.

Lemma group_keys_foldl k g l :
  k ∈ (foldl group_step g l).*1 ↔ k ∈ g.*1 ∨ ∃ n, n ∈ l ∧ f n = Some k.
Proof.
  revert g. induction l as [|n l IH]; intros g; simpl.
  - split; [auto | intros [?|(n & Hn & _)]; [done | by apply elem_of_nil in Hn]].
  - rewrite IH. unfold group_step.
    destruct (f n) as [k'|] eqn:Hf.
    + rewrite group_keys_append. split.
      * intros [[-> | ?] | (n' & ? & ?)]; [right; exists n; split; [left | done] | by left |].
        right. exists n'. split; [by right | done].
      * intros [? | (n' & [-> | ?]%elem_of_cons & ?)]; [left; by right | |].
        -- left. left. congruence.
        -- right. by exists n'.
    + split.
      * intros [? | (n' & ? & ?)]; [by left|]. right. exists n'. split; [by right | done].
      * intros [? | (n' & [-> | ?]%elem_of_cons & ?)]; [by left | congruence |].
        right. by exists n'.
Qed.
End grouping.

Lemma min_key_spec k0 rest :
  min_key k0 rest ∈ k0 :: rest.*1 ∧ ∀ k, k ∈ k0 :: rest.*1 → min_key k0 rest ≤ k.
Proof.
  unfold min_key. generalize (rest.*1). clear rest. intros ks. revert k0.
  induction ks as [|k ks IH]; intros k0; simpl.
  - split; [left|]. intros k ->%list_elem_of_singleton. lia.
  - destruct (IH (Z.min k0 k)) as [Hin Hle]. split.
    + apply elem_of_cons in Hin as [-> | Hin]; [|by do 2 right].
      destruct (Z.min_spec k0 k) as [[_ ->] | [_ ->]]; [left | right; left].
    + intros k' Hk'. assert (foldl Z.min (Z.min k0 k) ks ≤ Z.min k0 k) by (apply Hle; left).
      apply elem_of_cons in Hk' as [-> | [-> | Hk']%elem_of_cons]; [lia | lia |].
      apply Hle. by right.
Qed.

(** ** The frontier loop *)

Lemma elements_list_to_set_perm (l : list string) :
  NoDup l → elements (list_to_set l : gset string) ≡ₚ l.
Proof. apply elements_list_to_set. Qed.

Lemma NoDup_iter (o : SetOrder) X : NoDup (o X).
Proof. rewrite (iter_perm o X). apply NoDup_elements. Qed.

Lemma elem_of_iter (o : SetOrder) X x : x ∈ o X ↔ x ∈ X.
Proof. rewrite (iter_perm o X). apply elem_of_elements. Qed.

Lemma iter_empty (o : SetOrder) : o ∅ = [].
Proof.
  apply Permutation_nil_r. rewrite (iter_perm o ∅). by rewrite elements_empty.
Qed.

Lemma wave_split (r : gset string) (wave : list string) :
  NoDup wave → (∀ x, x ∈ wave → x ∈ r) →
  wave ++ elements (r ∖ list_to_set wave) ≡ₚ elements r.
Proof.
  intros Hnd Hsub. apply NoDup_Permutation.
  - apply NoDup_app. split_and!; [done | | apply NoDup_elements].
    intros x Hx. rewrite elem_of_elements. set_solver.
  - apply NoDup_elements.
  - intros x. rewrite elem_of_app, !elem_of_elements, elem_of_difference, elem_of_list_to_set.
    split; [intros [?|[? ?]]; auto|]. intros Hx.
    destruct (decide (x ∈ wave)); auto.
Qed.

Section frontier_facts.
Variable o : SetOrder.
Variable group_key : ServiceInfo → Z.
Variable services : Dict ServiceInfo.
Local Abbreviation ready := (ready_key group_key services).
Local Abbreviation loop := (frontier_loop o group_key (λ _ _ current_wave, current_wave) services).

Lemma build_groups_fold deployed remaining :
  build_groups o group_key services deployed remaining =
  foldl (group_step (ready deployed)) [] (o remaining).
Proof.
  unfold build_groups. generalize (@nil (Z * list string)).
  induction (o remaining) as [|n l IH]; intros g; simpl; [done|].
  rewrite IH. f_equal. unfold group_step, ready_key.
  destruct (dict_get n services); [|done]. by destruct (deps_satisfied _ _ _).
Qed.

Lemma build_groups_nil deployed remaining :
  build_groups o group_key services deployed remaining = [] →
  ∀ n, n ∈ remaining → ready deployed n = None.
Proof.
  rewrite build_groups_fold. intros Hnil n Hn.
  destruct (ready deployed n) as [k|] eqn:Hk; [|done].
  assert (k ∈ (foldl (group_step (ready deployed)) [] (o remaining)).*1) as Hin.
  { apply group_keys_foldl. right. exists n. by rewrite elem_of_iter. }
  rewrite Hnil in Hin. by apply elem_of_nil in Hin.
Qed.

Lemma build_groups_cons deployed remaining k0 l0 rest :
  build_groups o group_key services deployed remaining = (k0, l0) :: rest →
  let m := min_key k0 rest in
  let wave := group_get m ((k0, l0) :: rest) in
  wave = filter (λ n, ready deployed n = Some m) (o remaining) ∧
  wave ≠ [] ∧
  (∀ n k, n ∈ remaining → ready deployed n = Some k → m ≤ k).
Proof.
  intros Hg m wave. subst wave. rewrite <- Hg.
  destruct (min_key_spec k0 rest) as [Hin Hmin]. fold m in Hin, Hmin.
  assert (∀ k, k ∈ k0 :: rest.*1 ↔ ∃ n, n ∈ remaining ∧ ready deployed n = Some k) as Hkeys.
  { intros k. change (k0 :: rest.*1) with (((k0, l0) :: rest).*1). rewrite <- Hg.
    rewrite build_groups_fold, group_keys_foldl. simpl. split.
    - intros [H | (n & Hn & ?)]; [by apply elem_of_nil in H|].
      exists n. by rewrite <- (elem_of_iter o).
    - intros (n & Hn & ?). right. exists n. by rewrite elem_of_iter. }
  assert (group_get m (build_groups o group_key services deployed remaining) =
          filter (λ n, ready deployed n = Some m) (o remaining)) as Heq.
  { by rewrite build_groups_fold, group_get_foldl. }
  rewrite Heq. split_and!.
  - done.
  - apply Hkeys in Hin as (n & Hn & Hk). intros Hnil.
    assert (n ∈ filter (λ n, ready deployed n = Some m) (o remaining)) as Hin'.
    { apply list_elem_of_filter. by rewrite elem_of_iter. }
    rewrite Hnil in Hin'. by apply elem_of_nil in Hin'.
  - intros n k Hn Hk. apply Hmin, Hkeys. eauto.
Qed.

Lemma ready_key_Some deployed n k :
  ready deployed n = Some k →
  ∃ info, dict_get n services = Some info ∧ group_key info = k ∧
    ∀ dep, dep ∈ dependencies info → dep ∈ deployed ∨ dep ∉ keys services.
Proof.
  unfold ready_key. destruct (dict_get n services) as [info|]; [|done].
  destruct (deps_satisfied services deployed info) eqn:Hsat; [|done].
  intros [= <-]. exists info. split_and!; [done..|].
  intros dep Hdep. unfold deps_satisfied in Hsat.
  rewrite forallb_forall in Hsat. apply list_elem_of_In, Hsat in Hdep.
  apply orb_true_iff in Hdep as [H%bool_decide_eq_true | H%bool_decide_eq_true]; auto.
Qed.

Lemma ready_key_is_Some deployed n info :
  dict_get n services = Some info →
  (∀ dep, dep ∈ dependencies info → dep ∈ deployed ∨ dep ∉ keys services) →
  ready deployed n = Some (group_key info).
Proof.
  intros Hget Hdeps. unfold ready_key. rewrite Hget.
  assert (deps_satisfied services deployed info = true) as ->; [|done].
  unfold deps_satisfied. apply forallb_forall. intros dep Hdep%list_elem_of_In.
  apply orb_true_iff. destruct (Hdeps dep Hdep); [left | right]; by apply bool_decide_eq_true.
Qed.

(** Safety: whatever the loop returns lists [remaining] once, and every
    member's declared dependencies were deployed before its wave. *)
Lemma frontier_loop_safe fuel n deployed remaining waves res :
  loop fuel n deployed remaining waves = Ok res →
  ∃ new, res = waves ++ new ∧
    mjoin new ≡ₚ elements remaining ∧
    ∀ i wave s info dep,
      new !! i = Some wave → s ∈ wave →
      dict_get s services = Some info → dep ∈ dependencies info →
      dep ∈ keys services →
      dep ∈ deployed ∨ ∃ j wave', (j < i)%nat ∧ new !! j = Some wave' ∧ dep ∈ wave'.
Proof.
  revert n deployed remaining waves.
  induction fuel as [|fuel IH]; intros n deployed remaining waves; simpl.
  - case_decide as Hempty; [|done]. intros [= <-]. exists []. rewrite app_nil_r.
    split_and!; [done | by rewrite Hempty, elements_empty |].
    intros i ???? Hi. by rewrite lookup_nil in Hi.
  - case_decide as Hempty.
    { intros [= <-]. exists []. rewrite app_nil_r.
      split_and!; [done | by rewrite Hempty, elements_empty |].
      intros i ???? Hi. by rewrite lookup_nil in Hi. }
    destruct (build_groups o group_key services deployed remaining)
      as [|[k0 l0] rest] eqn:Hg; [done|].
    destruct (build_groups_cons _ _ _ _ _ Hg) as (Hwave & Hne & Hmin).
    set (m := min_key k0 rest) in *.
    set (wave := group_get m ((k0, l0) :: rest)) in *.
    intros Hloop. apply IH in Hloop as (new & -> & Hperm & Hord).
    assert (NoDup wave) as Hnd.
    { rewrite Hwave. apply NoDup_filter, NoDup_iter. }
    assert (∀ x, x ∈ wave → x ∈ remaining ∧ ready deployed x = Some m) as Hin.
    { intros x. rewrite Hwave, list_elem_of_filter, elem_of_iter. naive_solver. }
    exists (wave :: new). split_and!.
    + by rewrite <- app_assoc.
    + simpl. rewrite Hperm. apply wave_split; [done|]. intros x Hx. by apply Hin.
    + intros [|i] wave' s info dep Hi Hs Hget Hdep Hkey; simpl in Hi.
      * simplify_eq. left. apply Hin in Hs as [_ Hr].
        apply ready_key_Some in Hr as (info' & Hget' & _ & Hdeps). simplify_eq.
        destruct (Hdeps dep Hdep); done.
      * destruct (Hord i wave' s info dep Hi Hs Hget Hdep Hkey) as [Hd | (j & w & Hj & Hw & Hdw)].
        -- apply elem_of_union in Hd as [Hd | Hd]; [by left|].
           right. exists 0%nat, wave. split_and!; [lia | done | by apply elem_of_list_to_set in Hd].
        -- right. exists (S j), w. split_and!; [lia | done | done].
Qed.
End frontier_facts.

(** ** Acyclic graphs have sinks *)

Lemma sink_exists (services : Dict ServiceInfo) (X : gset string) (x : string) :
  ¬ has_cycle services → x ∈ X →
  ∃ y, y ∈ X ∧ rtc (edge services) x y ∧ ∀ d, edge services y d → d ∉ X.
Proof.
  intros Hac. revert x. induction (set_wf X) as [X _ IH]. intros x Hx.
  destruct (dict_get x services) as [info|] eqn:Hget.
  - destruct (decide (Exists (λ d, d ∈ X) (dependencies info))) as [Hex | Hnex].
    + apply Exists_exists in Hex as (d & Hd & HdX).
      assert (edge services x d) as Hxd by (by exists info).
      assert (d ≠ x) as Hne.
      { intros ->. apply Hac. exists x. by apply tc_once. }
      assert (X ∖ {[x]} ⊂ X) as Hsub.
      { apply strict_spec_alt. split; [set_solver|]. intros Heq.
        rewrite <- Heq in Hx. set_solver. }
      assert (d ∈ X ∖ {[x]}) as HdX' by set_solver.
      destruct (IH (X ∖ {[x]}) Hsub d HdX') as (y & Hy & Hdy & Hsink).
      exists y. split_and!; [set_solver | by eapply rtc_l |].
      intros d' Hyd' Hd'. destruct (decide (d' = x)) as [-> | Hne'].
      * apply Hac. exists x.
        eapply tc_r; [eapply tc_rtc_r; [by apply tc_once | exact Hdy] | exact Hyd'].
      * apply (Hsink d' Hyd'). set_solver.
    + exists x. split_and!; [done | constructor |].
      intros d (info' & Hget' & Hd) HdX. simplify_eq.
      apply Hnex, Exists_exists. eauto.
  - exists x. split_and!; [done | constructor |].
    intros d (info' & Hget' & _). congruence.
Qed.

Section frontier_progress.
Variable o : SetOrder.
Variable group_key : ServiceInfo → Z.
Variable services : Dict ServiceInfo.
Local Abbreviation ready := (ready_key group_key services).
Local Abbreviation loop := (frontier_loop o group_key (λ _ _ current_wave, current_wave) services).
Local Abbreviation K := (list_to_set (keys services) : gset string).

(** Progress: on an acyclic graph the loop never gets stuck and needs at
    most [size remaining] rounds. *)
Lemma frontier_loop_total fuel n deployed remaining waves :
  ¬ has_cycle services →
  (size remaining ≤ fuel)%nat → remaining ⊆ K → K ⊆ deployed ∪ remaining →
  ∃ res, loop fuel n deployed remaining waves = Ok res.
Proof.
  intros Hac. revert n deployed remaining waves.
  induction fuel as [|fuel IH]; intros n deployed remaining waves Hsz HrK HK; simpl.
  - case_decide as Hempty; [eauto|]. exfalso. apply Hempty.
    apply leibniz_equiv, size_empty_inv. lia.
  - case_decide as Hempty; [eauto|].
    destruct (build_groups o group_key services deployed remaining)
      as [|[k0 l0] rest] eqn:Hg.
    + exfalso. apply set_choose_L in Hempty as [x Hx].
      destruct (sink_exists services remaining x Hac Hx) as (y & Hy & _ & Hsink).
      assert (y ∈ keys services) as Hyk.
      { apply HrK in Hy. by apply elem_of_list_to_set in Hy. }
      apply dict_get_is_Some in Hyk as [info Hget].
      pose proof (build_groups_nil o group_key services _ _ Hg y Hy) as Hnone.
      rewrite (ready_key_is_Some group_key services deployed y info Hget) in Hnone; [done|].
      intros dep Hdep. destruct (decide (dep ∈ keys services)) as [Hk | Hk]; [left | by right].
      assert (dep ∉ remaining) by (apply Hsink; by exists info).
      assert (dep ∈ K) as HdK by (by apply elem_of_list_to_set).
      apply HK in HdK. set_solver.
    + destruct (build_groups_cons o group_key services _ _ _ _ _ Hg) as (Hwave & Hne & _).
      set (m := min_key k0 rest) in *.
      set (wave := group_get m ((k0, l0) :: rest)) in *.
      assert (∀ x, x ∈ wave → x ∈ remaining) as Hin.
      { intros x. rewrite Hwave, list_elem_of_filter, elem_of_iter. naive_solver. }
      apply IH; [| set_solver |].
      * assert (∃ w, w ∈ wave) as [w Hw].
        { clear -Hne. destruct wave as [|w ?]; [done|]. exists w. left. }
        assert (remaining ∖ list_to_set wave ⊂ remaining) as Hsub.
        { apply strict_spec_alt. split; [set_solver|].
          intros Heq. assert (w ∈ remaining) as Hwr by (by apply Hin).
          rewrite <- Heq in Hwr. set_solver. }
        apply subset_size in Hsub.
        assert (size (remaining ∖ list_to_set wave) ≤ fuel)%nat as Hle by lia. exact Hle.
      * intros x Hx. apply HK in Hx.
        destruct (decide (x ∈ wave)); set_solver.
Qed.
End frontier_progress.

(** The loop commutes with the wave constructor: the member lists do not
    depend on what else a wave records. *)
Lemma frontier_loop_members {W} (o : SetOrder) (group_key : ServiceInfo → Z)
    (make_wave : nat → Z → list string → W) (members : W → list string)
    (services : Dict ServiceInfo) fuel n deployed remaining waves :
  (∀ n k l, members (make_wave n k l) = l) →
  result_map (fmap members)
    (frontier_loop o group_key make_wave services fuel n deployed remaining waves) =
  frontier_loop o group_key (λ _ _ current_wave, current_wave) services
    fuel n deployed remaining (members <$> waves).
Proof.
  intros Hm. revert n deployed remaining waves.
  induction fuel as [|fuel IH]; intros n deployed remaining waves; simpl.
  - by case_decide.
  - case_decide; [done|].
    destruct (build_groups o group_key services deployed remaining) as [|[k0 l0] rest];
      [done|].
    rewrite IH. by rewrite fmap_app; simpl; rewrite Hm.
Qed.

Lemma frontier_waves_members {W} (o : SetOrder) (group_key : ServiceInfo → Z)
    (make_wave : nat → Z → list string → W) (members : W → list string)
    (services : Dict ServiceInfo) :
  (∀ n k l, members (make_wave n k l) = l) →
  result_map (fmap members) (frontier_waves o group_key make_wave services) =
  frontier_waves o group_key (λ _ _ current_wave, current_wave) services.
Proof. intros Hm. unfold frontier_waves. by rewrite (frontier_loop_members _ _ _ members). Qed.

Lemma partitions_of_perm (selected : list string) (X : gset string) waves :
  X = list_to_set selected → mjoin waves ≡ₚ elements X → partitions selected waves.
Proof.
  intros -> Hperm. split.
  - rewrite Hperm. apply NoDup_elements.
  - intros s. rewrite Hperm, elem_of_elements. apply elem_of_list_to_set.
Qed.

Lemma frontier_waves_safe (o : SetOrder) (group_key : ServiceInfo → Z)
    (services : Dict ServiceInfo) waves :
  frontier_waves o group_key (λ _ _ current_wave, current_wave) services = Ok waves →
  partitions (keys services) waves ∧
  deps_before services (λ dep, dep ∈ keys services) waves.
Proof.
  unfold frontier_waves. intros (new & -> & Hperm & Hord)%frontier_loop_safe.
  simpl. split.
  - by eapply partitions_of_perm.
  - intros i wave s info dep Hi Hs Hget Hdep Hsel.
    destruct (Hord i wave s info dep Hi Hs Hget Hdep Hsel) as [Hd | ?]; [set_solver | done].
Qed.

Lemma frontier_waves_total (o : SetOrder) (group_key : ServiceInfo → Z)
    (services : Dict ServiceInfo) :
  ¬ has_cycle services →
  ∃ waves, frontier_waves o group_key (λ _ _ current_wave, current_wave) services = Ok waves.
Proof.
  intros Hac. unfold frontier_waves. apply frontier_loop_total; [done | lia | done | set_solver].
Qed.

(** The fuel handed to the loop is never used up, on any graph: each round
    removes a member of [remaining]. *)
Lemma frontier_loop_fuel {W} (o : SetOrder) (group_key : ServiceInfo → Z)
    (make_wave : nat → Z → list string → W) (services : Dict ServiceInfo)
    fuel n deployed remaining waves :
  (size remaining ≤ fuel)%nat →
  frontier_loop o group_key make_wave services fuel n deployed remaining waves
  ≠ Raise OutOfFuel.
Proof.
  revert n deployed remaining waves.
  induction fuel as [|fuel IH]; intros n deployed remaining waves Hsz; simpl.
  - case_decide as Hempty; [done|]. exfalso. apply Hempty.
    apply leibniz_equiv, size_empty_inv. lia.
  - case_decide as Hempty; [done|].
    destruct (build_groups o group_key services deployed remaining)
      as [|[k0 l0] rest] eqn:Hg; [done|].
    destruct (build_groups_cons o group_key services _ _ _ _ _ Hg) as (Hwave & Hne & _).
    set (m := min_key k0 rest) in *.
    set (wave := group_get m ((k0, l0) :: rest)) in *.
    apply IH.
    assert (∃ w, w ∈ wave) as [w Hw].
    { clear -Hne. destruct wave as [|w ?]; [done|]. exists w. left. }
    assert (w ∈ remaining) as Hwr.
    { rewrite Hwave in Hw. apply list_elem_of_filter in Hw as [_ Hw].
      by apply elem_of_iter in Hw. }
    assert (remaining ∖ list_to_set wave ⊂ remaining) as Hsub.
    { apply strict_spec_alt. split; [set_solver|].
      intros Heq. rewrite <- Heq in Hwr. set_solver. }
    apply subset_size in Hsub.
    assert (size (remaining ∖ list_to_set wave) ≤ fuel)%nat as Hle by lia. exact Hle.
Qed.

(** ** The iteration order only shows inside a wave *)

Lemma error_equiv_refl e : error_equiv e e.
Proof. destruct e; simpl; reflexivity. Qed.

Section frontier_order.
Context {W : Type}.
Variable RW : W → W → Prop.
Variables o1 o2 : SetOrder.
Variable group_key : ServiceInfo → Z.
Variable make_wave : nat → Z → list string → W.
Variable services : Dict ServiceInfo.
Hypothesis make_wave_perm :
  ∀ n k l1 l2, l1 ≡ₚ l2 → RW (make_wave n k l1) (make_wave n k l2).
Local Abbreviation ready := (ready_key group_key services).

Lemma frontier_loop_order fuel n deployed remaining waves1 waves2 :
  Forall2 RW waves1 waves2 →
  result_rel (Forall2 RW)
    (frontier_loop o1 group_key make_wave services fuel n deployed remaining waves1)
    (frontier_loop o2 group_key make_wave services fuel n deployed remaining waves2).
Proof.
  revert n deployed remaining waves1 waves2.
  induction fuel as [|fuel IH]; intros n deployed remaining waves1 waves2 Hw; simpl.
  - by case_decide.
  - case_decide as Hempty; [done|].
    destruct (build_groups o1 group_key services deployed remaining)
      as [|[k1 l1] rest1] eqn:Hg1;
    destruct (build_groups o2 group_key services deployed remaining)
      as [|[k2 l2] rest2] eqn:Hg2.
    + done.
    + exfalso.
      destruct (build_groups_cons o2 group_key services _ _ _ _ _ Hg2) as (Hwave & Hne & _).
      destruct (group_get (min_key k2 rest2) ((k2, l2) :: rest2)) as [|x l] eqn:Hx; [done|].
      assert (x ∈ x :: l) as Hin by left. rewrite Hwave in Hin.
      apply list_elem_of_filter in Hin as [Hr Hin]. apply elem_of_iter in Hin.
      rewrite (build_groups_nil o1 group_key services _ _ Hg1 x Hin) in Hr. done.
    + exfalso.
      destruct (build_groups_cons o1 group_key services _ _ _ _ _ Hg1) as (Hwave & Hne & _).
      destruct (group_get (min_key k1 rest1) ((k1, l1) :: rest1)) as [|x l] eqn:Hx; [done|].
      assert (x ∈ x :: l) as Hin by left. rewrite Hwave in Hin.
      apply list_elem_of_filter in Hin as [Hr Hin]. apply elem_of_iter in Hin.
      rewrite (build_groups_nil o2 group_key services _ _ Hg2 x Hin) in Hr. done.
    + destruct (build_groups_cons o1 group_key services _ _ _ _ _ Hg1) as (Hwave1 & Hne1 & Hmin1).
      destruct (build_groups_cons o2 group_key services _ _ _ _ _ Hg2) as (Hwave2 & Hne2 & Hmin2).
      set (m1 := min_key k1 rest1) in *. set (m2 := min_key k2 rest2) in *.
      set (wave1 := group_get m1 ((k1, l1) :: rest1)) in *.
      set (wave2 := group_get m2 ((k2, l2) :: rest2)) in *.
      assert (∃ x, x ∈ remaining ∧ ready deployed x = Some m1) as (x1 & Hx1 & Hr1).
      { destruct wave1 as [|x l]; [done|]. exists x.
        assert (x ∈ x :: l) as Hin by left. rewrite Hwave1 in Hin.
        apply list_elem_of_filter in Hin as [Hr Hin]. by apply elem_of_iter in Hin. }
      assert (∃ x, x ∈ remaining ∧ ready deployed x = Some m2) as (x2 & Hx2 & Hr2).
      { destruct wave2 as [|x l]; [done|]. exists x.
        assert (x ∈ x :: l) as Hin by left. rewrite Hwave2 in Hin.
        apply list_elem_of_filter in Hin as [Hr Hin]. by apply elem_of_iter in Hin. }
      assert (m1 = m2) as Hm.
      { pose proof (Hmin1 x2 m2 Hx2 Hr2). pose proof (Hmin2 x1 m1 Hx1 Hr1). lia. }
      assert (wave1 ≡ₚ wave2) as Hperm.
      { rewrite Hwave1, Hwave2, Hm. apply filter_Permutation.
        by rewrite (iter_perm o1), (iter_perm o2). }
      assert ((list_to_set wave1 : gset string) = list_to_set wave2) as Hset.
      { by apply list_to_set_perm_L. }
      change (result_rel (Forall2 RW)
        (frontier_loop o1 group_key make_wave services fuel (S n)
           (deployed ∪ list_to_set wave1) (remaining ∖ list_to_set wave1)
           (waves1 ++ [make_wave n m1 wave1]))
        (frontier_loop o2 group_key make_wave services fuel (S n)
           (deployed ∪ list_to_set wave2) (remaining ∖ list_to_set wave2)
           (waves2 ++ [make_wave n m2 wave2]))).
      clearbody m1 m2 wave1 wave2. subst m2. rewrite Hset. apply IH.
      apply Forall2_app; [done|]. constructor; [|constructor].
      by apply make_wave_perm.
Qed.

Lemma frontier_waves_order :
  result_rel (Forall2 RW)
    (frontier_waves o1 group_key make_wave services)
    (frontier_waves o2 group_key make_wave services).
Proof. unfold frontier_waves. apply frontier_loop_order. constructor. Qed.
End frontier_order.

(** ** Dict updates *)

Lemma keys_dict_alter {V} (f : V → V) k (d : Dict V) : keys (dict_alter f k d) = keys d.
Proof.
  unfold keys. induction d as [|[k' v] d IH]; simpl; [done|].
  case_decide; simpl; [done | by f_equal].
Qed.

Lemma dict_get_alter {V} (f : V → V) k k' (d : Dict V) :
  dict_get k' (dict_alter f k d) =
  if decide (k' = k) then f <$> dict_get k' d else dict_get k' d.
Proof.
  induction d as [|[k0 v] d IH]; simpl; [by case_decide|].
  destruct (decide (k = k0)) as [-> | Hne]; simpl.
  - destruct (decide (k' = k0)); done.
  - destruct (decide (k' = k0)) as [-> | Hne'].
    + by rewrite decide_False.
    + apply IH.
Qed.

Lemma dict_get_fmap_const {V} (d : Dict V) (c : Z) k :
  dict_get k ((λ kv, (kv.1, c)) <$> d) = (λ _, c) <$> dict_get k d.
Proof.
  induction d as [|[k0 v] d IH]; simpl; [done|]. by case_decide.
Qed.

Lemma keys_fmap_const {V} (d : Dict V) (c : Z) : keys ((λ kv, (kv.1, c)) <$> d) = keys d.
Proof. unfold keys. rewrite <- list_fmap_compose. done. Qed.

Lemma dict_get_elem_of {V} k (d : Dict V) v :
  NoDup (keys d) → dict_get k d = Some v ↔ (k, v) ∈ d.
Proof. intros Hnd. split; [apply dict_get_Some | by apply dict_get_NoDup]. Qed.

Lemma dict_get_not_key {V} k (d : Dict V) : k ∉ d.*1 → dict_get k d = None.
Proof. intros. by apply dict_get_None. Qed.

(** ** Counting dependencies *)

Lemma count_le (K deps L : list string) :
  NoDup L → (∀ x, x ∈ L → x ∈ K) →
  (length (filter (λ p, p ∈ deps) L) ≤ length (filter (λ dep, dep ∈ K) deps))%nat.
Proof.
  intros Hnd Hsub. apply submseteq_length, NoDup_submseteq.
  - by apply NoDup_filter.
  - intros x [Hx1 Hx2]%list_elem_of_filter. apply list_elem_of_filter. auto.
Qed.

Lemma count_eq_all (K deps L : list string) dep :
  NoDup L → (∀ x, x ∈ L → x ∈ K) →
  length (filter (λ p, p ∈ deps) L) = length (filter (λ dep, dep ∈ K) deps) →
  dep ∈ deps → dep ∈ K → dep ∈ L.
Proof.
  intros Hnd Hsub Hlen Hdep HK.
  assert (filter (λ p, p ∈ deps) L ≡ₚ filter (λ dep, dep ∈ K) deps) as Hperm.
  { apply submseteq_length_Permutation; [|lia]. apply NoDup_submseteq.
    - by apply NoDup_filter.
    - intros x [Hx1 Hx2]%list_elem_of_filter. apply list_elem_of_filter. auto. }
  assert (dep ∈ filter (λ p, p ∈ deps) L) as Hin.
  { rewrite Hperm. by apply list_elem_of_filter. }
  by apply list_elem_of_filter in Hin as [_ ?].
Qed.

Lemma count_full (K deps L : list string) :
  NoDup deps → NoDup L → (∀ x, x ∈ L → x ∈ K) →
  (∀ dep, dep ∈ deps → dep ∈ K → dep ∈ L) →
  length (filter (λ p, p ∈ deps) L) = length (filter (λ dep, dep ∈ K) deps).
Proof.
  intros Hnd HndL Hsub Hall. apply Nat.le_antisymm; [by apply count_le|].
  apply submseteq_length, NoDup_submseteq.
  - by apply NoDup_filter.
  - intros x [Hx1 Hx2]%list_elem_of_filter. apply list_elem_of_filter. auto.
Qed.

(** ** The in-degree table *)

Section kahn_facts.
Variable services : Dict ServiceInfo.
Hypothesis services_nodup : NoDup (keys services).
Local Abbreviation K := (keys services).

Lemma count_deps_spec (s : string) (deps : list string) (deg : Dict Z) :
  let deg' := foldl (λ in_degree dep,
                      if decide (dep ∈ keys in_degree)
                      then dict_alter (λ n, n + 1) s in_degree
                      else in_degree) deg deps in
  keys deg' = keys deg ∧
  ∀ k, dict_get k deg' =
       if decide (k = s)
       then (λ n, n + Z.of_nat (length (filter (λ dep, dep ∈ keys deg) deps))) <$> dict_get k deg
       else dict_get k deg.
Proof.
  revert deg. induction deps as [|dep deps IH]; intros deg; simpl.
  - split; [done|]. intros k. case_decide; [|done].
    destruct (dict_get k deg); simpl; [f_equal; lia | done].
  - destruct (decide (dep ∈ keys deg)) as [Hin | Hnin].
    + destruct (IH (dict_alter (λ n, n + 1) s deg)) as [Hk Hget].
      rewrite keys_dict_alter in Hk. split; [done|]. intros k.
      rewrite Hget, keys_dict_alter, dict_get_alter, filter_cons.
      rewrite (decide_True (P := dep ∈ keys deg)) by done.
      case_decide; [|done]. destruct (dict_get k deg); simpl; [f_equal; lia | done].
    + destruct (IH deg) as [Hk Hget]. split; [done|]. intros k.
      rewrite Hget, filter_cons.
      rewrite (decide_False (P := dep ∈ keys deg)) by done. done.
Qed.

Lemma count_all_spec (l : Dict ServiceInfo) (deg : Dict Z) :
  NoDup (keys l) →
  let deg' := foldl (λ in_degree kv,
                      foldl (λ in_degree dep,
                               if decide (dep ∈ keys in_degree)
                               then dict_alter (λ n, n + 1) kv.1 in_degree
                               else in_degree)
                            in_degree (dependencies kv.2)) deg l in
  keys deg' = keys deg ∧
  ∀ k, dict_get k deg' =
       match dict_get k l with
       | Some info =>
           (λ n, n + Z.of_nat (length (filter (λ dep, dep ∈ keys deg) (dependencies info))))
             <$> dict_get k deg
       | None => dict_get k deg
       end.
Proof.
  revert deg. induction l as [|[s info] l IH]; intros deg Hnd; simpl; [done|].
  apply NoDup_cons in Hnd as [Hs Hnd].
  destruct (count_deps_spec s (dependencies info) deg) as [Hk1 Hget1].
  simpl in Hk1, Hget1.
  set (deg1 := foldl _ deg (dependencies info)) in *.
  destruct (IH deg1 Hnd) as [Hk Hget]. simpl in Hk, Hget.
  split; [congruence|]. intros k. rewrite Hget, Hget1, Hk1.
  destruct (decide (k = s)) as [-> | Hne].
  - by rewrite dict_get_not_key.
  - done.
Qed.

Lemma in_degree_init_spec :
  keys (in_degree_init services) = K ∧
  ∀ s info, dict_get s services = Some info →
    dict_get s (in_degree_init services) = Some (occ services info).
Proof.
  unfold in_degree_init.
  destruct (count_all_spec services ((λ kv, (kv.1, 0)) <$> services) services_nodup)
    as [Hk Hget]. simpl in Hk, Hget.
  rewrite keys_fmap_const in Hk. split; [done|].
  intros s info Hs. rewrite Hget, Hs, dict_get_fmap_const, Hs, keys_fmap_const. simpl.
  unfold occ. f_equal.
Qed.

(** ** One round of the loop *)

Lemma release_spec_gen (current : string) (l : Dict ServiceInfo) (deg : Dict Z)
    (q : list string) :
  NoDup (keys l) →
  let st := foldl (λ st kv,
                     if decide (current ∈ dependencies kv.2) then
                       let in_degree' := dict_alter (λ n, n - 1) kv.1 st.1 in
                       if decide (dict_get kv.1 in_degree' = Some 0)
                       then (in_degree', st.2 ++ [kv.1])
                       else (in_degree', st.2)
                     else st) (deg, q) l in
  keys st.1 = keys deg ∧
  (∀ k, dict_get k st.1 = (λ n, n - dec_of l current k) <$> dict_get k deg) ∧
  st.2 = q ++ (filter (λ kv, current ∈ dependencies kv.2 ∧
                             dict_get kv.1 st.1 = Some 0) l).*1.
Proof.
  revert deg q. induction l as [|[s info] l IH]; intros deg q Hnd; cbn [foldl fst snd].
  - split_and!; [done | | by rewrite app_nil_r].
    intros k. unfold dec_of. simpl. destruct (dict_get k deg); simpl; [f_equal; lia | done].
  - apply NoDup_cons in Hnd as [Hs Hnd].
    assert (dec_of l current s = 0) as Hdec0.
    { unfold dec_of. by rewrite dict_get_not_key. }
    destruct (decide (current ∈ dependencies info)) as [Hcur | Hcur].
    + set (deg1 := dict_alter (λ n, n - 1) s deg).
      set (q1 := if decide (dict_get s deg1 = Some 0) then q ++ [s] else q).
      destruct (IH deg1 q1 Hnd) as (Hk & Hget & Hq). simpl in Hk, Hget, Hq.
      assert (∀ st, (if decide (dict_get s deg1 = Some 0) then (deg1, q ++ [s]) else (deg1, q)) = st
                    → st = (deg1, q1)) as Hst.
      { intros st <-. unfold q1. by case_decide. }
      rewrite (Hst _ eq_refl).
      set (st := foldl _ (deg1, q1) l) in *.
      assert (dict_get s st.1 = dict_get s deg1) as Hsame.
      { rewrite Hget, Hdec0. destruct (dict_get s deg1); simpl; [f_equal; lia | done]. }
      split_and!.
      * rewrite Hk. apply keys_dict_alter.
      * intros k. rewrite Hget. unfold deg1. rewrite dict_get_alter.
        unfold dec_of at 2. simpl. destruct (decide (k = s)) as [-> | Hne].
        -- rewrite Hdec0, decide_True by done.
           destruct (dict_get s deg); simpl; [f_equal; lia | done].
        -- by unfold dec_of.
      * rewrite Hq, filter_cons. simpl. rewrite Hsame. unfold q1.
        destruct (decide (dict_get s deg1 = Some 0)) as [Hz | Hz].
        -- rewrite decide_True by done. simpl. by rewrite <- app_assoc.
        -- rewrite decide_False by tauto. done.
    + destruct (IH deg q Hnd) as (Hk & Hget & Hq). simpl in Hk, Hget, Hq.
      set (st := foldl _ (deg, q) l) in *.
      split_and!; [done | |].
      * intros k. rewrite Hget. unfold dec_of at 2. simpl.
        destruct (decide (k = s)) as [-> | Hne].
        -- rewrite Hdec0, decide_False by done. done.
        -- by unfold dec_of.
      * rewrite Hq, filter_cons. simpl. rewrite decide_False by tauto. done.
Qed.

Lemma release_spec (current : string) (deg : Dict Z) (q : list string) :
  let st := release services current deg q in
  keys st.1 = keys deg ∧
  (∀ k, dict_get k st.1 = (λ n, n - dec_of services current k) <$> dict_get k deg) ∧
  st.2 = q ++ (filter (λ kv, current ∈ dependencies kv.2 ∧
                             dict_get kv.1 st.1 = Some 0) services).*1.
Proof. apply release_spec_gen, services_nodup. Qed.

Lemma kahn_inv_init :
  kahn_inv services (in_degree_init services)
    (filter (λ kv, kv.2 = 0) (in_degree_init services)).*1 [].
Proof.
  destruct in_degree_init_spec as [Hk Hget].
  set (deg := in_degree_init services) in *.
  assert (NoDup (keys deg)) as Hnd by (by rewrite Hk).
  assert (∀ s, s ∈ (filter (λ kv, kv.2 = 0) deg).*1 ↔ dict_get s deg = Some 0) as Hq.
  { intros s. rewrite list_elem_of_fmap. split.
    - intros ([s' v] & -> & [Hv Hin]%list_elem_of_filter). simpl in *. subst v.
      by apply dict_get_NoDup.
    - intros Hin%dict_get_Some. exists (s, 0). split; [done|].
      by apply list_elem_of_filter. }
  split_and!; simpl.
  - done.
  - intros s info Hs. rewrite (Hget s info Hs). f_equal. lia.
  - eapply sublist_NoDup; [exact Hnd|]. apply fmap_sublist, sublist_filter.
  - intros s Hs. rewrite <- Hk. eapply elem_of_sublist; [exact Hs|].
    apply fmap_sublist, sublist_filter.
  - intros s _. apply Hq.
  - intros i c info dep Hi. by rewrite lookup_nil in Hi.
Qed.

Lemma dec_of_services current s info :
  dict_get s services = Some info →
  dec_of services current s = if decide (current ∈ dependencies info) then 1 else 0.
Proof. intros Hs. unfold dec_of. by rewrite Hs. Qed.

Lemma kahn_inv_step current q deg P :
  kahn_inv services deg (current :: q) P →
  kahn_inv services (release services current deg q).1
                    (release services current deg q).2 (P ++ [current]).
Proof.
  intros (Hk & Hdeg & Hnd & HinK & Hzero & Hord).
  destruct (release_spec current deg q) as (Hk' & Hget' & Hq'). simpl in Hk', Hget', Hq'.
  set (st := release services current deg q) in *.
  set (new := (filter (λ kv, current ∈ dependencies kv.2 ∧ dict_get kv.1 st.1 = Some 0)
                 services).*1) in *.
  assert (NoDup (P ++ [current]) ∧ NoDup ((P ++ [current]) ++ q)) as [HndP Hnd'].
  { assert (NoDup ((P ++ [current]) ++ q)) as H by (by rewrite <- app_assoc).
    split; [|done]. by apply NoDup_app in H as (? & _ & _). }
  assert (∀ x, x ∈ P ++ [current] → x ∈ K) as HPK.
  { intros x Hx. apply HinK. rewrite elem_of_app in Hx. rewrite elem_of_app, elem_of_cons.
    destruct Hx as [? | ->%list_elem_of_singleton]; auto. }
  assert (∀ s info, dict_get s services = Some info →
            dict_get s st.1 =
            Some (occ services info -
                  Z.of_nat (length (filter (λ p, p ∈ dependencies info) (P ++ [current]))))) as Hdeg'.
  { intros s info Hs. rewrite Hget', (Hdeg s info Hs), (dec_of_services _ _ _ Hs). simpl.
    f_equal. rewrite filter_app, length_app, filter_cons, filter_nil.
    case_decide; simpl; lia. }
  assert (∀ s info, dict_get s services = Some info →
            0 ≤ occ services info -
                Z.of_nat (length (filter (λ p, p ∈ dependencies info) (P ++ [current])))) as Hnonneg.
  { intros s info Hs. unfold occ.
    pose proof (count_le K (dependencies info) (P ++ [current]) HndP HPK). lia. }
  assert (∀ s, s ∈ new ↔
            ∃ info, dict_get s services = Some info ∧ current ∈ dependencies info ∧
                    dict_get s st.1 = Some 0) as Hnew.
  { intros s. unfold new. rewrite list_elem_of_fmap. split.
    - intros ([s' info] & -> & [[Hc Hz] Hin]%list_elem_of_filter). simpl in *.
      exists info. split_and!; [by apply dict_get_NoDup | done | done].
    - intros (info & Hs%dict_get_Some & Hc & Hz). exists (s, info). split; [done|].
      by apply list_elem_of_filter. }
  assert (∀ s, s ∈ P ++ current :: q ↔ s ∈ (P ++ [current]) ++ q) as Hsame.
  { intros s. rewrite <- app_assoc. done. }
  split_and!.
  - by rewrite Hk'.
  - done.
  - rewrite Hq', app_assoc. apply NoDup_app. split_and!; [done | |].
    + intros s Hs (info & Hget & Hc & Hz)%Hnew.
      assert (s ∈ K) as HsK by (apply dict_get_is_Some; eauto).
      apply Hsame, Hzero in Hs; [|done].
      rewrite Hget', Hs, (dec_of_services _ _ _ Hget), decide_True in Hz by done.
      simpl in Hz. done.
    + unfold new. eapply sublist_NoDup; [exact services_nodup|].
      apply fmap_sublist, sublist_filter.
  - intros s. rewrite Hq', app_assoc, elem_of_app. intros [Hs | Hs].
    + apply HinK. by rewrite <- app_assoc in Hs.
    + apply Hnew in Hs as (info & Hget & _). apply dict_get_is_Some. eauto.
  - intros s HsK. rewrite Hq', app_assoc, elem_of_app.
    destruct (proj2 (dict_get_is_Some s services) HsK) as [info Hs].
    pose proof (Hnonneg s info Hs) as Hnn. pose proof (Hdeg' s info Hs) as Hd'.
    pose proof (Hdeg s info Hs) as Hd.
    rewrite filter_app, length_app, filter_cons, filter_nil in Hd', Hnn.
    split.
    + intros [Hin | Hin]; [|by apply Hnew in Hin as (? & ? & ? & ?)].
      apply Hsame, Hzero in Hin; [|done]. rewrite Hin in Hd. rewrite Hd'. f_equal.
      injection Hd as Hd. revert Hnn. case_decide; simpl; lia.
    + intros Hz. destruct (decide (current ∈ dependencies info)) as [Hc | Hc].
      * right. apply Hnew. eauto.
      * left. apply Hsame, Hzero; [done|]. rewrite Hd. rewrite Hz in Hd'.
        injection Hd' as Hd'. f_equal. revert Hd'.
        try rewrite decide_False by done. simpl. lia.
  - intros i c info dep Hi Hc Hdep HdK.
    destruct (decide (i < length P)%nat) as [Hlt | Hge].
    + rewrite lookup_app_l in Hi by done.
      destruct (Hord i c info dep Hi Hc Hdep HdK) as (j & Hj & HPj).
      exists j. split; [done|]. rewrite lookup_app_l; [done|]. lia.
    + rewrite lookup_app_r in Hi by lia.
      apply list_lookup_singleton_Some in Hi as [Hi <-].
      assert (current ∈ P ++ current :: q) as Hcur by set_solver.
      apply Hzero in Hcur; [|apply HinK; set_solver].
      rewrite (Hdeg current info Hc) in Hcur. injection Hcur as Hcur.
      assert (dep ∈ P) as HdP.
      { apply (count_eq_all K (dependencies info)); [| | | done | done].
        - by apply NoDup_app in HndP as (? & _ & _).
        - intros x Hx. apply HPK. set_solver.
        - unfold occ in Hcur. lia. }
      apply list_elem_of_lookup in HdP as [j Hj].
      exists j. pose proof (lookup_lt_Some _ _ _ Hj).
      split; [lia|]. by rewrite lookup_app_l.
Qed.

(** The loop, run from a state that satisfies the invariant, returns, and
    the invariant holds at the exit with an empty queue. *)
Lemma kahn_loop_run fuel n deg queue P :
  kahn_inv services deg queue P →
  (length K ≤ fuel + length P)%nat →
  ∃ P' deg',
    kahn_loop (λ _ current, [current]) services fuel n deg queue ((λ c, [c]) <$> P) =
    Ok ((λ c, [c]) <$> P') ∧
    kahn_inv services deg' [] P'.
Proof.
  revert n deg queue P. induction fuel as [|fuel IH]; intros n deg queue P Hinv Hlen.
  - destruct queue as [|current q]; simpl; [eauto|]. exfalso.
    destruct Hinv as (_ & _ & Hnd & HinK & _).
    assert (length (P ++ current :: q) ≤ length K)%nat as Hle.
    { apply submseteq_length, NoDup_submseteq; done. }
    rewrite length_app in Hle. simpl in Hle. lia.
  - destruct queue as [|current q]; simpl; [eauto|].
    apply kahn_inv_step in Hinv.
    destruct (IH (S n) _ _ _ Hinv) as (P' & deg' & Heq & Hinv').
    { rewrite length_app. simpl. lia. }
    exists P', deg'. split; [|done]. rewrite <- Heq. by rewrite fmap_app.
Qed.

Lemma deps_before_singletons P :
  ordered services P →
  deps_before services (λ dep, dep ∈ K) ((λ c, [c]) <$> P).
Proof.
  intros Hord i wave s info dep Hi Hs Hget Hdep HK.
  rewrite list_lookup_fmap in Hi.
  destruct (P !! i) as [c|] eqn:Hc; [|done]. simpl in Hi. simplify_eq.
  apply list_elem_of_singleton in Hs as ->.
  destruct (Hord i c info dep Hc Hget Hdep HK) as (j & Hj & HPj).
  exists j, [dep]. split_and!; [done | | left].
  by rewrite list_lookup_fmap, HPj.
Qed.

Lemma mjoin_singletons (P : list string) : mjoin ((λ c, [c]) <$> P) = P.
Proof. induction P; simpl; [done | by f_equal]. Qed.

(** On an acyclic graph whose dependency lists repeat no id, the loop ends
    with every service appended. *)
Lemma kahn_exit_complete deg P :
  ¬ has_cycle services →
  (∀ s info, dict_get s services = Some info → NoDup (dependencies info)) →
  kahn_inv services deg [] P →
  ∀ s, s ∈ K → s ∈ P.
Proof.
  intros Hac Hdeps (Hk & Hdeg & Hnd & HinK & Hzero & Hord) s HsK.
  rewrite app_nil_r in *.
  destruct (decide (s ∈ P)) as [|HsP]; [done|]. exfalso.
  set (X := (list_to_set K ∖ list_to_set P : gset string)).
  assert (s ∈ X) as HsX by set_solver.
  destruct (sink_exists services X s Hac HsX) as (y & HyX & _ & Hsink).
  assert (y ∈ K ∧ y ∉ P) as [HyK HyP] by set_solver.
  destruct (proj2 (dict_get_is_Some y services) HyK) as [info Hy].
  apply HyP, Hzero; [done|]. rewrite (Hdeg y info Hy). f_equal.
  unfold occ.
  rewrite (count_full K (dependencies info) P); [lia | by eapply Hdeps | done | done |].
  intros dep Hdep HdK.
  assert (dep ∉ X) as HdX by (apply Hsink; by exists info).
  destruct (decide (dep ∈ P)); [done|]. set_solver.
Qed.
End kahn_facts.

(** The loop commutes with the wave constructor. *)
Lemma kahn_loop_members {W} (make_wave : nat → string → W) (members : W → list string)
    (services : Dict ServiceInfo) fuel n deg queue result :
  (∀ n c, members (make_wave n c) = [c]) →
  result_map (fmap members) (kahn_loop make_wave services fuel n deg queue result) =
  kahn_loop (λ _ current, [current]) services fuel n deg queue (members <$> result).
Proof.
  intros Hm. revert n deg queue result.
  induction fuel as [|fuel IH]; intros n deg queue result; simpl.
  - by destruct queue.
  - destruct queue as [|current q]; [done|].
    rewrite IH. by rewrite fmap_app; simpl; rewrite Hm.
Qed.

Lemma sequential_waves_members {W} (make_wave : nat → string → W)
    (members : W → list string) (services : Dict ServiceInfo) :
  (∀ n c, members (make_wave n c) = [c]) →
  result_map (fmap members) (sequential_waves make_wave services) =
  sequential_waves (λ _ current, [current]) services.
Proof. intros Hm. unfold sequential_waves. by rewrite (kahn_loop_members _ members). Qed.

(** The sequential order always returns; every service it lists comes after
    its declared dependencies, and none is listed twice. *)
Lemma sequential_waves_safe (services : Dict ServiceInfo) :
  NoDup (keys services) →
  ∃ P, sequential_waves (λ _ current, [current]) services = Ok ((λ c, [c]) <$> P) ∧
       NoDup P ∧ (∀ s, s ∈ P → s ∈ keys services) ∧
       deps_before services (λ dep, dep ∈ keys services) ((λ c, [c]) <$> P) ∧
       (¬ has_cycle services →
        (∀ s info, dict_get s services = Some info → NoDup (dependencies info)) →
        ∀ s, s ∈ keys services → s ∈ P).
Proof.
  intros Hnd. unfold sequential_waves.
  destruct (kahn_loop_run services Hnd (length services) 1 (in_degree_init services)
              (filter (λ kv, kv.2 = 0) (in_degree_init services)).*1 [])
    as (P & deg' & Heq & Hinv).
  { by apply kahn_inv_init. }
  { unfold keys. rewrite length_fmap. simpl. lia. }
  exists P. split; [exact Heq|].
  pose proof Hinv as (_ & _ & HndP & HinK & _ & Hord). rewrite app_nil_r in *.
  split_and!; [done | done | by apply deps_before_singletons |].
  intros Hac Hdeps. by eapply kahn_exit_complete.
Qed.

(** ** Built-ins *)

Lemma foldl_max_spec (x : Z) (xs : list Z) : is_max (foldl Z.max x xs) (x :: xs).
Proof.
  revert x. induction xs as [|y ys IH]; intros x; simpl.
  - split; [left|]. intros z ->%list_elem_of_singleton. lia.
  - destruct (IH (Z.max x y)) as [Hin Hle]. split.
    + apply elem_of_cons in Hin as [-> | Hin]; [|by do 2 right].
      destruct (Z.max_spec x y) as [[_ ->] | [_ ->]]; [right; left | left].
    + intros z Hz. assert (Z.max x y ≤ foldl Z.max (Z.max x y) ys) by (apply Hle; left).
      apply elem_of_cons in Hz as [-> | [-> | Hz]%elem_of_cons]; [lia | lia |].
      apply Hle. by right.
Qed.

Lemma py_max_spec (xs : list Z) (m : Z) : py_max xs = Some m → is_max m xs.
Proof. destruct xs as [|x xs]; simpl; [done|]. intros [= <-]. apply foldl_max_spec. Qed.

Lemma py_max_is_Some (xs : list Z) : xs ≠ [] → ∃ m, py_max xs = Some m.
Proof. destruct xs; [done|]. simpl. eauto. Qed.

Lemma is_max_unique (m1 m2 : Z) xs : is_max m1 xs → is_max m2 xs → m1 = m2.
Proof. intros [Hin1 Hle1] [Hin2 Hle2]. apply Hle2 in Hin1. apply Hle1 in Hin2. lia. Qed.

Lemma is_max_perm (m : Z) xs ys : xs ≡ₚ ys → is_max m xs → is_max m ys.
Proof. intros Hp [Hin Hle]. split; [by rewrite <- Hp|]. intros x. rewrite <- Hp. apply Hle. Qed.

Lemma py_max_perm (xs ys : list Z) : xs ≡ₚ ys → py_max xs = py_max ys.
Proof.
  intros Hp. destruct (py_max xs) as [m|] eqn:Hx.
  - assert (ys ≠ []) as Hne.
    { intros ->. apply Permutation_nil_r in Hp. by subst. }
    destruct (py_max_is_Some ys Hne) as [m' Hy]. rewrite Hy. f_equal.
    apply py_max_spec in Hx, Hy. eapply is_max_unique; [|exact Hy]. by eapply is_max_perm.
  - destruct xs; [|done]. apply Permutation_nil_l in Hp. by subst.
Qed.

(** ** The validator's verdict *)

Lemma missing_list_elem_of services dep :
  dep ∈ missing_list services ↔
  ∃ s info, (s, info) ∈ services ∧ dep ∈ dependencies info ∧ dep ∉ keys services.
Proof.
  unfold missing_list. rewrite list_elem_of_join. split.
  - intros (l & Hdep & ([s info] & -> & Hin)%list_elem_of_fmap).
    apply list_elem_of_filter in Hdep as [? ?]. exists s, info. done.
  - intros (s & info & Hin & Hdep & Hk).
    exists (filter (λ dep, dep ∉ keys services) (dependencies info)). split.
    + by apply list_elem_of_filter.
    + apply list_elem_of_fmap. by exists (s, info).
Qed.

Lemma validate_true o services :
  (validate_dependencies o services).1 = true →
  ¬ has_cycle services ∧
  ∀ s info dep, dict_get s services = Some info → dep ∈ dependencies info →
                dep ∈ keys services.
Proof.
  unfold validate_dependencies. simpl. intros Hlen%bool_decide_eq_true.
  apply nil_length_inv, app_eq_nil in Hlen as [Hcirc Hmiss]. split.
  - rewrite <- has_circular_dependencies_spec.
    by destruct (has_circular_dependencies services).
  - intros s info dep Hs Hdep. apply fmap_nil_inv in Hmiss.
    destruct (decide (dep ∈ keys services)) as [|Hk]; [done|]. exfalso.
    assert (dep ∈ check_missing_dependencies o services) as Hin.
    { unfold check_missing_dependencies. rewrite elem_of_iter, elem_of_list_to_set.
      apply missing_list_elem_of. exists s, info. split; [by apply dict_get_Some | done]. }
    rewrite Hmiss in Hin. by apply elem_of_nil in Hin.
Qed.

Lemma check_missing_perm o1 o2 services :
  check_missing_dependencies o1 services ≡ₚ check_missing_dependencies o2 services.
Proof. unfold check_missing_dependencies. by rewrite (iter_perm o1), (iter_perm o2). Qed.

Lemma validate_perm o1 o2 services :
  (validate_dependencies o1 services).1 = (validate_dependencies o2 services).1 ∧
  (validate_dependencies o1 services).2 ≡ₚ (validate_dependencies o2 services).2.
Proof.
  assert ((validate_dependencies o1 services).2 ≡ₚ (validate_dependencies o2 services).2) as Hp.
  { unfold validate_dependencies. simpl. f_equiv. apply fmap_Permutation, check_missing_perm. }
  split; [|done]. unfold validate_dependencies in *. simpl in *.
  apply Permutation_length in Hp. apply bool_decide_ext. by rewrite Hp.
Qed.

(** ** Selecting services *)

Lemma filtered_get services sel k :
  dict_get k (filtered_services services sel) =
  if decide (k ∈ default (keys services) sel) then dict_get k services else None.
Proof.
  unfold filtered_services. generalize (default (keys services) sel). intros names.
  induction services as [|[k0 v] d IH]; simpl; [by case_decide|].
  rewrite filter_cons. simpl. destruct (decide (k0 ∈ names)) as [Hk0 | Hk0]; simpl.
  - destruct (decide (k = k0)) as [Heq | Hne]; [|exact IH].
    subst k. by destruct (decide (k0 ∈ names)).
  - rewrite IH. destruct (decide (k = k0)) as [Heq | Hne]; [|done].
    subst k. by destruct (decide (k0 ∈ names)).
Qed.

Lemma filtered_keys services sel :
  keys (filtered_services services sel) =
  filter (λ k, k ∈ default (keys services) sel) (keys services).
Proof.
  unfold filtered_services. generalize (default (keys services) sel). intros names.
  unfold keys. induction services as [|[k0 v] d IH]; simpl; [done|].
  rewrite !filter_cons. simpl. case_decide; simpl; by f_equal.
Qed.

Lemma filtered_nodup services sel :
  NoDup (keys services) → NoDup (keys (filtered_services services sel)).
Proof. intros Hnd. rewrite filtered_keys. apply NoDup_filter. exact Hnd. Qed.

Lemma filtered_edge services sel s d :
  edge (filtered_services services sel) s d → edge services s d.
Proof.
  intros (info & Hget & Hd). rewrite filtered_get in Hget.
  case_decide; [|done]. by exists info.
Qed.

Lemma filtered_tc services sel x y :
  tc (edge (filtered_services services sel)) x y → tc (edge services) x y.
Proof.
  induction 1 as [x y Hxy | x y z Hxy _ IH].
  - apply tc_once. exact (filtered_edge _ _ _ _ Hxy).
  - eapply tc_l; [exact (filtered_edge _ _ _ _ Hxy) | exact IH].
Qed.

Lemma filtered_acyclic services sel :
  ¬ has_cycle services → ¬ has_cycle (filtered_services services sel).
Proof. intros Hac [x Hx]. apply Hac. exists x. by eapply filtered_tc. Qed.

(** ** The analyzer's service map *)

Lemma keys_dict_set {V} k (v : V) (d : Dict V) :
  keys (dict_set k v d) = if decide (k ∈ keys d) then keys d else keys d ++ [k].
Proof.
  unfold keys. induction d as [|[k0 v0] d IH].
  - destruct (decide (k ∈ ([] : Dict V).*1)) as [Hin|]; [by apply elem_of_nil in Hin | done].
  - simpl. destruct (decide (k = k0)) as [-> | Hne].
    + simpl. rewrite decide_True; [done | left].
    + transitivity (k0 :: (if decide (k ∈ d.*1) then d.*1 else d.*1 ++ [k])).
      { simpl. f_equal. exact IH. }
      destruct (decide (k ∈ d.*1)) as [Hin | Hnin].
      * rewrite decide_True; [done | by right].
      * rewrite decide_False; [done|]. rewrite not_elem_of_cons. done.
Qed.

Lemma parse_nodup services config :
  NoDup (keys (parse_service_dependencies services config)).
Proof.
  unfold parse_service_dependencies.
  assert (NoDup (keys (@nil (string * ServiceInfo)))) as Hnil by constructor.
  revert Hnil. generalize (@nil (string * ServiceInfo)).
  induction services as [|s services IH]; intros d Hd; simpl; [done|].
  apply IH. destruct (dict_get s (ac_services config)); rewrite keys_dict_set;
    (case_decide; [done|]; apply NoDup_app; split_and!;
      [done | intros x ? ->%list_elem_of_singleton; done | apply NoDup_singleton]).
Qed.

(** ** The shape of the waves *)

Lemma frontier_loop_shape {W} (Q : W → Prop) (o : SetOrder) (group_key : ServiceInfo → Z)
    (make_wave : nat → Z → list string → W) (services : Dict ServiceInfo)
    fuel n deployed remaining waves res :
  (∀ n k l, l ≠ [] → Q (make_wave n k l)) →
  frontier_loop o group_key make_wave services fuel n deployed remaining waves = Ok res →
  Forall Q waves → Forall Q res.
Proof.
  intros HQ. revert n deployed remaining waves.
  induction fuel as [|fuel IH]; intros n deployed remaining waves; simpl.
  - case_decide; [|done]. by intros [= <-].
  - case_decide; [by intros [= <-]|].
    destruct (build_groups o group_key services deployed remaining)
      as [|[k0 l0] rest] eqn:Hg; [done|].
    destruct (build_groups_cons o group_key services _ _ _ _ _ Hg) as (_ & Hne & _).
    intros Hloop Hw. eapply IH; [exact Hloop|].
    apply Forall_app. split; [done|]. constructor; [|constructor]. by apply HQ.
Qed.

Lemma kahn_loop_shape {W} (Q : W → Prop) (make_wave : nat → string → W)
    (services : Dict ServiceInfo) fuel n deg queue result res :
  (∀ n c, Q (make_wave n c)) →
  kahn_loop make_wave services fuel n deg queue result = Ok res →
  Forall Q result → Forall Q res.
Proof.
  intros HQ. revert n deg queue result.
  induction fuel as [|fuel IH]; intros n deg queue result; simpl.
  - destruct queue; [|done]. by intros [= <-].
  - destruct queue as [|current q]; [by intros [= <-]|].
    intros Hloop Hr. eapply IH; [exact Hloop|].
    apply Forall_app. split; [done|]. constructor; [|constructor]. apply HQ.
Qed.

Lemma estimate_wave_time_fold (acc : Z) (services : list string) :
  foldl (λ max_time service, Z.max max_time (service_time service)) acc services =
  foldl Z.max acc (service_time <$> services).
Proof. revert acc. induction services as [|s l IH]; intros acc; simpl; [done | apply IH]. Qed.

Lemma service_time_ge (s : string) : base_time ≤ service_time s.
Proof. unfold service_time, base_time. case_decide; lia. Qed.

(** ** The dependency depth *)

Lemma depth_fold_ok (rec : string → Result Z) (deps : list string) (acc : Z) :
  (∀ dep, dep ∈ deps → ∃ d, rec dep = Ok d) →
  ∃ m, foldl (λ acc dep,
                match acc with
                | Raise e => Raise e
                | Ok max_dep_depth =>
                    match rec dep with
                    | Ok dep_depth => Ok (Z.max max_dep_depth dep_depth)
                    | Raise e => Raise e
                    end
                end) (Ok acc) deps = Ok m.
Proof.
  revert acc. induction deps as [|dep deps IH]; intros acc Hall; simpl; [eauto|].
  destruct (Hall dep) as [d ->]; [left|]. apply IH. intros dep' ?. apply Hall. by right.
Qed.

(** [get_depth] returns for every service and every [visited] set: the
    recursion is never deeper than the number of unvisited ids. *)
Lemma get_depth_total (service_info : Dict ServiceInfo) fuel s visited :
  s ∈ nodes service_info →
  (size (nodes service_info ∖ visited) < fuel)%nat →
  ∃ d, get_depth service_info fuel s visited = Ok d.
Proof.
  revert s visited. induction fuel as [|fuel IH]; intros s visited HsU Hsz; [lia|].
  simpl. destruct (decide (s ∈ visited)) as [|Hs]; [eauto|].
  destruct (dict_get s service_info) as [info|] eqn:Hget; [|eauto].
  destruct (dependencies info) as [|dep0 deps] eqn:Hdeps; [eauto|].
  assert (size (nodes service_info ∖ ({[s]} ∪ visited)) < size (nodes service_info ∖ visited))%nat.
  { apply subset_size, strict_spec_alt. split; [set_solver|].
    intros Heq. assert (s ∈ nodes service_info ∖ visited) as Hin by set_solver.
    rewrite <- Heq in Hin. set_solver. }
  destruct (depth_fold_ok (λ dep, get_depth service_info fuel dep ({[s]} ∪ visited))
              (dep0 :: deps) 0) as [m Hm].
  { intros dep Hdep. apply IH; [|lia].
    apply (edge_target_node service_info s). exists info. by rewrite Hdeps. }
  simpl in Hm. simpl. rewrite Hm. eauto.
Qed.

Lemma depths_ok (service_info : Dict ServiceInfo) fuel (names : list string) :
  (∀ s, s ∈ names → ∃ d, get_depth service_info fuel s ∅ = Ok d) →
  ∃ depths,
    foldr (λ service acc,
             match get_depth service_info fuel service ∅, acc with
             | Ok d, Ok ds => Ok (d :: ds)
             | Raise e, _ => Raise e
             | _, Raise e => Raise e
             end) (Ok []) names = Ok depths ∧
    length depths = length names.
Proof.
  induction names as [|s names IH]; intros Hall; simpl; [by exists []|].
  destruct IH as (depths & -> & Hlen); [intros; apply Hall; by right|].
  destruct (Hall s) as [d ->]; [left|]. exists (d :: depths). simpl. by rewrite Hlen.
Qed.

Lemma calculate_max_dependency_depth_empty :
  calculate_max_dependency_depth [] = Raise MaxOfEmpty.
Proof. reflexivity. Qed.

Lemma calculate_max_dependency_depth_total (service_info : Dict ServiceInfo) :
  service_info ≠ [] → ∃ d, calculate_max_dependency_depth service_info = Ok d.
Proof.
  intros Hne. unfold calculate_max_dependency_depth.
  destruct (depths_ok service_info (S (S (size (nodes service_info)))) (keys service_info))
    as (depths & -> & Hlen).
  { intros s Hs. apply get_depth_total; [by apply key_node|].
    assert (nodes service_info ∖ ∅ ⊆ nodes service_info) as Hsub by set_solver.
    apply subseteq_size in Hsub. lia. }
  destruct depths as [|d depths].
  - destruct service_info; [done | simpl in Hlen; lia].
  - simpl. eauto.
Qed.

(** ** The planners of the manager and of the analyzer *)

Lemma result_map_Ok {A B} (f : A → B) (r : Result A) (a : A) :
  r = Ok a → result_map f r = Ok (f a).
Proof. by intros ->. Qed.

Lemma result_map_Ok_inv {A B} (f : A → B) (r : Result A) (b : B) :
  result_map f r = Ok b → ∃ a, r = Ok a ∧ b = f a.
Proof. destruct r as [a|e]; simpl; [|done]. intros [= <-]. eauto. Qed.

Lemma result_rel_refl {A} (R : A → A → Prop) (r : Result A) :
  (∀ a, R a a) → result_rel R r r.
Proof. intros HR. destruct r; simpl; [apply HR | apply error_equiv_refl]. Qed.

Lemma elem_of_waves (waves : list (list string)) i wave s :
  waves !! i = Some wave → s ∈ wave → s ∈ mjoin waves.
Proof.
  intros Hi Hs. apply list_elem_of_join. exists wave. split; [done|].
  by eapply list_elem_of_lookup_2.
Qed.

(** What each planner of the manager guarantees for the dict it is run on. *)
Lemma sequential_order_safe (F : Dict ServiceInfo) waves :
  NoDup (keys F) → _get_sequential_order F = Ok waves →
  NoDup (mjoin waves) ∧ (∀ s, s ∈ mjoin waves → s ∈ keys F) ∧
  deps_before F (λ dep, dep ∈ keys F) waves ∧ Forall (λ wave, wave ≠ []) waves.
Proof.
  intros Hnd Hseq. unfold _get_sequential_order in Hseq.
  destruct (sequential_waves_safe F Hnd) as (P & HP & HndP & HPK & Hord & _).
  rewrite HP in Hseq. injection Hseq as <-. rewrite mjoin_singletons.
  split_and!; [done..|]. apply Forall_fmap, Forall_forall. done.
Qed.

Lemma frontier_order_safe (o : SetOrder) (group_key : ServiceInfo → Z)
    (F : Dict ServiceInfo) waves :
  frontier_waves o group_key (λ _ _ current_wave, current_wave) F = Ok waves →
  NoDup (mjoin waves) ∧ (∀ s, s ∈ mjoin waves → s ∈ keys F) ∧
  deps_before F (λ dep, dep ∈ keys F) waves ∧ Forall (λ wave, wave ≠ []) waves.
Proof.
  intros Hw. destruct (frontier_waves_safe o group_key F waves Hw) as [[Hnd Hin] Hord].
  split_and!; [done | by intros s ?%Hin | done |].
  unfold frontier_waves in Hw.
  eapply (frontier_loop_shape (λ wave, wave ≠ [])); [|exact Hw|constructor]. done.
Qed.

Lemma get_deployment_order_unfold o dm strategy sel :
  get_deployment_order o dm strategy sel =
  if (validate_dependencies o (dm_services dm)).1 then
    let filtered := filtered_services (dm_services dm) sel in
    if negb (strategy_allow_parallel dm strategy) || bool_decide (strategy = "sequential")
    then _get_sequential_order filtered
    else if decide (strategy = "parallel_optimized")
    then _get_parallel_optimized_order o filtered
    else if decide (strategy = "priority_based")
    then _get_priority_based_order o filtered
    else Raise (UnknownStrategy strategy)
  else Raise (InvalidDependencies (validate_dependencies o (dm_services dm)).2).
Proof.
  unfold get_deployment_order.
  destruct (validate_dependencies o (dm_services dm)) as [[] errors]; done.
Qed.

Lemma get_deployment_order_safe o dm strategy sel waves :
  NoDup (keys (dm_services dm)) →
  get_deployment_order o dm strategy sel = Ok waves →
  let F := filtered_services (dm_services dm) sel in
  (validate_dependencies o (dm_services dm)).1 = true ∧
  NoDup (mjoin waves) ∧ (∀ s, s ∈ mjoin waves → s ∈ keys F) ∧
  deps_before F (λ dep, dep ∈ keys F) waves ∧ Forall (λ wave, wave ≠ []) waves.
Proof.
  intros Hnd. rewrite get_deployment_order_unfold.
  destruct (validate_dependencies o (dm_services dm)).1; [|done]. simpl.
  intros Hw. split; [done|]. revert Hw.
  destruct (negb _ || _).
  { apply sequential_order_safe. by apply filtered_nodup. }
  destruct (decide (strategy = "parallel_optimized")); [apply frontier_order_safe|].
  destruct (decide (strategy = "priority_based")); [apply frontier_order_safe | done].
Qed.

Lemma deps_before_filtered (services : Dict ServiceInfo) sel waves :
  (∀ s info dep, dict_get s services = Some info → dep ∈ dependencies info →
                 dep ∈ keys services) →
  (∀ s, s ∈ mjoin waves → s ∈ keys (filtered_services services sel)) →
  deps_before (filtered_services services sel)
              (λ dep, dep ∈ keys (filtered_services services sel)) waves →
  deps_before services (λ dep, dep ∈ default (keys services) sel) waves.
Proof.
  intros Hdecl Hin Hord i wave s info dep Hi Hs Hget Hdep Hsel.
  assert (s ∈ keys (filtered_services services sel)) as HsF.
  { apply Hin. by eapply elem_of_waves. }
  rewrite filtered_keys in HsF. apply list_elem_of_filter in HsF as [HsS _].
  apply (Hord i wave s info dep); [done | done | | done |].
  - rewrite filtered_get. by rewrite decide_True.
  - rewrite filtered_keys. apply list_elem_of_filter. split; [done|]. by eapply Hdecl.
Qed.

(** The analyzer's planners, read through their member lists. *)
Lemma create_parallel_members o si cfg :
  result_map (fmap wave_services) (create_parallel_optimized_waves o si cfg) =
  _get_parallel_optimized_order o si.
Proof. apply frontier_waves_members. done. Qed.

Lemma create_priority_members o si cfg :
  result_map (fmap wave_services) (create_priority_based_waves o si cfg) =
  _get_priority_based_order o si.
Proof. apply frontier_waves_members. done. Qed.

Lemma create_sequential_members si :
  result_map (fmap wave_services) (create_sequential_waves si) = _get_sequential_order si.
Proof. apply sequential_waves_members. done. Qed.

(** * The claims *)

(** C1.  Whatever strategy is chosen, in the wave sequence a planner returns
    every declared dependency of a member of wave [i] that is itself
    selected lies in a wave [j < i].  Manager: [get_deployment_order], which
    only plans after validation passed, with the selection
    [services_to_deploy] (all keys when absent).  Analyzer: the three
    [create_*_waves] functions on the service map built from the selection. *)
Theorem deps_in_earlier_waves (o : SetOrder) :
  (∀ dm strategy sel waves,
     NoDup (keys (dm_services dm)) →
     get_deployment_order o dm strategy sel = Ok waves →
     deps_before (dm_services dm)
       (λ dep, dep ∈ default (keys (dm_services dm)) sel) waves) ∧
  (∀ service_info config waves,
     create_parallel_optimized_waves o service_info config = Ok waves →
     deps_before service_info (λ dep, dep ∈ keys service_info) (wave_services <$> waves)) ∧
  (∀ service_info config waves,
     create_priority_based_waves o service_info config = Ok waves →
     deps_before service_info (λ dep, dep ∈ keys service_info) (wave_services <$> waves)) ∧
  (∀ service_info waves,
     NoDup (keys service_info) →
     create_sequential_waves service_info = Ok waves →
     deps_before service_info (λ dep, dep ∈ keys service_info) (wave_services <$> waves)).
Proof.
  split_and!.
  - intros dm strategy sel waves Hnd Hw.
    destruct (get_deployment_order_safe o dm strategy sel waves Hnd Hw)
      as (Hvalid & _ & Hin & Hord & _).
    apply validate_true in Hvalid as [_ Hdecl]. by apply deps_before_filtered.
  - intros si cfg waves Hw.
    apply (result_map_Ok (fmap wave_services)) in Hw. rewrite create_parallel_members in Hw.
    by apply frontier_order_safe in Hw as (_ & _ & ? & _).
  - intros si cfg waves Hw.
    apply (result_map_Ok (fmap wave_services)) in Hw. rewrite create_priority_members in Hw.
    by apply frontier_order_safe in Hw as (_ & _ & ? & _).
  - intros si waves Hnd Hw.
    apply (result_map_Ok (fmap wave_services)) in Hw. rewrite create_sequential_members in Hw.
    by apply sequential_order_safe in Hw as (_ & _ & ? & _).
Qed.

Lemma deps_in_earlier_waves_witness :
  deps_before (dm_services sample_manager)
    (λ dep, dep ∈ default (keys (dm_services sample_manager)) None)
    [["auth"]; ["menu"; "payment"]; ["order"]] ∧
  deps_before (dm_services sample_manager)
    (λ dep, dep ∈ default (keys (dm_services sample_manager)) (Some ["menu"; "order"]))
    [["menu"]; ["order"]].
Proof.
  split.
  - apply (proj1 (deps_in_earlier_waves elements_order) sample_manager "parallel_optimized" None).
    + compute_done.
    + vm_compute. reflexivity.
  - apply (proj1 (deps_in_earlier_waves elements_order) sample_manager "sequential"
             (Some ["menu"; "order"])).
    + compute_done.
    + vm_compute. reflexivity.
Defined.

(** C2 (defect).  The sequential order counts a repeated entry of a
    dependency list twice when it fills [in_degree] and releases it once, so
    a service that lists a dependency twice is never queued: the graph
    passes validation, the parallel order plans both services, and the
    sequential order returns without [B]. *)
Example sequential_order_drops_service :
  validate_dependencies elements_order (dm_services repeated_dependency_manager) = (true, []) ∧
  get_deployment_order elements_order repeated_dependency_manager "sequential" None =
    Ok [["A"]] ∧
  get_deployment_order elements_order repeated_dependency_manager "parallel_optimized" None =
    Ok [["A"]; ["B"]].
Proof. split_and!; vm_compute; reflexivity. Qed.

(** For graphs whose dependency lists repeat no id, every planner returns
    waves that hold each selected service exactly once. *)
Theorem waves_partition_selection (o : SetOrder) :
  (∀ dm strategy sel,
     NoDup (keys (dm_services dm)) →
     Forall (λ kv, NoDup (dependencies kv.2)) (dm_services dm) →
     (validate_dependencies o (dm_services dm)).1 = true →
     strategy ∈ known_strategies →
     ∃ waves, get_deployment_order o dm strategy sel = Ok waves ∧
              partitions (keys (filtered_services (dm_services dm) sel)) waves) ∧
  (∀ service_info config,
     (validate_dependencies o service_info).1 = true →
     (∃ waves, create_parallel_optimized_waves o service_info config = Ok waves ∧
               partitions (keys service_info) (wave_services <$> waves)) ∧
     (∃ waves, create_priority_based_waves o service_info config = Ok waves ∧
               partitions (keys service_info) (wave_services <$> waves))) ∧
  (∀ service_info,
     NoDup (keys service_info) →
     Forall (λ kv, NoDup (dependencies kv.2)) service_info →
     (validate_dependencies o service_info).1 = true →
     ∃ waves, create_sequential_waves service_info = Ok waves ∧
              partitions (keys service_info) (wave_services <$> waves)).
Proof.
  assert (∀ group_key F, ¬ has_cycle F →
            ∃ waves, frontier_waves o group_key (λ _ _ w, w) F = Ok waves ∧
                     partitions (keys F) waves) as Hfrontier.
  { intros group_key F Hac. destruct (frontier_waves_total o group_key F Hac) as [waves Hw].
    exists waves. split; [done|]. by apply frontier_waves_safe in Hw as [? _]. }
  assert (∀ F, NoDup (keys F) → ¬ has_cycle F →
            (∀ s info, dict_get s F = Some info → NoDup (dependencies info)) →
            ∃ waves, _get_sequential_order F = Ok waves ∧ partitions (keys F) waves)
    as Hsequential.
  { intros F Hnd Hac Hdeps.
    destruct (sequential_waves_safe F Hnd) as (P & HP & HndP & HPK & _ & Hall).
    exists ((λ c, [c]) <$> P). split; [exact HP|]. unfold partitions. rewrite mjoin_singletons.
    split; [done|]. intros s. split; [apply HPK | by apply Hall]. }
  assert (∀ (r : Result (list Wave)) r' (F : Dict ServiceInfo),
            result_map (fmap wave_services) r = r' →
            (∃ waves, r' = Ok waves ∧ partitions (keys F) waves) →
            ∃ waves, r = Ok waves ∧ partitions (keys F) (wave_services <$> waves)) as Hlift.
  { intros r r' F <- (waves & (ws & -> & ->)%result_map_Ok_inv & Hp). eauto. }
  assert (∀ F : Dict ServiceInfo, Forall (λ kv, NoDup (dependencies kv.2)) F →
            ∀ s info, dict_get s F = Some info → NoDup (dependencies info)) as Hforall.
  { intros F HF s info Hs%dict_get_Some. rewrite Forall_forall in HF. exact (HF _ Hs). }
  split_and!.
  - intros dm strategy sel Hnd Hdeps Hvalid Hknown.
    pose proof (Hforall _ Hdeps) as Hdeps'. clear Hdeps. rename Hdeps' into Hdeps.
    rewrite get_deployment_order_unfold, Hvalid. simpl.
    apply validate_true in Hvalid as [Hac _].
    pose proof (filtered_acyclic _ sel Hac) as HacF.
    destruct (negb _ || _) eqn:Hseq.
    { apply Hsequential; [by apply filtered_nodup | done |].
      intros s info. rewrite filtered_get. destruct (decide _); [apply Hdeps | done]. }
    destruct (decide (strategy = "parallel_optimized")); [by apply Hfrontier|].
    destruct (decide (strategy = "priority_based")); [by apply Hfrontier|].
    exfalso. apply orb_false_iff in Hseq as [_ Hseq%bool_decide_eq_false].
    unfold known_strategies in Hknown.
    repeat (apply elem_of_cons in Hknown as [-> | Hknown]; [done|]).
    by apply elem_of_nil in Hknown.
  - intros si cfg [Hac _]%validate_true. split.
    + eapply Hlift; [apply create_parallel_members | by apply Hfrontier].
    + eapply Hlift; [apply create_priority_members | by apply Hfrontier].
  - intros si Hnd Hdeps [Hac _]%validate_true.
    pose proof (Hforall _ Hdeps) as Hdeps'. clear Hdeps. rename Hdeps' into Hdeps.
    eapply Hlift; [apply create_sequential_members | by apply Hsequential].
Qed.

Lemma waves_partition_selection_witness :
  ∃ waves,
    get_deployment_order elements_order sample_manager "priority_based" None = Ok waves ∧
    partitions (keys (filtered_services (dm_services sample_manager) None)) waves.
Proof.
  apply (proj1 (waves_partition_selection elements_order) sample_manager "priority_based" None).
  - compute_done.
  - compute_done.
  - vm_compute. reflexivity.
  - compute_done.
Defined.

Lemma analyze_unfold o event :
  analyze o event =
  let service_info := parse_service_dependencies (ev_services event) load_dependency_config in
  if (validate_dependencies o service_info).1 then
    match
      (if decide (ev_strategy event = "parallel_optimized")
       then create_parallel_optimized_waves o service_info load_dependency_config
       else if decide (ev_strategy event = "priority_based")
       then create_priority_based_waves o service_info load_dependency_config
       else create_sequential_waves service_info)
    with
    | Raise e => Raise e
    | Ok waves =>
        match calculate_max_dependency_depth service_info with
        | Raise e => Raise e
        | Ok depth =>
            Ok {| body_strategy := ev_strategy event;
                  body_total_services := length (ev_services event);
                  body_total_waves := length waves;
                  deployment_waves := waves;
                  deployment_plan := create_deployment_plan waves (ev_strategy event) load_dependency_config;
                  estimated_time_seconds :=
                    estimate_total_deployment_time
                      (create_deployment_plan waves (ev_strategy event) load_dependency_config);
                  parallel_optimization := bool_decide (ev_strategy event ≠ "sequential");
                  dependency_analysis :=
                    {| total_dependencies :=
                         foldl Nat.add 0%nat
                           ((λ kv, length (dependencies kv.2)) <$> service_info);
                       independent_services :=
                         length (filter (λ kv, dependencies kv.2 = []) service_info);
                       max_dependency_depth := depth |} |}
        end
    end
  else Raise (InvalidDependencies (validate_dependencies o service_info).2).
Proof.
  unfold analyze. cbv zeta.
  destruct (validate_dependencies o
              (parse_service_dependencies (ev_services event) load_dependency_config))
    as [[] errors]; done.
Qed.

(** C3, as the code has it.  A tag outside the closed set is not refused as
    such.  The manager plans it with the sequential order unless the strategy
    catalog enables [allow_parallel] for that very tag, and only then raises
    [UnknownStrategy]; the analyzer plans every tag other than
    [parallel_optimized] and [priority_based] with the sequential order and
    never raises [UnknownStrategy]. *)
Theorem unknown_strategy_dispatch (o : SetOrder) (strategy : string) :
  strategy ∉ known_strategies →
  (∀ dm sel,
     (validate_dependencies o (dm_services dm)).1 = true →
     get_deployment_order o dm strategy sel =
     if strategy_allow_parallel dm strategy
     then Raise (UnknownStrategy strategy)
     else _get_sequential_order (filtered_services (dm_services dm) sel)) ∧
  (∀ services,
     let event := {| ev_services := services; ev_strategy := strategy |} in
     let service_info := parse_service_dependencies services load_dependency_config in
     (∀ tag, analyze o event ≠ Raise (UnknownStrategy tag)) ∧
     (∀ body, analyze o event = Ok body →
              create_sequential_waves service_info = Ok (deployment_waves body))).
Proof.
  intros Hunknown. unfold known_strategies in Hunknown.
  assert (strategy ≠ "sequential" ∧ strategy ≠ "parallel_optimized" ∧
          strategy ≠ "priority_based") as (Hs & Hpo & Hpb) by set_solver.
  split.
  - intros dm sel Hvalid. rewrite get_deployment_order_unfold, Hvalid. simpl.
    rewrite (bool_decide_eq_false_2 _ Hs), orb_false_r.
    destruct (strategy_allow_parallel dm strategy); simpl; [|done].
    rewrite (decide_False (P := strategy = "parallel_optimized")) by done.
    by rewrite (decide_False (P := strategy = "priority_based")).
  - intros services event service_info.
    subst event service_info. rewrite analyze_unfold. cbv zeta.
    cbn [ev_services ev_strategy].
    set (service_info := parse_service_dependencies services load_dependency_config).
    rewrite (decide_False (P := strategy = "parallel_optimized")) by done.
    rewrite (decide_False (P := strategy = "priority_based")) by done.
    destruct (validate_dependencies o service_info).1; [|by split].
    destruct (create_sequential_waves service_info) as [waves|e] eqn:Hseq.
    + split.
      * intros tag.
        destruct (calculate_max_dependency_depth service_info) as [d|e] eqn:Hdepth; [done|].
        destruct (decide (service_info = [])) as [Hnil | Hne].
        -- rewrite Hnil in Hdepth. vm_compute in Hdepth. by injection Hdepth as <-.
        -- apply calculate_max_dependency_depth_total in Hne as [d Hd]. congruence.
      * intros body. destruct (calculate_max_dependency_depth service_info); [|done].
        by intros [= <-].
    + exfalso.
      pose proof (create_sequential_members service_info) as Hm. rewrite Hseq in Hm.
      destruct (sequential_waves_safe service_info (parse_nodup _ _)) as (P & HP & _).
      unfold _get_sequential_order in Hm. rewrite HP in Hm. done.
Qed.

Lemma unknown_strategy_dispatch_witness :
  get_deployment_order elements_order sample_manager "canary" None =
  _get_sequential_order (filtered_services (dm_services sample_manager) None).
Proof.
  apply (proj1 (unknown_strategy_dispatch elements_order "canary" ltac:(compute_done))
           sample_manager None).
  vm_compute. reflexivity.
Defined.

(** C3, refuted as stated: the tag ["canary"] is outside the closed set, yet
    the manager returns a plan for it and the analyzer answers with status
    200 and one sequential wave per service. *)
Example unknown_strategy_is_planned :
  ("canary" ∉ known_strategies) ∧
  get_deployment_order elements_order sample_manager "canary" None =
    Ok [["auth"]; ["menu"]; ["payment"]; ["order"]] ∧
  ∃ body, lambda_handler elements_order (sample_event "canary") = Response200 body ∧
          wave_services <$> deployment_waves body =
            [["auth-service"]; ["menu-service"]; ["payment-service"]; ["order-service"]].
Proof.
  split_and!; [compute_done | vm_compute; reflexivity |].
  eexists. split; vm_compute; reflexivity.
Qed.

(** C4, as the code has it.  The reported savings always equal the
    sequential total minus the optimized total.  Only under
    [parallel_optimized] is the optimized total the greatest per-wave time
    (of a plan with at least one wave); under [priority_based], as under any
    other tag, it is the sequential total and the savings are 0. *)
Theorem optimized_time_by_strategy (waves : list Wave) (strategy : string)
    (config : AnalyzerConfig) :
  let plan := create_deployment_plan waves strategy config in
  estimated_sequential_time plan = py_sum (estimated_time <$> waves) ∧
  time_savings_seconds plan =
    estimated_sequential_time plan - estimated_optimized_time plan ∧
  (strategy = "parallel_optimized" → waves ≠ [] →
   is_max (estimated_optimized_time plan) (estimated_time <$> waves)) ∧
  (strategy ≠ "parallel_optimized" →
   estimated_optimized_time plan = estimated_sequential_time plan ∧
   time_savings_seconds plan = 0).
Proof.
  unfold create_deployment_plan.
  destruct (decide (strategy = "parallel_optimized")) as [Hpo | Hpo]; simpl.
  - split_and!; [done | lia | | done].
    intros _ Hne.
    destruct (py_max_is_Some (estimated_time <$> waves)) as [m Hm].
    { intros Hnil%fmap_nil_inv. done. }
    rewrite Hm. simpl. by apply py_max_spec.
  - split_and!; [done | lia | done | ]. intros _. split; [done | lia].
Qed.

Lemma optimized_time_by_strategy_witness :
  is_max (estimated_optimized_time
            (create_deployment_plan sample_priority_waves "parallel_optimized"
               load_dependency_config))
         (estimated_time <$> sample_priority_waves) ∧
  estimated_optimized_time (create_deployment_plan sample_priority_waves "priority_based"
       load_dependency_config) =
  estimated_sequential_time (create_deployment_plan sample_priority_waves "priority_based"
       load_dependency_config) ∧
  time_savings_seconds (create_deployment_plan sample_priority_waves "priority_based"
       load_dependency_config) = 0.
Proof.
  split.
  - apply (proj1 (proj2 (proj2
             (optimized_time_by_strategy sample_priority_waves "parallel_optimized"
                load_dependency_config)))).
    + reflexivity.
    + vm_compute. discriminate.
  - apply (proj2 (proj2 (proj2
             (optimized_time_by_strategy sample_priority_waves "priority_based"
                load_dependency_config)))).
    compute_done.
Defined.

(** C4, refuted as stated: the plan computed under [priority_based] for
    [auth], [menu], [payment], [order] has waves of 60, 75 and 90 seconds;
    the greatest is 90, the reported optimized total is 225 and the reported
    savings are 0, not 135. *)
Example priority_plan_reports_sum :
  estimated_time <$> sample_priority_waves = [60; 75; 90] ∧
  py_max (estimated_time <$> sample_priority_waves) = Some 90 ∧
  estimated_optimized_time (create_deployment_plan sample_priority_waves "priority_based"
       load_dependency_config) = 225 ∧
  time_savings_seconds (create_deployment_plan sample_priority_waves "priority_based"
       load_dependency_config) = 0.
Proof. split_and!; vm_compute; reflexivity. Qed.

Lemma frontier_wave_time service_info mc n k l :
  l ≠ [] →
  wave_services (frontier_wave service_info mc n k l) ≠ [] ∧
  is_max (estimated_time (frontier_wave service_info mc n k l))
         (deploy_time service_info <$> wave_services (frontier_wave service_info mc n k l)).
Proof.
  intros Hne. simpl. split; [done|].
  destruct (py_max_is_Some (deploy_time service_info <$> l)) as [m Hm].
  { by intros ?%fmap_nil_inv. }
  rewrite Hm. simpl. by apply py_max_spec.
Qed.

Lemma estimate_wave_time_max (wave : list string) :
  wave ≠ [] → is_max (_estimate_wave_time wave) (service_time <$> wave).
Proof.
  intros Hne. unfold _estimate_wave_time. rewrite estimate_wave_time_fold.
  destruct (foldl_max_spec base_time (service_time <$> wave)) as [Hin Hle].
  set (m := foldl Z.max base_time (service_time <$> wave)) in *.
  split; [|intros x Hx; apply Hle; by right].
  apply elem_of_cons in Hin as [Heq | Hin]; [|done].
  destruct wave as [|s wave]; [done|].
  assert (service_time s ≤ m) as Hs by (apply Hle; right; left).
  pose proof (service_time_ge s).
  assert (m = service_time s) as -> by lia. left.
Qed.

(** C5.  The estimated time of every wave of a computed plan is the greatest
    duration among its members, and no wave is empty.  Analyzer: the
    duration of a member is its [estimated_deploy_time].  Manager
    ([_estimate_wave_time], used by [get_deployment_plan]): the duration of a
    member is its [service_time], twice the base time for the two complex
    services. *)
Theorem wave_time_is_member_max (o : SetOrder) :
  (∀ service_info config waves w,
     create_parallel_optimized_waves o service_info config = Ok waves → w ∈ waves →
     wave_services w ≠ [] ∧
     is_max (estimated_time w) (deploy_time service_info <$> wave_services w)) ∧
  (∀ service_info config waves w,
     create_priority_based_waves o service_info config = Ok waves → w ∈ waves →
     wave_services w ≠ [] ∧
     is_max (estimated_time w) (deploy_time service_info <$> wave_services w)) ∧
  (∀ service_info waves w,
     create_sequential_waves service_info = Ok waves → w ∈ waves →
     wave_services w ≠ [] ∧
     is_max (estimated_time w) (deploy_time service_info <$> wave_services w)) ∧
  (∀ wave, wave ≠ [] → is_max (_estimate_wave_time wave) (service_time <$> wave)) ∧
  (∀ dm strategy sel plan wi,
     NoDup (keys (dm_services dm)) →
     get_deployment_plan o dm strategy sel = Ok plan → wi ∈ mp_waves plan →
     wi_services wi ≠ [] ∧
     is_max (wi_estimated_time wi) (service_time <$> wi_services wi)).
Proof.
  split_and!.
  - intros si cfg waves w Hw Hin. unfold create_parallel_optimized_waves, frontier_waves in Hw.
    eapply (frontier_loop_shape
              (λ w, wave_services w ≠ [] ∧
                    is_max (estimated_time w) (deploy_time si <$> wave_services w)))
      in Hw; [| |constructor].
    + rewrite Forall_forall in Hw. by apply Hw.
    + intros n k l Hl. by apply frontier_wave_time.
  - intros si cfg waves w Hw Hin. unfold create_priority_based_waves, frontier_waves in Hw.
    eapply (frontier_loop_shape
              (λ w, wave_services w ≠ [] ∧
                    is_max (estimated_time w) (deploy_time si <$> wave_services w)))
      in Hw; [| |constructor].
    + rewrite Forall_forall in Hw. by apply Hw.
    + intros n k l Hl. by apply frontier_wave_time.
  - intros si waves w Hw Hin. unfold create_sequential_waves, sequential_waves in Hw.
    eapply (kahn_loop_shape
              (λ w, wave_services w ≠ [] ∧
                    is_max (estimated_time w) (deploy_time si <$> wave_services w)))
      in Hw; [| |constructor].
    + rewrite Forall_forall in Hw. by apply Hw.
    + intros n c. simpl. split; [done|]. split; [left|].
      intros x ->%list_elem_of_singleton. lia.
  - apply estimate_wave_time_max.
  - intros dm strategy sel plan wi Hnd Hplan Hin. unfold get_deployment_plan in Hplan.
    destruct (get_deployment_order o dm strategy sel) as [waves|e] eqn:Hw; [|done].
    injection Hplan as <-. simpl in Hin.
    apply elem_of_lookup_imap in Hin as (i & wave & -> & Hi). simpl.
    apply get_deployment_order_safe in Hw as (_ & _ & _ & _ & Hne); [|done].
    rewrite Forall_forall in Hne.
    assert (wave ≠ []) by (apply Hne; by eapply list_elem_of_lookup_2).
    split; [done | by apply estimate_wave_time_max].
Qed.

Lemma wave_time_is_member_max_witness :
  is_max (_estimate_wave_time ["auth-service"; "order-service"])
         (service_time <$> ["auth-service"; "order-service"]) ∧
  Forall (λ w, wave_services w ≠ [] ∧
               is_max (estimated_time w)
                 (deploy_time (parse_service_dependencies
                                 (ev_services (sample_event "priority_based"))
                                 load_dependency_config) <$> wave_services w))
         sample_priority_waves.
Proof.
  split.
  - apply (proj1 (proj2 (proj2 (proj2 (wave_time_is_member_max elements_order))))).
    discriminate.
  - apply Forall_forall. intros w.
    apply (proj1 (proj2 (wave_time_is_member_max elements_order)) _ load_dependency_config).
    vm_compute. reflexivity.
Defined.

Lemma missing_pairs_elem_of services s dep :
  (s, dep) ∈ missing_pairs services ↔
  ∃ info, (s, info) ∈ services ∧ dep ∈ dependencies info ∧ dep ∉ keys services.
Proof.
  unfold missing_pairs. rewrite list_elem_of_join. split.
  - intros (l & Hin & ([s' info] & -> & Hkv)%list_elem_of_fmap).
    apply list_elem_of_fmap in Hin as (dep' & [= -> ->] & [? ?]%list_elem_of_filter).
    exists info. done.
  - intros (info & Hkv & Hdep & Hk).
    exists ((λ dep, (s, dep)) <$> filter (λ dep, dep ∉ keys services) (dependencies info)).
    split.
    + apply list_elem_of_fmap. exists dep. split; [done|]. by apply list_elem_of_filter.
    + apply list_elem_of_fmap. by exists (s, info).
Qed.

Lemma iter_singleton (o : SetOrder) (x : string) : o {[x]} = [x].
Proof.
  apply Permutation_singleton_r. rewrite (iter_perm o {[x]}). by rewrite elements_singleton.
Qed.

(** C6, as the code has it.  The validator reports each missing dependency
    id once, however many services refer to it, and the message names the
    missing id only, not the referring service.  All messages, the cycle
    message included, come back together in one list.  For the graph
    {A: deps=[Z]} the report is the single message "Missing dependency: Z". *)
Theorem missing_dependency_messages (o : SetOrder) (services : Dict ServiceInfo) :
  (validate_dependencies o services).2 =
    (if has_circular_dependencies services
     then ["Circular dependencies detected"] else []) ++
    ((λ dep, "Missing dependency: " +:+ dep) <$> check_missing_dependencies o services) ∧
  NoDup (check_missing_dependencies o services) ∧
  (∀ dep, dep ∈ check_missing_dependencies o services ↔
          ∃ s, (s, dep) ∈ missing_pairs services) ∧
  (∀ prio group,
     validate_dependencies o [("A", service ["Z"] prio group)] =
     (false, ["Missing dependency: Z"])).
Proof.
  split_and!.
  - done.
  - apply NoDup_iter.
  - intros dep. unfold check_missing_dependencies.
    rewrite elem_of_iter, elem_of_list_to_set, missing_list_elem_of. split.
    + intros (s & info & ? & ? & ?). exists s. apply missing_pairs_elem_of. eauto.
    + intros (s & (info & ? & ? & ?)%missing_pairs_elem_of). eauto.
  - intros prio group. unfold validate_dependencies, check_missing_dependencies.
    assert (has_circular_dependencies [("A", service ["Z"] prio group)] = false) as ->
      by (vm_compute; reflexivity).
    assert ((list_to_set (missing_list [("A", service ["Z"] prio group)]) : gset string)
            = {["Z"]}) as ->.
    { vm_compute. reflexivity. }
    rewrite iter_singleton. reflexivity.
Qed.

(** C6, refuted as stated: [A] and [B] both depend on the undeclared [Z];
    there are two (service, dependency) pairs to report, and the validator
    returns one message, which names neither [A] nor [B]. *)
Example one_message_for_two_pairs :
  missing_pairs dangling_graph = [("A", "Z"); ("B", "Z")] ∧
  validate_dependencies elements_order dangling_graph = (false, ["Missing dependency: Z"]).
Proof. split; vm_compute; reflexivity. Qed.

(** C7.  The validator reports a circular dependency exactly when the
    dependency edges of the declared services contain a cycle; it does so
    for the graph A → B → C → A. *)
Theorem circular_dependency_detection (o : SetOrder) (services : Dict ServiceInfo) :
  (has_circular_dependencies services = true ↔ has_cycle services) ∧
  ("Circular dependencies detected" ∈ (validate_dependencies o services).2 ↔
   has_cycle services) ∧
  has_circular_dependencies cycle_graph = true ∧
  "Circular dependencies detected" ∈ (validate_dependencies o cycle_graph).2.
Proof.
  assert (∀ g, "Circular dependencies detected" ∈ (validate_dependencies o g).2 ↔
               has_circular_dependencies g = true) as Hmsg.
  { intros g. unfold validate_dependencies. simpl. rewrite elem_of_app. split.
    - intros [Hin | Hin].
      + by destruct (has_circular_dependencies g); [|apply elem_of_nil in Hin].
      + apply list_elem_of_fmap in Hin as (dep & Heq & _). discriminate Heq.
    - intros ->. left. left. }
  split_and!.
  - apply has_circular_dependencies_spec.
  - rewrite Hmsg. apply has_circular_dependencies_spec.
  - vm_compute. reflexivity.
  - apply Hmsg. vm_compute. reflexivity.
Qed.

(** C8, as the code has it.  The rollback order always returns: first the
    ids of the configured list that are deployed, in the order of that list,
    then every other deployed id exactly once, in the order in which the set
    difference happens to be iterated.  With the configured list [D,C,B,A]
    and [A], [B] deployed the result is [B,A] whatever that order is. *)
Theorem rollback_order_shape (o : SetOrder) (dm : DependencyManager)
    (deployed_services : list string) :
  (∃ rest,
     get_rollback_order o dm deployed_services =
       filter (λ service, service ∈ deployed_services) (rollback_order dm) ++ rest ∧
     NoDup rest ∧
     ∀ s, s ∈ rest ↔ s ∈ deployed_services ∧ s ∉ rollback_order dm) ∧
  (∀ services strategies,
     get_rollback_order o
       {| dm_services := services; deployment_strategies := strategies;
          rollback_order := ["D"; "C"; "B"; "A"] |} ["A"; "B"] = ["B"; "A"]).
Proof.
  split.
  - eexists. split; [reflexivity|]. split; [apply NoDup_iter|].
    intros s. rewrite elem_of_iter, elem_of_difference, !elem_of_list_to_set.
    rewrite list_elem_of_filter. tauto.
  - intros services strategies. unfold get_rollback_order. cbv zeta. cbn [rollback_order].
    assert ((list_to_set ["A"; "B"] ∖
             list_to_set (filter (λ service, service ∈ ["A"; "B"]) ["D"; "C"; "B"; "A"])
             : gset string) = ∅) as -> by (vm_compute; reflexivity).
    rewrite iter_empty, app_nil_r. vm_compute. reflexivity.
Qed.

(** C8, refuted as stated: with an empty configured list and [A], [B]
    deployed, two iteration orders of the same set give two different
    results, so the order of the ids outside the configured list is not
    fixed by the inputs. *)
Example rollback_tail_follows_set_order :
  get_rollback_order elements_order repeated_dependency_manager ["A"; "B"] ≠
  get_rollback_order reverse_order repeated_dependency_manager ["A"; "B"].
Proof. vm_compute. discriminate. Qed.

Lemma frontier_wave_perm service_info mc n k l1 l2 :
  l1 ≡ₚ l2 →
  wave_equiv (frontier_wave service_info mc n k l1) (frontier_wave service_info mc n k l2).
Proof.
  intros Hp. unfold wave_equiv. simpl.
  rewrite (Permutation_length Hp).
  rewrite (py_max_perm (deploy_time service_info <$> l1) (deploy_time service_info <$> l2))
    by (by apply fmap_Permutation).
  done.
Qed.

(** C9, as the code has it.  Planning is a function of the graph, the
    selection, the strategy and the order in which sets are iterated.  Two
    iteration orders give the same outcome up to the order of the members
    inside a wave: the same number of waves, wave by wave the same members
    and the same other fields, and on failure the same error up to the order
    of the validator's messages. *)
Theorem planning_up_to_set_order (o1 o2 : SetOrder) :
  (∀ dm strategy sel,
     result_rel (Forall2 (≡ₚ))
       (get_deployment_order o1 dm strategy sel)
       (get_deployment_order o2 dm strategy sel)) ∧
  (∀ service_info config,
     result_rel (Forall2 wave_equiv)
       (create_parallel_optimized_waves o1 service_info config)
       (create_parallel_optimized_waves o2 service_info config)) ∧
  (∀ service_info config,
     result_rel (Forall2 wave_equiv)
       (create_priority_based_waves o1 service_info config)
       (create_priority_based_waves o2 service_info config)).
Proof.
  split_and!.
  - intros dm strategy sel. rewrite !get_deployment_order_unfold.
    destruct (validate_perm o1 o2 (dm_services dm)) as [H1 H2]. rewrite <- H1.
    destruct (validate_dependencies o1 (dm_services dm)).1; [|exact H2]. simpl.
    destruct (negb _ || _).
    { apply result_rel_refl. intros a. induction a; constructor; auto. }
    destruct (decide (strategy = "parallel_optimized")).
    { apply frontier_waves_order. by intros. }
    destruct (decide (strategy = "priority_based")).
    { apply frontier_waves_order. by intros. }
    simpl. done.
  - intros si cfg. apply frontier_waves_order. intros. by apply frontier_wave_perm.
  - intros si cfg. apply frontier_waves_order. intros. by apply frontier_wave_perm.
Qed.

(** C9, refuted as stated: [menu] and [payment] share a wave, and the two
    iteration orders list them in opposite order, so the wave sequence
    depends on the iteration order of the set. *)
Example wave_order_follows_set_order :
  get_deployment_order elements_order sample_manager "parallel_optimized" None =
    Ok [["auth"]; ["menu"; "payment"]; ["order"]] ∧
  get_deployment_order reverse_order sample_manager "parallel_optimized" None =
    Ok [["auth"]; ["payment"; "menu"]; ["order"]].
Proof. split; vm_compute; reflexivity. Qed.

(** C10.  On an empty service map the depth computation raises the
    empty-[max] error, and the handler, whatever the strategy, answers an
    empty service list with a status-500 response carrying that error. *)
Theorem empty_service_list_is_an_error (o : SetOrder) (strategy : string) :
  calculate_max_dependency_depth [] = Raise MaxOfEmpty ∧
  lambda_handler o {| ev_services := []; ev_strategy := strategy |} =
    Response500 MaxOfEmpty.
Proof.
  split; [reflexivity|].
  unfold lambda_handler. rewrite analyze_unfold. cbv zeta. cbn [ev_services ev_strategy].
  change (parse_service_dependencies [] load_dependency_config) with (@nil (string * ServiceInfo)).
  assert (validate_dependencies o [] = (true, [])) as ->.
  { unfold validate_dependencies, check_missing_dependencies. simpl.
    change (list_to_set []) with (∅ : gset string). by rewrite iter_empty. }
  simpl.
  assert (create_parallel_optimized_waves o [] load_dependency_config = Ok []) as ->
    by reflexivity.
  assert (create_priority_based_waves o [] load_dependency_config = Ok []) as ->
    by reflexivity.
  assert (create_sequential_waves [] = Ok []) as -> by reflexivity.
  by repeat case_decide.
Qed.

(** * Further properties of the planners *)

Lemma wave_index_unique (waves : list (list string)) i j w1 w2 x :
  NoDup (mjoin waves) →
  waves !! i = Some w1 → waves !! j = Some w2 → x ∈ w1 → x ∈ w2 → i = j.
Proof.
  revert i j. induction waves as [|w ws IH]; intros i j Hnd Hi Hj H1 H2.
  - by rewrite lookup_nil in Hi.
  - simpl in Hnd. apply NoDup_app in Hnd as (_ & Hdisj & Hnd).
    destruct i as [|i], j as [|j]; simpl in Hi, Hj; simplify_eq.
    + done.
    + exfalso. eapply Hdisj; [exact H1|]. by eapply elem_of_waves.
    + exfalso. eapply Hdisj; [exact H2|]. by eapply elem_of_waves.
    + f_equal. by eapply IH.
Qed.

Lemma no_edge_inside_wave (F : Dict ServiceInfo) waves i wave s d :
  NoDup (mjoin waves) → (∀ x, x ∈ mjoin waves → x ∈ keys F) →
  deps_before F (λ dep, dep ∈ keys F) waves →
  waves !! i = Some wave → s ∈ wave → d ∈ wave → ¬ edge F s d.
Proof.
  intros Hnd Hin Hord Hi Hs Hd (info & Hget & Hdep).
  destruct (Hord i wave s info d Hi Hs Hget Hdep) as (j & wave' & Hlt & Hj & Hd').
  { apply Hin. by eapply elem_of_waves. }
  assert (j = i) by (by eapply wave_index_unique). lia.
Qed.

Lemma planned_wave_edge_free o dm strategy sel waves wave s d :
  NoDup (keys (dm_services dm)) →
  get_deployment_order o dm strategy sel = Ok waves →
  wave ∈ waves → s ∈ wave → d ∈ wave → ¬ edge (dm_services dm) s d.
Proof.
  intros Hnd Hw Hwave Hs Hd Hedge.
  apply get_deployment_order_safe in Hw as (_ & HndW & Hin & Hord & _); [|done].
  apply list_elem_of_lookup in Hwave as [i Hi].
  apply (no_edge_inside_wave _ waves i wave s d HndW Hin Hord Hi Hs Hd).
  destruct Hedge as (info & Hget & Hdep). exists info. split; [|done].
  rewrite filtered_get. rewrite decide_True; [done|].
  assert (s ∈ keys (filtered_services (dm_services dm) sel)) as HsF.
  { apply Hin. by eapply elem_of_waves. }
  rewrite filtered_keys in HsF. by apply list_elem_of_filter in HsF as [? _].
Qed.

(** No wave holds two services joined by a declared dependency: in
    every wave sequence the manager returns, and in the waves of the
    analyzer's two parallel planners, a member of a wave never depends
    directly on a member of the same wave (nor on itself). *)
Theorem no_dependency_inside_a_wave (o : SetOrder) :
  (∀ dm strategy sel waves wave s d,
     NoDup (keys (dm_services dm)) →
     get_deployment_order o dm strategy sel = Ok waves →
     wave ∈ waves → s ∈ wave → d ∈ wave → ¬ edge (dm_services dm) s d) ∧
  (∀ service_info config waves w s d,
     create_parallel_optimized_waves o service_info config = Ok waves →
     w ∈ waves → s ∈ wave_services w → d ∈ wave_services w →
     ¬ edge service_info s d) ∧
  (∀ service_info config waves w s d,
     create_priority_based_waves o service_info config = Ok waves →
     w ∈ waves → s ∈ wave_services w → d ∈ wave_services w →
     ¬ edge service_info s d).
Proof.
  assert (∀ (r : Result (list Wave)) group_key (F : Dict ServiceInfo) waves w s d,
            result_map (fmap wave_services) r =
              frontier_waves o group_key (λ _ _ current_wave, current_wave) F →
            r = Ok waves → w ∈ waves → s ∈ wave_services w → d ∈ wave_services w →
            ¬ edge F s d) as Hanalyzer.
  { intros r group_key F waves w s d Hm -> Hw Hs Hd. simpl in Hm. symmetry in Hm.
    apply frontier_order_safe in Hm as (Hnd & Hin & Hord & _).
    apply list_elem_of_lookup in Hw as [i Hi].
    apply (no_edge_inside_wave F (wave_services <$> waves) i (wave_services w));
      [done..| |done|done].
    by rewrite list_lookup_fmap, Hi. }
  split_and!.
  - intros dm strategy sel waves wave s d. apply planned_wave_edge_free.
  - intros si cfg waves w s d. apply (Hanalyzer _ parallel_group si).
    apply create_parallel_members.
  - intros si cfg waves w s d. apply (Hanalyzer _ priority si).
    apply create_priority_members.
Qed.

Lemma no_dependency_inside_a_wave_witness :
  ¬ edge (dm_services sample_manager) "menu" "payment" ∧
  ¬ edge (dm_services sample_manager) "payment" "menu".
Proof.
  split.
  - apply (proj1 (no_dependency_inside_a_wave elements_order) sample_manager
             "parallel_optimized" None [["auth"]; ["menu"; "payment"]; ["order"]]
             ["menu"; "payment"]).
    + compute_done.
    + vm_compute. reflexivity.
    + compute_done.
    + compute_done.
    + compute_done.
  - apply (proj1 (no_dependency_inside_a_wave elements_order) sample_manager
             "priority_based" None [["auth"]; ["menu"; "payment"]; ["order"]]
             ["menu"; "payment"]).
    + compute_done.
    + vm_compute. reflexivity.
    + compute_done.
    + compute_done.
    + compute_done.
Defined.

(** The sequential order puts one service in each wave: every wave of
    [_get_sequential_order] has one member, and every wave of
    [create_sequential_waves] has one member, does not allow parallel
    deployment and carries that member's deploy time. *)
Theorem sequential_waves_are_singletons :
  (∀ services waves,
     _get_sequential_order services = Ok waves →
     Forall (λ wave, length wave = 1%nat) waves) ∧
  (∀ service_info waves,
     create_sequential_waves service_info = Ok waves →
     Forall (λ w, ∃ current, wave_services w = [current] ∧
                             wave_allow_parallel w = false ∧
                             wave_max_concurrent w = 1 ∧
                             estimated_time w = deploy_time service_info current) waves).
Proof.
  split.
  - intros services waves Hw. unfold _get_sequential_order, sequential_waves in Hw.
    eapply (kahn_loop_shape (λ wave, length wave = 1%nat)) in Hw; [done | done | constructor].
  - intros si waves Hw. unfold create_sequential_waves, sequential_waves in Hw.
    eapply (kahn_loop_shape
              (λ w, ∃ current, wave_services w = [current] ∧
                               wave_allow_parallel w = false ∧
                               wave_max_concurrent w = 1 ∧
                               estimated_time w = deploy_time si current))
      in Hw; [done | | constructor].
    intros n c. by exists c.
Qed.

Lemma sequential_waves_are_singletons_witness :
  Forall (λ wave, length wave = 1%nat) [["auth"]; ["menu"]; ["payment"]; ["order"]].
Proof.
  apply (proj1 sequential_waves_are_singletons (dm_services sample_manager)).
  vm_compute. reflexivity.
Defined.


(** ** [can_deploy_parallel] and the [dependencies_satisfied] flag *)

Lemma can_deploy_parallel_spec dm (services : list string) :
  can_deploy_parallel dm services = true ↔
  ∀ s d, s ∈ services → d ∈ services → ¬ edge (dm_services dm) s d.
Proof.
  unfold can_deploy_parallel. rewrite forallb_forall. split.
  - intros H s d Hs Hd (info & Hget & Hdep).
    apply list_elem_of_In, H in Hs. rewrite Hget in Hs.
    apply negb_true_iff in Hs. apply not_true_iff_false in Hs. apply Hs.
    apply existsb_exists. exists d. split; [by apply list_elem_of_In|].
    apply bool_decide_eq_true. by apply elem_of_list_to_set.
  - intros H s Hs%list_elem_of_In.
    destruct (dict_get s (dm_services dm)) as [info|] eqn:Hget; [|done].
    apply negb_true_iff, not_true_iff_false. intros (d & Hd & Hin)%existsb_exists.
    apply bool_decide_eq_true, elem_of_list_to_set in Hin.
    apply (H s d Hs Hin). exists info. split; [done|]. by apply list_elem_of_In.
Qed.

(** [can_deploy_parallel] accepts a list exactly when no listed service
    declares a dependency on a listed service, and it accepts every wave of
    an order that [get_deployment_order] returns, whatever the strategy and
    the selection. *)
Theorem planned_waves_can_deploy_parallel (o : SetOrder) (dm : DependencyManager) :
  (∀ services,
     can_deploy_parallel dm services = true ↔
     ∀ s d, s ∈ services → d ∈ services → ¬ edge (dm_services dm) s d) ∧
  (∀ strategy sel waves,
     NoDup (keys (dm_services dm)) →
     get_deployment_order o dm strategy sel = Ok waves →
     Forall (λ wave, can_deploy_parallel dm wave = true) waves).
Proof.
  split; [apply can_deploy_parallel_spec|].
  intros strategy sel waves Hnd Hw. apply Forall_forall. intros wave Hwave.
  apply can_deploy_parallel_spec. intros s d Hs Hd.
  by eapply planned_wave_edge_free.
Qed.

Lemma planned_waves_can_deploy_parallel_witness :
  Forall (λ wave, can_deploy_parallel sample_manager wave = true)
         [["auth"]; ["menu"; "payment"]; ["order"]].
Proof.
  apply (proj2 (planned_waves_can_deploy_parallel elements_order sample_manager)
           "parallel_optimized" None).
  - compute_done.
  - vm_compute. reflexivity.
Defined.

Lemma elem_of_previous (waves : list (list string)) (dep : string) :
  dep ∈ (⋃ (list_to_set <$> waves) : gset string) ↔ dep ∈ mjoin waves.
Proof.
  rewrite elem_of_union_list, list_elem_of_join. split.
  - intros (X & HX & Hdep). apply list_elem_of_fmap in HX as (wave & -> & Hwave).
    exists wave. split; [|done]. by apply elem_of_list_to_set in Hdep.
  - intros (wave & Hdep & Hwave). exists (list_to_set wave). split.
    + apply list_elem_of_fmap. by exists wave.
    + by apply elem_of_list_to_set.
Qed.

Lemma check_wave_dependencies_spec dm (wave : list string) i waves :
  _check_wave_dependencies dm wave i waves = true ↔
  ∀ s info dep, s ∈ wave → dict_get s (dm_services dm) = Some info →
                dep ∈ dependencies info → dep ∈ keys (dm_services dm) →
                dep ∈ mjoin (take i waves).
Proof.
  unfold _check_wave_dependencies. rewrite forallb_forall. split.
  - intros H s info dep Hs Hget Hdep Hkey.
    apply list_elem_of_In, H in Hs. rewrite Hget in Hs.
    rewrite forallb_forall in Hs. apply list_elem_of_In, Hs in Hdep.
    apply negb_true_iff, andb_false_iff in Hdep as [Hdep|Hdep].
    + by apply bool_decide_eq_false in Hdep.
    + apply bool_decide_eq_false in Hdep. apply elem_of_previous.
      by apply dec_stable.
  - intros H s Hs%list_elem_of_In.
    destruct (dict_get s (dm_services dm)) as [info|] eqn:Hget; [|done].
    apply forallb_forall. intros dep Hdep%list_elem_of_In.
    apply negb_true_iff, andb_false_iff.
    destruct (decide (dep ∈ keys (dm_services dm))) as [Hkey|Hkey].
    + right. apply bool_decide_eq_false. intros Hn. apply Hn, elem_of_previous.
      by eapply H.
    + left. by apply bool_decide_eq_false.
Qed.

(** In a plan of [get_deployment_plan] the [dependencies_satisfied] flag of
    a wave is true exactly when every dependency declared by a member of
    the wave is among the services to deploy; so every flag is true when
    all services are deployed, and a wave whose member depends on a service
    left out of the selection is flagged false although it is planned. *)
Theorem dependencies_satisfied_flag (o : SetOrder) (dm : DependencyManager)
    (strategy : string) (sel : option (list string)) (plan : ManagerPlan) :
  NoDup (keys (dm_services dm)) →
  get_deployment_plan o dm strategy sel = Ok plan →
  Forall (λ wi,
            wi_dependencies_satisfied wi = true ↔
            ∀ s info dep, s ∈ wi_services wi →
                          dict_get s (dm_services dm) = Some info →
                          dep ∈ dependencies info →
                          dep ∈ default (keys (dm_services dm)) sel)
         (mp_waves plan).
Proof.
  intros Hnd Hplan. unfold get_deployment_plan in Hplan.
  destruct (get_deployment_order o dm strategy sel) as [waves|e] eqn:Hw; [|done].
  injection Hplan as <-. cbn [mp_waves].
  destruct (get_deployment_order_safe o dm strategy sel waves Hnd Hw)
    as (Hvalid & HndW & Hin & Hord & _).
  apply validate_true in Hvalid as [_ Hdecl].
  assert (∀ x, x ∈ mjoin waves → x ∈ default (keys (dm_services dm)) sel) as Hsel.
  { intros x Hx%Hin. rewrite filtered_keys in Hx.
    by apply list_elem_of_filter in Hx as [? _]. }
  apply Forall_forall. intros wi Hwi.
  apply list_elem_of_lookup in Hwi as [i Hi].
  rewrite list_lookup_imap in Hi.
  destruct (waves !! i) as [wave|] eqn:Hwave; [|done].
  injection Hi as <-. cbn [wi_dependencies_satisfied wi_services].
  rewrite check_wave_dependencies_spec. split.
  - intros H s info dep Hs Hget Hdep. apply Hsel.
    assert (dep ∈ mjoin (take i waves)) as Hprev.
    { apply (H s info dep Hs Hget Hdep). by eapply Hdecl. }
    apply list_elem_of_join in Hprev as (w & Hd & Hw').
    apply list_elem_of_join. exists w. split; [done|].
    apply list_elem_of_lookup in Hw' as [j Hj].
    apply lookup_take_Some in Hj as [Hj _]. by eapply list_elem_of_lookup_2.
  - intros H s info dep Hs Hget Hdep _.
    destruct (deps_before_filtered (dm_services dm) sel waves Hdecl Hin Hord
                i wave s info dep Hwave Hs Hget Hdep) as (j & wave' & Hlt & Hj & Hd).
    { by eapply H. }
    apply list_elem_of_join. exists wave'. split; [done|].
    apply (list_elem_of_lookup_2 _ j). rewrite lookup_take_lt; [done|lia].
Qed.

Lemma dependencies_satisfied_flag_witness :
  match get_deployment_plan elements_order sample_manager "parallel_optimized"
          (Some ["menu"; "order"]) with
  | Ok plan =>
      Forall (λ wi,
                wi_dependencies_satisfied wi = true ↔
                ∀ s info dep, s ∈ wi_services wi →
                              dict_get s (dm_services sample_manager) = Some info →
                              dep ∈ dependencies info →
                              dep ∈ default (keys (dm_services sample_manager))
                                            (Some ["menu"; "order"]))
             (mp_waves plan)
  | Raise _ => False
  end.
Proof.
  destruct (get_deployment_plan elements_order sample_manager "parallel_optimized"
              (Some ["menu"; "order"])) as [plan|e] eqn:Hplan.
  - apply (dependencies_satisfied_flag elements_order sample_manager
             "parallel_optimized" (Some ["menu"; "order"]) plan); [compute_done | exact Hplan].
  - vm_compute in Hplan. discriminate Hplan.
Defined.

(** ** What each round of the frontier loop appends *)

Section frontier_trace.
Context {W : Type}.
Variable o : SetOrder.
Variable group_key : ServiceInfo → Z.
Variable make_wave : nat → Z → list string → W.
Variable services : Dict ServiceInfo.
Local Abbreviation ready := (ready_key group_key services).

(** The loop appends one wave per round: round [i] files the remaining
    deployable services under their keys, takes the least key [k] and makes
    a wave of the whole group. *)
Lemma frontier_loop_trace fuel n deployed remaining waves res :
  frontier_loop o group_key make_wave services fuel n deployed remaining waves = Ok res →
  ∃ tr : list (Z * list string),
    res = waves ++ imap (λ i kl, make_wave (n + i)%nat kl.1 kl.2) tr ∧
    ∀ i k l, tr !! i = Some (k, l) →
      let earlier : gset string := list_to_set (mjoin (take i tr.*2)) in
      l = filter (λ x, ready (deployed ∪ earlier) x = Some k) (o (remaining ∖ earlier)) ∧
      l ≠ [] ∧
      ∀ x k', x ∈ remaining ∖ earlier → ready (deployed ∪ earlier) x = Some k' → k ≤ k'.
Proof.
  revert n deployed remaining waves.
  induction fuel as [|fuel IH]; intros n deployed remaining waves Hres; simpl in Hres.
  - destruct (decide (remaining = ∅)); [|done]. injection Hres as <-.
    exists []. split; [by rewrite app_nil_r|]. intros i k l Hi. by rewrite lookup_nil in Hi.
  - destruct (decide (remaining = ∅)).
    { injection Hres as <-. exists []. split; [by rewrite app_nil_r|].
      intros i k l Hi. by rewrite lookup_nil in Hi. }
    destruct (build_groups o group_key services deployed remaining)
      as [|[k0 l0] rest] eqn:Hgroups; [done|].
    destruct (build_groups_cons o group_key services _ _ _ _ _ Hgroups)
      as (Hwave & Hne & Hmin).
    set (m := min_key k0 rest) in *.
    set (wave := group_get m ((k0, l0) :: rest)) in *.
    apply IH in Hres as (tr & -> & Htr).
    exists ((m, wave) :: tr). split.
    + rewrite <- app_assoc. f_equal. simpl. rewrite Nat.add_0_r. f_equal.
      apply imap_ext. intros i kl _. simpl. f_equal. lia.
    + intros [|i] k l Hi; simpl in Hi.
      * injection Hi as <- <-. simpl.
        rewrite union_empty_r_L, difference_empty_L. done.
      * specialize (Htr i k l Hi). cbv zeta in Htr |- *.
        replace (mjoin (take (S i) ((m, wave) :: tr).*2))
          with (wave ++ mjoin (take i tr.*2)) by done.
        rewrite list_to_set_app_L.
        rewrite (assoc_L (∪)).
        replace (remaining ∖ (list_to_set wave ∪ list_to_set (mjoin (take i tr.*2))))
          with (remaining ∖ list_to_set wave ∖ list_to_set (mjoin (take i tr.*2)))
          by set_solver.
        exact Htr.
Qed.
End frontier_trace.

Lemma imap_snd_lookup {W} (f : nat → Z * list string → W) (tr : list (Z * list string))
    (i : nat) (w : W) :
  imap f tr !! i = Some w → ∃ k l, tr !! i = Some (k, l) ∧ w = f i (k, l).
Proof.
  rewrite list_lookup_imap. destruct (tr !! i) as [[k l]|]; [|done].
  intros [= <-]. eauto.
Qed.

Lemma fmap_imap_proj {A B C} (g : B → C) (f : nat → A → B) (h : A → C) (l : list A) :
  (∀ i x, g (f i x) = h x) → g <$> imap f l = h <$> l.
Proof.
  revert f. induction l as [|x l IH]; intros f Hf; [done|].
  rewrite imap_cons, !fmap_cons, Hf. f_equal. apply IH. intros i y. apply Hf.
Qed.

Lemma trace_lowest_ready_group (o : SetOrder) (group_key : ServiceInfo → Z)
    (services : Dict ServiceInfo) (tr : list (Z * list string)) i k l :
  (let earlier : gset string := list_to_set (mjoin (take i tr.*2)) in
   l = filter (λ x, ready_key group_key services (∅ ∪ earlier) x = Some k)
              (o (list_to_set (keys services) ∖ earlier)) ∧
   l ≠ [] ∧
   ∀ x k', x ∈ (list_to_set (keys services) : gset string) ∖ earlier →
           ready_key group_key services (∅ ∪ earlier) x = Some k' → k ≤ k') →
  lowest_ready_group group_key services (mjoin (take i tr.*2)) k l.
Proof.
  cbv zeta. rewrite (left_id_L ∅ (∪)). intros (-> & _ & Hmin). split.
  - intros s. rewrite list_elem_of_filter, elem_of_iter, elem_of_difference,
      !elem_of_list_to_set. tauto.
  - intros s k' Hs Hnot Hready. apply (Hmin s); [|done].
    rewrite elem_of_difference, !elem_of_list_to_set. done.
Qed.

(** In the orders of the two parallel strategies each wave is one whole
    group: the services not deployed by an earlier wave whose dependencies
    are deployed (or not part of the graph) and whose group key
    ([parallel_group], resp. [priority]) is the least one among such
    services.  The analyzer's wave records carry that key. *)
Theorem wave_is_lowest_ready_group (o : SetOrder) :
  (∀ services waves i wave,
     _get_parallel_optimized_order o services = Ok waves →
     waves !! i = Some wave →
     ∃ g, lowest_ready_group parallel_group services (mjoin (take i waves)) g wave) ∧
  (∀ services waves i wave,
     _get_priority_based_order o services = Ok waves →
     waves !! i = Some wave →
     ∃ g, lowest_ready_group priority services (mjoin (take i waves)) g wave) ∧
  (∀ service_info config waves i w,
     create_parallel_optimized_waves o service_info config = Ok waves →
     waves !! i = Some w →
     ∃ g, wave_group w = Some g ∧
          lowest_ready_group parallel_group service_info
            (mjoin (take i (wave_services <$> waves))) g (wave_services w)) ∧
  (∀ service_info config waves i w,
     create_priority_based_waves o service_info config = Ok waves →
     waves !! i = Some w →
     ∃ g, wave_group w = Some g ∧
          lowest_ready_group priority service_info
            (mjoin (take i (wave_services <$> waves))) g (wave_services w)).
Proof.
  assert (∀ group_key services waves i wave,
            frontier_waves o group_key (λ _ _ current_wave, current_wave) services
              = Ok waves →
            waves !! i = Some wave →
            ∃ g, lowest_ready_group group_key services (mjoin (take i waves)) g wave)
    as Hmanager.
  { intros group_key services waves i wave Hw Hi. unfold frontier_waves in Hw.
    apply frontier_loop_trace in Hw as (tr & -> & Htr). simpl in Hi |- *.
    assert (imap (λ (_ : nat) (kl : Z * list string), kl.2) tr = tr.*2) as Heq.
    { rewrite <- (list_fmap_id (imap _ tr)). by apply fmap_imap_proj. }
    rewrite Heq in Hi |- *. apply list_lookup_fmap_Some in Hi as ([k l] & -> & Hi).
    exists k. eapply trace_lowest_ready_group, Htr. done. }
  assert (∀ group_key service_info cap waves i w,
            frontier_waves o group_key (frontier_wave service_info cap) service_info
              = Ok waves →
            waves !! i = Some w →
            ∃ g, wave_group w = Some g ∧
                 lowest_ready_group group_key service_info
                   (mjoin (take i (wave_services <$> waves))) g (wave_services w))
    as Hanalyzer.
  { intros group_key si cap waves i w Hw Hi. unfold frontier_waves in Hw.
    apply frontier_loop_trace in Hw as (tr & -> & Htr). cbn [app] in Hi |- *.
    rewrite (fmap_imap_proj wave_services _ snd tr) by done.
    apply imap_snd_lookup in Hi as (k & l & Hi & ->).
    exists k. split; [done|]. simpl.
    eapply trace_lowest_ready_group, Htr. done. }
  split_and!.
  - intros services waves i wave. apply Hmanager.
  - intros services waves i wave. apply Hmanager.
  - intros si cfg waves i w. apply Hanalyzer.
  - intros si cfg waves i w. apply Hanalyzer.
Qed.

Lemma wave_is_lowest_ready_group_witness :
  ∃ g, lowest_ready_group parallel_group (dm_services sample_manager)
         (mjoin (take 1 [["auth"]; ["menu"; "payment"]; ["order"]])) g ["menu"; "payment"].
Proof.
  apply (proj1 (wave_is_lowest_ready_group elements_order) (dm_services sample_manager)
           [["auth"]; ["menu"; "payment"]; ["order"]] 1%nat).
  - vm_compute. reflexivity.
  - reflexivity.
Defined.

(** ** The fields of the analyzer's wave records *)

Lemma kahn_loop_trace {W} (make_wave : nat → string → W) (services : Dict ServiceInfo)
    fuel n deg queue result res :
  kahn_loop make_wave services fuel n deg queue result = Ok res →
  ∃ cs : list string, res = result ++ imap (λ i c, make_wave (n + i)%nat c) cs.
Proof.
  revert n deg queue result.
  induction fuel as [|fuel IH]; intros n deg queue result Hres;
    destruct queue as [|current queue]; simpl in Hres; try done.
  - injection Hres as <-. exists []. by rewrite app_nil_r.
  - injection Hres as <-. exists []. by rewrite app_nil_r.
  - apply IH in Hres as (cs & ->). exists (current :: cs).
    rewrite <- app_assoc. f_equal. simpl. rewrite Nat.add_0_r. f_equal.
    apply imap_ext. intros i c _. simpl. f_equal. lia.
Qed.

(** The wave records of the analyzer are numbered 1, 2, 3, ... in the order
    of the list.  A wave of the two parallel planners is never empty,
    allows parallel deployment exactly when it has more than one member,
    and its [max_concurrent] is the smaller of its member count and the
    configured cap of the strategy. *)
Theorem wave_records_are_numbered (o : SetOrder) :
  (∀ service_info config waves i w,
     create_parallel_optimized_waves o service_info config = Ok waves →
     waves !! i = Some w →
     wave_number w = S i ∧ wave_services w ≠ [] ∧
     wave_allow_parallel w = bool_decide (1 < length (wave_services w))%nat ∧
     wave_max_concurrent w =
       Z.min (Z.of_nat (length (wave_services w)))
             (ac_max_concurrent_per_wave config "parallel_optimized")) ∧
  (∀ service_info config waves i w,
     create_priority_based_waves o service_info config = Ok waves →
     waves !! i = Some w →
     wave_number w = S i ∧ wave_services w ≠ [] ∧
     wave_allow_parallel w = bool_decide (1 < length (wave_services w))%nat ∧
     wave_max_concurrent w =
       Z.min (Z.of_nat (length (wave_services w)))
             (ac_max_concurrent_per_wave config "priority_based")) ∧
  (∀ service_info waves i w,
     create_sequential_waves service_info = Ok waves →
     waves !! i = Some w → wave_number w = S i).
Proof.
  assert (∀ group_key service_info cap waves i w,
            frontier_waves o group_key (frontier_wave service_info cap) service_info
              = Ok waves →
            waves !! i = Some w →
            wave_number w = S i ∧ wave_services w ≠ [] ∧
            wave_allow_parallel w = bool_decide (1 < length (wave_services w))%nat ∧
            wave_max_concurrent w = Z.min (Z.of_nat (length (wave_services w))) cap)
    as Hfrontier.
  { intros group_key si cap waves i w Hw Hi. unfold frontier_waves in Hw.
    apply frontier_loop_trace in Hw as (tr & -> & Htr). simpl in Hi.
    apply imap_snd_lookup in Hi as (k & l & Hi & ->). simpl.
    split_and!; try done. by apply Htr in Hi as (_ & ? & _). }
  split_and!.
  - intros si cfg waves i w. apply Hfrontier.
  - intros si cfg waves i w. apply Hfrontier.
  - intros si waves i w Hw Hi. unfold create_sequential_waves, sequential_waves in Hw.
    apply kahn_loop_trace in Hw as (cs & ->). simpl in Hi.
    rewrite list_lookup_imap in Hi. destruct (cs !! i); [|done].
    by injection Hi as <-.
Qed.

Lemma wave_records_are_numbered_witness :
  Forall (λ iw, wave_number iw.2 = S iw.1) (imap pair sample_priority_waves).
Proof.
  apply Forall_forall. intros [i w] Hiw.
  apply list_elem_of_lookup in Hiw as [j Hj]. rewrite list_lookup_imap in Hj.
  destruct (sample_priority_waves !! j) as [w'|] eqn:Hw; [|done].
  injection Hj as <- <-. simpl.
  apply (proj1 (proj2 (wave_records_are_numbered elements_order))
           (parse_service_dependencies (ev_services (sample_event "priority_based"))
              load_dependency_config) load_dependency_config sample_priority_waves j w').
  - vm_compute. reflexivity.
  - exact Hw.
Defined.

(** ** The dependency depth is the length of the longest chain *)

Lemma depth_fold_raise (rec : string → Result Z) (deps : list string) (e : Error) :
  foldl (λ acc dep,
           match acc with
           | Raise e => Raise e
           | Ok max_dep_depth =>
               match rec dep with
               | Ok dep_depth => Ok (Z.max max_dep_depth dep_depth)
               | Raise e => Raise e
               end
           end) (Raise e) deps = Raise e.
Proof. induction deps as [|dep deps IH]; [done|]. simpl. exact IH. Qed.

Lemma depth_fold_inv (rec : string → Result Z) (deps : list string) (acc m : Z) :
  foldl (λ acc dep,
           match acc with
           | Raise e => Raise e
           | Ok max_dep_depth =>
               match rec dep with
               | Ok dep_depth => Ok (Z.max max_dep_depth dep_depth)
               | Raise e => Raise e
               end
           end) (Ok acc) deps = Ok m →
  acc ≤ m ∧
  (∀ dep, dep ∈ deps → ∃ d, rec dep = Ok d ∧ d ≤ m) ∧
  (m = acc ∨ ∃ dep, dep ∈ deps ∧ rec dep = Ok m).
Proof.
  revert acc. induction deps as [|dep deps IH]; intros acc Hm; simpl in Hm.
  - injection Hm as <-. split_and!; [lia | by intros ? ?%elem_of_nil | by left].
  - destruct (rec dep) as [d|e] eqn:Hrec; [|by rewrite depth_fold_raise in Hm].
    apply IH in Hm as (Hge & Hall & Hwit). split_and!.
    + lia.
    + intros dep' [->|Hin]%elem_of_cons; [|auto]. exists d. split; [done|lia].
    + destruct Hwit as [->|(dep' & Hin & Hdep')].
      * destruct (Z.max_spec acc d) as [[_ ->]|[_ ->]].
        -- right. exists dep. split; [left|done].
        -- by left.
      * right. exists dep'. split; [by right|done].
Qed.

Lemma chain_from_single (si : Dict ServiceInfo) (visited : gset string) (s : string) :
  s ∉ visited → chain_from si visited s [s].
Proof.
  intros Hs. split_and!; [done | apply NoDup_singleton | | done].
  by intros x ->%list_elem_of_singleton.
Qed.

(** A chain from [s] with more than one id continues with a chain from a
    dependency of [s] that also avoids [s]. *)
Lemma chain_from_tail (si : Dict ServiceInfo) (visited : gset string) s y (t : list string) :
  chain_from si visited s (s :: y :: t) →
  edge si s y ∧ chain_from si ({[s]} ∪ visited) y (y :: t).
Proof.
  intros (_ & Hnd & Havoid & Hedge & Hpath). split; [done|].
  apply NoDup_cons in Hnd as [Hs Hnd]. split_and!; [done | done | | done].
  intros x Hx. apply not_elem_of_union. split.
  - rewrite elem_of_singleton. intros ->. done.
  - apply Havoid. by right.
Qed.

Lemma chain_from_cons (si : Dict ServiceInfo) (visited : gset string) s y (p : list string) :
  s ∉ visited → edge si s y → chain_from si ({[s]} ∪ visited) y p →
  chain_from si visited s (s :: p).
Proof.
  intros Hs Hedge (Hhead & Hnd & Havoid & Hpath).
  destruct p as [|y' t]; [done|]. injection Hhead as ->.
  split_and!; [done | | | done].
  - apply NoDup_cons. split; [|done]. intros Hin. apply Havoid in Hin. set_solver.
  - intros x [->|Hx]%elem_of_cons; [done|]. apply Havoid in Hx. set_solver.
Qed.

(** [get_depth service visited], called on a service not in [visited],
    returns the number of ids on the longest chain of dependencies that
    starts at [service], repeats no id and avoids [visited]. *)
Lemma get_depth_chain (si : Dict ServiceInfo) fuel s visited d :
  get_depth si fuel s visited = Ok d → s ∉ visited →
  (∃ p, chain_from si visited s p ∧ Z.of_nat (length p) = d) ∧
  (∀ p, chain_from si visited s p → Z.of_nat (length p) ≤ d).
Proof.
  revert s visited d. induction fuel as [|fuel IH]; intros s visited d Hd Hs; [done|].
  simpl in Hd. destruct (decide (s ∈ visited)); [done|].
  assert (∀ p, (∀ y, ¬ edge si s y) → chain_from si visited s p →
               Z.of_nat (length p) ≤ 1) as Hleaf.
  { intros p Hno Hp. destruct p as [|x [|y t]]; simpl; [lia..|].
    destruct Hp as (Hhead & Hp). injection Hhead as ->.
    destruct (Hno y). apply (chain_from_tail si visited s y t). by split. }
  destruct (dict_get s si) as [info|] eqn:Hget.
  2: { injection Hd as <-. split.
       - exists [s]. split; [by apply chain_from_single|done].
       - intros p. apply Hleaf. intros y (info & Hget' & _). congruence. }
  destruct (dependencies info) as [|dep0 deps] eqn:Hdeps.
  { injection Hd as <-. split.
    - exists [s]. split; [by apply chain_from_single|done].
    - intros p. apply Hleaf. intros y (info' & Hget' & Hin).
      assert (info' = info) as -> by congruence. rewrite Hdeps in Hin.
      by apply elem_of_nil in Hin. }
  match type of Hd with
  | match ?f with _ => _ end = _ => destruct f as [m|e] eqn:Hfold; [|done]
  end.
  injection Hd as <-.
  apply (depth_fold_inv (λ dep, get_depth si fuel dep ({[s]} ∪ visited))
           (dep0 :: deps) 0 m) in Hfold as (Hge & Hall & Hwit).
  rewrite <- Hdeps in Hall, Hwit. split.
  - destruct Hwit as [->|(dep & Hin & Hdep)].
    + exists [s]. split; [by apply chain_from_single|done].
    + destruct fuel as [|fuel']; [done|].
      destruct (decide (dep ∈ ({[s]} ∪ visited) : Prop)) as [Hvis|Hvis].
      * simpl in Hdep. rewrite decide_True in Hdep by done. injection Hdep as <-.
        exists [s]. split; [by apply chain_from_single|done].
      * apply IH in Hdep as [(p & Hp & Hlen) _]; [|done].
        exists (s :: p). split.
        -- apply (chain_from_cons si visited s dep); [done| |done]. by exists info.
        -- simpl length. lia.
  - intros p Hp. destruct p as [|x [|y t]]; simpl length; [lia..|].
    assert (x = s) as ->. { destruct Hp as (Hhead & _). by injection Hhead. }
    apply chain_from_tail in Hp as [(info' & Hget' & Hin) Hchain].
    assert (info' = info) as -> by congruence.
    destruct (Hall y Hin) as (dy & Hdy & Hle).
    assert (y ∉ ({[s]} ∪ visited : gset string)) as Hy.
    { destruct Hchain as (_ & _ & Havoid & _). apply Havoid. left. }
    apply IH in Hdy as [_ Hub]; [|done].
    specialize (Hub (y :: t) Hchain). simpl length in Hub. lia.
Qed.

Lemma depths_inv (si : Dict ServiceInfo) fuel (names : list string) (depths : list Z) :
  foldr (λ service acc,
           match get_depth si fuel service ∅, acc with
           | Ok d, Ok ds => Ok (d :: ds)
           | Raise e, _ => Raise e
           | _, Raise e => Raise e
           end) (Ok []) names = Ok depths →
  Forall2 (λ s d, get_depth si fuel s ∅ = Ok d) names depths.
Proof.
  revert depths. induction names as [|s names IH]; intros depths Hd; simpl in Hd.
  - injection Hd as <-. constructor.
  - destruct (get_depth si fuel s ∅) as [d|e] eqn:Hs; [|done].
    match type of Hd with
    | match ?f with _ => _ end = _ => destruct f as [ds|e] eqn:Hrest; [|done]
    end.
    injection Hd as <-. constructor; [done|]. by apply IH.
Qed.

Lemma max_depth_chain (service_info : Dict ServiceInfo) (d : Z) :
  calculate_max_dependency_depth service_info = Ok d →
  (∃ s p, s ∈ keys service_info ∧ chain_from service_info ∅ s p ∧
          Z.of_nat (length p) = d) ∧
  (∀ s p, s ∈ keys service_info → chain_from service_info ∅ s p →
          Z.of_nat (length p) ≤ d).
Proof.
  intros Hd. unfold calculate_max_dependency_depth in Hd.
  match type of Hd with
  | match ?f with _ => _ end = _ => destruct f as [depths|e] eqn:Hdepths; [|done]
  end.
  apply depths_inv in Hdepths.
  destruct (py_max depths) as [m|] eqn:Hmax; [|done]. injection Hd as ->.
  apply py_max_spec in Hmax as [Hin Hle]. split.
  - apply list_elem_of_lookup in Hin as [i Hi].
    destruct (Forall2_lookup_r _ _ _ _ _ Hdepths Hi) as (s & Hs & Hget).
    apply get_depth_chain in Hget as [(p & Hp & Hlen) _]; [|set_solver].
    exists s, p. split; [by eapply list_elem_of_lookup_2|done].
  - intros s p Hs Hp. apply list_elem_of_lookup in Hs as [i Hi].
    destruct (Forall2_lookup_l _ _ _ _ _ Hdepths Hi) as (ds & Hds & Hget).
    apply get_depth_chain in Hget as [_ Hub]; [|set_solver].
    specialize (Hub p Hp). apply list_elem_of_lookup_2 in Hds. apply Hle in Hds. lia.
Qed.

(** For a non-empty service map [calculate_max_dependency_depth] returns,
    and what it returns is the number of ids on the longest chain of
    declared dependencies that starts at a key of the map and repeats no
    id (cycles and undeclared ids included: a chain just stops there). *)
Theorem max_depth_is_longest_chain (service_info : Dict ServiceInfo) :
  service_info ≠ [] →
  ∃ d, calculate_max_dependency_depth service_info = Ok d ∧
       (∃ s p, s ∈ keys service_info ∧ chain_from service_info ∅ s p ∧
               Z.of_nat (length p) = d) ∧
       (∀ s p, s ∈ keys service_info → chain_from service_info ∅ s p →
               Z.of_nat (length p) ≤ d).
Proof.
  intros Hne. destruct (calculate_max_dependency_depth_total service_info Hne) as [d Hd].
  exists d. split; [done|]. by apply max_depth_chain.
Qed.

Lemma max_depth_is_longest_chain_witness :
  ∃ d, calculate_max_dependency_depth (dm_services sample_manager) = Ok d ∧
       (∃ s p, s ∈ keys (dm_services sample_manager) ∧
               chain_from (dm_services sample_manager) ∅ s p ∧
               Z.of_nat (length p) = d) ∧
       (∀ s p, s ∈ keys (dm_services sample_manager) →
               chain_from (dm_services sample_manager) ∅ s p →
               Z.of_nat (length p) ≤ d).
Proof. apply (max_depth_is_longest_chain (dm_services sample_manager)). done. Defined.

(** ** The validator's verdict *)

Lemma validate_false_errors o services :
  (validate_dependencies o services).1 = true ↔ (validate_dependencies o services).2 = [].
Proof.
  unfold validate_dependencies. cbn [fst snd]. rewrite bool_decide_eq_true. split.
  - apply nil_length_inv.
  - by intros ->.
Qed.

Lemma validate_accepts o services :
  NoDup (keys services) →
  ¬ has_cycle services →
  (∀ s info dep, dict_get s services = Some info → dep ∈ dependencies info →
                 dep ∈ keys services) →
  (validate_dependencies o services).1 = true.
Proof.
  intros Hnd Hac Hdecl. apply validate_false_errors. unfold validate_dependencies. cbn [snd].
  assert (has_circular_dependencies services = false) as ->.
  { apply not_true_is_false. by rewrite has_circular_dependencies_spec. }
  assert (missing_list services = []) as Hmiss.
  { destruct (missing_list services) as [|dep l] eqn:Hl; [done|]. exfalso.
    assert (dep ∈ missing_list services) as Hin by (rewrite Hl; left).
    apply missing_list_elem_of in Hin as (s & info & Hs & Hdep & Hk).
    apply Hk, (Hdecl s info dep); [|done]. by apply dict_get_NoDup. }
  unfold check_missing_dependencies. rewrite Hmiss.
  change (list_to_set []) with (∅ : gset string). by rewrite iter_empty.
Qed.

(** [validate_dependencies] accepts a graph exactly when it has no
    dependency cycle and every declared dependency is a key of the graph,
    and it accepts exactly when it reports no error message. *)
Theorem validation_verdict (o : SetOrder) (services : Dict ServiceInfo) :
  NoDup (keys services) →
  ((validate_dependencies o services).1 = true ↔
   ¬ has_cycle services ∧
   ∀ s info dep, dict_get s services = Some info → dep ∈ dependencies info →
                 dep ∈ keys services) ∧
  ((validate_dependencies o services).1 = true ↔ (validate_dependencies o services).2 = []).
Proof.
  intros Hnd. split; [|apply validate_false_errors]. split.
  - apply validate_true.
  - intros [Hac Hdecl]. by apply validate_accepts.
Qed.

Lemma validation_verdict_witness :
  ((validate_dependencies elements_order cycle_graph).1 = true ↔
   ¬ has_cycle cycle_graph ∧
   ∀ s info dep, dict_get s cycle_graph = Some info → dep ∈ dependencies info →
                 dep ∈ keys cycle_graph) ∧
  ((validate_dependencies elements_order cycle_graph).1 = true ↔
   (validate_dependencies elements_order cycle_graph).2 = []).
Proof. apply (validation_verdict elements_order cycle_graph). compute_done. Defined.

(** ** [parse_service_dependencies] *)

Lemma dict_get_set {V} (k k' : string) (v : V) (d : Dict V) :
  dict_get k (dict_set k' v d) = if decide (k = k') then Some v else dict_get k d.
Proof.
  induction d as [|[k0 v0] d IH]; simpl.
  - done.
  - destruct (decide (k' = k0)) as [->|Hne]; simpl.
    + by destruct (decide (k = k0)).
    + destruct (decide (k = k0)) as [->|]; [by rewrite decide_False|done].
Qed.

Lemma parse_fold_lookup (config : AnalyzerConfig) (services : list string)
    (acc : Dict ServiceInfo) (s : string) :
  dict_get s
    (foldl (λ service_info service,
              match dict_get service (ac_services config) with
              | Some service_config => dict_set service service_config service_info
              | None => dict_set service default_service_info service_info
              end) acc services) =
  if decide (s ∈ services)
  then Some (default default_service_info (dict_get s (ac_services config)))
  else dict_get s acc.
Proof.
  revert acc. induction services as [|x services IH]; intros acc; cbn [foldl].
  - destruct (decide (s ∈ [])) as [Hin|]; [by apply elem_of_nil in Hin | done].
  - rewrite IH. destruct (decide (s ∈ services)) as [Hin|Hnin].
    + destruct (decide (s ∈ x :: services)) as [|Hn]; [done|]. destruct Hn. by right.
    + destruct (decide (s = x)) as [->|Hne].
      * destruct (decide (x ∈ x :: services)) as [|Hn]; [|destruct Hn; left].
        destruct (dict_get x (ac_services config)); by rewrite dict_get_set, decide_True.
      * destruct (decide (s ∈ x :: services)) as [[?|?]%elem_of_cons|]; [done..|].
        destruct (dict_get x (ac_services config)); by rewrite dict_get_set, decide_False.
Qed.

Lemma parse_lookup (services : list string) (config : AnalyzerConfig) (s : string) :
  dict_get s (parse_service_dependencies services config) =
  if decide (s ∈ services)
  then Some (default default_service_info (dict_get s (ac_services config)))
  else None.
Proof. unfold parse_service_dependencies. by rewrite parse_fold_lookup. Qed.

Lemma parse_keys (services : list string) (config : AnalyzerConfig) (s : string) :
  s ∈ keys (parse_service_dependencies services config) ↔ s ∈ services.
Proof.
  rewrite <- dict_get_is_Some, parse_lookup.
  destruct (decide (s ∈ services)); split; done || by intros [? ?].
Qed.

(** The service map the analyzer builds holds every requested id exactly
    once, however often the request repeats it, and nothing else; a
    requested id is mapped to its entry of the config, or, when the config
    does not know it, to the defaults (no dependencies, priority and group
    999, 60 seconds). *)
Theorem parsed_service_map (services : list string) (config : AnalyzerConfig) :
  NoDup (keys (parse_service_dependencies services config)) ∧
  (∀ s, s ∈ keys (parse_service_dependencies services config) ↔ s ∈ services) ∧
  (∀ s, s ∈ services →
        dict_get s (parse_service_dependencies services config) =
        Some (default default_service_info (dict_get s (ac_services config)))) ∧
  (∀ s, s ∉ services → dict_get s (parse_service_dependencies services config) = None).
Proof.
  split_and!.
  - apply parse_nodup.
  - intros s. apply parse_keys.
  - intros s Hs. by rewrite parse_lookup, decide_True.
  - intros s Hs. by rewrite parse_lookup, decide_False.
Qed.

(** ** The handler's answer *)

Lemma parse_edge (services : list string) (config : AnalyzerConfig) (s d : string) :
  edge (parse_service_dependencies services config) s d ↔
  s ∈ services ∧ d ∈ config_dependencies config s.
Proof.
  unfold edge, config_dependencies. split.
  - intros (info & Hget & Hd). rewrite parse_lookup in Hget.
    destruct (decide (s ∈ services)); [|done]. injection Hget as <-. split; [done|].
    destruct (dict_get s (ac_services config)); [done|]. by apply elem_of_nil in Hd.
  - intros [Hs Hd]. rewrite parse_lookup, decide_True by done.
    eexists. split; [done|].
    destruct (dict_get s (ac_services config)); [done|]. by apply elem_of_nil in Hd.
Qed.

Lemma parse_acyclic (services : list string) (config : AnalyzerConfig) :
  ¬ has_cycle (ac_services config) →
  ¬ has_cycle (parse_service_dependencies services config).
Proof.
  intros Hac [x Hx]. apply Hac. exists x.
  apply (tc_congruence (λ y, y) (edge (ac_services config))) in Hx; [done|].
  intros a b [_ Hb]%parse_edge. unfold config_dependencies in Hb. unfold edge.
  destruct (dict_get a (ac_services config)) as [info|]; [eauto|].
  by apply elem_of_nil in Hb.
Qed.

Lemma load_dependency_config_acyclic : ¬ has_cycle (ac_services load_dependency_config).
Proof.
  rewrite <- has_circular_dependencies_spec.
  assert (has_circular_dependencies (ac_services load_dependency_config) = false) as ->
    by (vm_compute; reflexivity).
  done.
Qed.

Lemma selection_closed_spec (config : AnalyzerConfig) (services : list string) :
  selection_closed config services ↔
  ∀ s dep, s ∈ services → dep ∈ config_dependencies config s → dep ∈ services.
Proof.
  unfold selection_closed. rewrite Forall_forall. split.
  - intros H s dep Hs Hdep. specialize (H s Hs). rewrite Forall_forall in H. by apply H.
  - intros H s Hs. apply Forall_forall. intros dep Hdep. by eapply H.
Qed.

Lemma parse_declared (services : list string) (config : AnalyzerConfig) :
  selection_closed config services ↔
  ∀ s info dep, dict_get s (parse_service_dependencies services config) = Some info →
                dep ∈ dependencies info →
                dep ∈ keys (parse_service_dependencies services config).
Proof.
  rewrite selection_closed_spec. split.
  - intros H s info dep Hget Hdep. apply parse_keys.
    destruct (proj1 (parse_edge services config s dep)) as [Hs Hd]; [by exists info|].
    by eapply H.
  - intros H s dep Hs Hdep. apply (parse_keys _ config).
    destruct (proj2 (parse_edge services config s dep)) as (info & Hget & Hd); [done|].
    by eapply H.
Qed.

Lemma parse_deps_nodup (services : list string) (config : AnalyzerConfig) :
  Forall (λ kv, NoDup (dependencies kv.2)) (ac_services config) →
  ∀ s info, dict_get s (parse_service_dependencies services config) = Some info →
            NoDup (dependencies info).
Proof.
  intros Hall s info Hget. rewrite parse_lookup in Hget.
  destruct (decide (s ∈ services)); [|done]. injection Hget as <-.
  destruct (dict_get s (ac_services config)) as [c|] eqn:Hc; [|constructor].
  rewrite Forall_forall in Hall. exact (Hall _ (dict_get_Some _ _ _ Hc)).
Qed.

Lemma length_mjoin_sum {A} (ls : list (list A)) (n : nat) :
  foldl Nat.add n (length <$> ls) = (n + length (mjoin ls))%nat.
Proof.
  revert n. induction ls as [|l ls IH]; intros n; simpl; [lia|].
  rewrite IH, length_app. lia.
Qed.

Lemma analyzer_waves_total (o : SetOrder) (si : Dict ServiceInfo) (config : AnalyzerConfig)
    (strategy : string) :
  NoDup (keys si) → ¬ has_cycle si →
  (∀ s info, dict_get s si = Some info → NoDup (dependencies info)) →
  ∃ waves,
    (if decide (strategy = "parallel_optimized")
     then create_parallel_optimized_waves o si config
     else if decide (strategy = "priority_based")
     then create_priority_based_waves o si config
     else create_sequential_waves si) = Ok waves ∧
    partitions (keys si) (wave_services <$> waves).
Proof.
  intros Hnd Hac Hdeps.
  assert (∀ (r : Result (list Wave)) r',
            result_map (fmap wave_services) r = r' →
            (∃ waves, r' = Ok waves ∧ partitions (keys si) waves) →
            ∃ waves, r = Ok waves ∧ partitions (keys si) (wave_services <$> waves)) as Hlift.
  { intros r r' <- (waves & (ws & -> & ->)%result_map_Ok_inv & Hp). eauto. }
  assert (∀ group_key,
            ∃ waves, frontier_waves o group_key (λ _ _ w, w) si = Ok waves ∧
                     partitions (keys si) waves) as Hfrontier.
  { intros group_key. destruct (frontier_waves_total o group_key si Hac) as [waves Hw].
    exists waves. split; [done|]. by apply frontier_waves_safe in Hw as [? _]. }
  destruct (decide (strategy = "parallel_optimized")).
  { eapply Hlift; [apply create_parallel_members | apply Hfrontier]. }
  destruct (decide (strategy = "priority_based")).
  { eapply Hlift; [apply create_priority_members | apply Hfrontier]. }
  eapply Hlift; [apply create_sequential_members|].
  destruct (sequential_waves_safe si Hnd) as (P & HP & HndP & HPK & _ & Hall).
  exists ((λ c, [c]) <$> P). split; [exact HP|]. unfold partitions.
  rewrite mjoin_singletons. split; [done|]. intros s. split; [apply HPK | by apply Hall].
Qed.

(** What the analyzer's handler answers, for every request and strategy
    tag.  If the request is not empty and names, with every service, all
    the dependencies the config declares for it, the answer has status 200,
    its waves hold each requested service exactly once, and the plan counts
    the distinct requested services.  If some requested service has a
    declared dependency that is not requested, the answer has status 500
    and reports that dependency as missing. *)
Theorem handler_answer (o : SetOrder) (services : list string) (strategy : string) :
  (services ≠ [] → selection_closed load_dependency_config services →
   ∃ body,
     lambda_handler o {| ev_services := services; ev_strategy := strategy |} =
       Response200 body ∧
     partitions services (wave_services <$> deployment_waves body) ∧
     total_services (deployment_plan body) = length (remove_dups services)) ∧
  (∀ s dep,
     s ∈ services → dep ∈ config_dependencies load_dependency_config s →
     dep ∉ services →
     ∃ errors,
       lambda_handler o {| ev_services := services; ev_strategy := strategy |} =
         Response500 (InvalidDependencies errors) ∧
       "Missing dependency: " +:+ dep ∈ errors).
Proof.
  set (si := parse_service_dependencies services load_dependency_config).
  pose proof (parse_nodup services load_dependency_config) as Hnd. fold si in Hnd.
  pose proof (parse_acyclic services _ load_dependency_config_acyclic) as Hac. fold si in Hac.
  split.
  - intros Hne Hclosed.
    assert ((validate_dependencies o si).1 = true) as Hvalid.
    { apply validate_accepts; [done | done |]. by apply parse_declared. }
    destruct (analyzer_waves_total o si load_dependency_config strategy Hnd Hac)
      as (waves & Hw & Hpart).
    { apply parse_deps_nodup. repeat constructor; compute_done. }
    destruct (calculate_max_dependency_depth_total si) as [depth Hdepth].
    { destruct services as [|s services]; [done|]. intros Hnil.
      assert (s ∈ keys si) as Hin by (apply parse_keys; left).
      rewrite Hnil in Hin. by apply elem_of_nil in Hin. }
    assert (partitions services (wave_services <$> waves)) as Hpart'.
    { destruct Hpart as [HndW Hmem]. split; [done|]. intros s.
      rewrite Hmem. apply parse_keys. }
    unfold lambda_handler. rewrite analyze_unfold. cbv zeta.
    cbn [ev_services ev_strategy]. fold si. rewrite Hvalid, Hw, Hdepth.
    eexists. split; [reflexivity|]. cbn [deployment_waves deployment_plan].
    split; [done|]. unfold create_deployment_plan.
    destruct (decide (strategy = "parallel_optimized")); cbn [total_services];
      rewrite (list_fmap_compose wave_services length), length_mjoin_sum; simpl;
      apply Permutation_length, NoDup_Permutation;
      [apply Hpart' | apply NoDup_remove_dups
      | intros x; rewrite elem_of_remove_dups; apply Hpart'
      | apply Hpart' | apply NoDup_remove_dups
      | intros x; rewrite elem_of_remove_dups; apply Hpart'].
  - intros s dep Hs Hdep Hmissing.
    assert (dep ∈ check_missing_dependencies o si) as Hin.
    { unfold check_missing_dependencies. rewrite elem_of_iter, elem_of_list_to_set.
      apply missing_list_elem_of.
      destruct (proj2 (parse_edge services load_dependency_config s dep))
        as (info & Hget & Hd); [done|].
      exists s, info. split_and!; [by apply dict_get_Some | done |].
      unfold si. by rewrite parse_keys. }
    assert ("Missing dependency: " +:+ dep ∈ (validate_dependencies o si).2) as Herr.
    { unfold validate_dependencies. cbn [snd]. apply elem_of_app. right.
      apply list_elem_of_fmap. by exists dep. }
    exists (validate_dependencies o si).2. split; [|done].
    unfold lambda_handler. rewrite analyze_unfold. cbv zeta.
    cbn [ev_services ev_strategy]. fold si.
    destruct ((validate_dependencies o si).1) eqn:Hvalid; [|done].
    apply validate_false_errors in Hvalid. rewrite Hvalid in Herr.
    by apply elem_of_nil in Herr.
Qed.

Lemma handler_answer_witness :
  (∃ body,
     lambda_handler elements_order
       {| ev_services := ["menu-service"; "auth-service"; "menu-service"];
          ev_strategy := "priority_based" |} = Response200 body ∧
     partitions ["menu-service"; "auth-service"; "menu-service"]
       (wave_services <$> deployment_waves body) ∧
     total_services (deployment_plan body) =
       length (remove_dups ["menu-service"; "auth-service"; "menu-service"])) ∧
  (∃ errors,
     lambda_handler elements_order
       {| ev_services := ["order-service"; "auth-service"];
          ev_strategy := "sequential" |} = Response500 (InvalidDependencies errors) ∧
     "Missing dependency: " +:+ "menu-service" ∈ errors).
Proof.
  split.
  - apply (proj1 (handler_answer elements_order
                    ["menu-service"; "auth-service"; "menu-service"] "priority_based")).
    + done.
    + unfold selection_closed. repeat constructor; compute_done.
  - apply (proj2 (handler_answer elements_order ["order-service"; "auth-service"]
                    "sequential") "order-service" "menu-service").
    + compute_done.
    + compute_done.
    + compute_done.
Defined.

(** ** The rollback order *)

(** The rollback order lists exactly the deployed services, and when the
    configured rollback list names no service twice it lists each of them
    once, however often [deployed_services] repeats an id. *)
Theorem rollback_order_covers_deployed (o : SetOrder) (dm : DependencyManager)
    (deployed_services : list string) :
  (∀ s, s ∈ get_rollback_order o dm deployed_services ↔ s ∈ deployed_services) ∧
  (NoDup (rollback_order dm) → NoDup (get_rollback_order o dm deployed_services)).
Proof.
  unfold get_rollback_order. cbv zeta. split.
  - intros s. rewrite elem_of_app, elem_of_iter, elem_of_difference,
      !elem_of_list_to_set, list_elem_of_filter.
    destruct (decide (s ∈ rollback_order dm)); tauto.
  - intros Hnd. apply NoDup_app. split_and!.
    + by apply NoDup_filter.
    + intros s Hs. rewrite elem_of_iter, elem_of_difference, !elem_of_list_to_set. tauto.
    + apply NoDup_iter.
Qed.

Lemma rollback_order_covers_deployed_witness :
  NoDup (get_rollback_order elements_order sample_manager ["auth"; "extra"; "auth"; "order"]).
Proof.
  apply (proj2 (rollback_order_covers_deployed elements_order sample_manager
                  ["auth"; "extra"; "auth"; "order"])).
  compute_done.
Defined.

(** ** The times of a deployment plan *)

Lemma foldl_add_shift (x : Z) (xs : list Z) : foldl Z.add x xs = x + foldl Z.add 0 xs.
Proof.
  revert x. induction xs as [|y xs IH]; intros x; cbn [foldl]; [lia|].
  rewrite (IH (x + y)), (IH (0 + y)). lia.
Qed.

Lemma py_sum_bounds (xs : list Z) :
  Forall (λ x, 0 ≤ x) xs → 0 ≤ py_sum xs ∧ ∀ x, x ∈ xs → x ≤ py_sum xs.
Proof.
  unfold py_sum. induction 1 as [|y xs Hy _ [IH0 IH]]; simpl.
  - split; [lia | by intros ? ?%elem_of_nil].
  - rewrite foldl_add_shift. split; [lia|].
    intros x [->|Hx]%elem_of_cons; [lia|]. specialize (IH x Hx). lia.
Qed.

(** When no wave has a negative time, the plan's optimized time lies
    between 0 and the sequential time, the savings are the difference of
    the two and never negative, and the time the handler reports never
    exceeds the sequential time. *)
Theorem plan_times_are_consistent (waves : list Wave) (strategy : string)
    (config : AnalyzerConfig) :
  Forall (λ w, 0 ≤ estimated_time w) waves →
  let plan := create_deployment_plan waves strategy config in
  0 ≤ estimated_optimized_time plan ≤ estimated_sequential_time plan ∧
  time_savings_seconds plan =
    estimated_sequential_time plan - estimated_optimized_time plan ∧
  0 ≤ time_savings_seconds plan ∧
  0 ≤ estimate_total_deployment_time plan ≤ estimated_sequential_time plan.
Proof.
  intros Hpos plan.
  assert (Forall (λ x, 0 ≤ x) (estimated_time <$> waves)) as Hpos'.
  { by apply Forall_fmap. }
  destruct (py_sum_bounds _ Hpos') as [Hsum Hle].
  assert (0 ≤ default 0 (py_max (estimated_time <$> waves))
          ≤ py_sum (estimated_time <$> waves)) as Hmax.
  { destruct (py_max (estimated_time <$> waves)) as [m|] eqn:Hm; simpl; [|lia].
    apply py_max_spec in Hm as [Hin _]. split; [|by apply Hle].
    rewrite Forall_forall in Hpos'. by apply Hpos'. }
  unfold estimate_total_deployment_time, plan, create_deployment_plan.
  destruct (decide (strategy = "parallel_optimized")) as [->|Hne];
    cbn [estimated_optimized_time estimated_sequential_time time_savings_seconds
         plan_strategy].
  - rewrite decide_False by done. lia.
  - destruct (decide (strategy = "sequential")); lia.
Qed.

Lemma plan_times_are_consistent_witness :
  0 ≤ time_savings_seconds
        (create_deployment_plan sample_priority_waves "parallel_optimized"
           load_dependency_config).
Proof.
  apply (plan_times_are_consistent sample_priority_waves "parallel_optimized"
           load_dependency_config).
  repeat constructor; compute_done.
Defined.

(** ** The counts of a status-200 answer *)

(** Along a dependency chain the wave index goes down by at least one per
    step. *)
Lemma chain_wave_index (si : Dict ServiceInfo) (waves : list (list string)) :
  deps_before si (λ dep, dep ∈ keys si) waves →
  (∀ s info dep, dict_get s si = Some info → dep ∈ dependencies info → dep ∈ keys si) →
  ∀ p x i wave, head p = Some x → is_path si p → waves !! i = Some wave → x ∈ wave →
                (length p ≤ S i)%nat.
Proof.
  intros Hord Hdecl p. induction p as [|x' p IH]; intros x i wave Hhead Hpath Hi Hx; [done|].
  injection Hhead as ->. destruct p as [|y t]; [simpl; lia|].
  destruct Hpath as [(info & Hget & Hdep) Hpath].
  destruct (Hord i wave x info y Hi Hx Hget Hdep) as (j & wave' & Hlt & Hj & Hy).
  { by eapply Hdecl. }
  specialize (IH y j wave' eq_refl Hpath Hj Hy). simpl in IH |- *. lia.
Qed.

Lemma length_waves_le (waves : list (list string)) :
  Forall (λ wave, wave ≠ []) waves → (length waves ≤ length (mjoin waves))%nat.
Proof.
  induction 1 as [|wave waves Hne _ IH]; simpl; [lia|].
  rewrite length_app. destruct wave; [done|]. simpl. lia.
Qed.

Lemma analyzer_waves_nonempty (o : SetOrder) (si : Dict ServiceInfo)
    (config : AnalyzerConfig) (strategy : string) (waves : list Wave) :
  (if decide (strategy = "parallel_optimized")
   then create_parallel_optimized_waves o si config
   else if decide (strategy = "priority_based")
   then create_priority_based_waves o si config
   else create_sequential_waves si) = Ok waves →
  NoDup (keys si) →
  deps_before si (λ dep, dep ∈ keys si) (wave_services <$> waves) ∧
  Forall (λ wave, wave ≠ []) (wave_services <$> waves).
Proof.
  intros Hw Hnd. apply (result_map_Ok (fmap wave_services)) in Hw.
  destruct (decide (strategy = "parallel_optimized")).
  { rewrite create_parallel_members in Hw.
    by apply frontier_order_safe in Hw as (_ & _ & ? & ?). }
  destruct (decide (strategy = "priority_based")).
  { rewrite create_priority_members in Hw.
    by apply frontier_order_safe in Hw as (_ & _ & ? & ?). }
  rewrite create_sequential_members in Hw.
  by apply sequential_order_safe in Hw as (_ & _ & ? & ?).
Qed.

(** In every status-200 answer of the handler the counts are ordered:
    the dependency depth is at least 1 and at most the number of waves,
    the number of waves is at most the number of planned services, and
    that is at most the number of requested ids.  So no strategy can plan
    fewer waves than the longest dependency chain has services. *)
Theorem answer_counts_are_ordered (o : SetOrder) (event : Event) (body : Body) :
  lambda_handler o event = Response200 body →
  1 ≤ max_dependency_depth (dependency_analysis body) ∧
  max_dependency_depth (dependency_analysis body) ≤ Z.of_nat (body_total_waves body) ∧
  (body_total_waves body ≤ total_services (deployment_plan body))%nat ∧
  (total_services (deployment_plan body) ≤ body_total_services body)%nat.
Proof.
  unfold lambda_handler. rewrite analyze_unfold. cbv zeta.
  set (si := parse_service_dependencies (ev_services event) load_dependency_config).
  pose proof (parse_nodup (ev_services event) load_dependency_config) as Hnd. fold si in Hnd.
  pose proof (parse_acyclic (ev_services event) _ load_dependency_config_acyclic) as Hac.
  fold si in Hac.
  destruct ((validate_dependencies o si).1) eqn:Hvalid; [|done].
  destruct (analyzer_waves_total o si load_dependency_config (ev_strategy event) Hnd Hac)
    as (waves & Hw & [HndW Hmem]).
  { apply parse_deps_nodup. repeat constructor; compute_done. }
  rewrite Hw. destruct (analyzer_waves_nonempty o si _ _ _ Hw Hnd) as [Hord Hne].
  apply validate_true in Hvalid as [_ Hdecl].
  destruct (calculate_max_dependency_depth si) as [d|e] eqn:Hd; [|done].
  intros [= <-]. cbn [dependency_analysis max_dependency_depth body_total_waves
                      deployment_plan body_total_services].
  apply max_depth_chain in Hd as [(s & p & Hs & Hp & Hlen) _].
  assert (total_services
            (create_deployment_plan waves (ev_strategy event) load_dependency_config)
          = length (mjoin (wave_services <$> waves))) as ->.
  { unfold create_deployment_plan.
    destruct (decide (ev_strategy event = "parallel_optimized")); cbn [total_services];
      by rewrite (list_fmap_compose wave_services length), length_mjoin_sum. }
  split_and!.
  - destruct Hp as (Hhead & _). destruct p; [done|]. simpl in Hlen. lia.
  - apply Hmem, list_elem_of_join in Hs as (wave & Hs & Hwave).
    apply list_elem_of_lookup in Hwave as [i Hi].
    destruct Hp as (Hhead & _ & _ & Hpath).
    pose proof (chain_wave_index si _ Hord Hdecl p s i wave Hhead Hpath Hi Hs) as Hle.
    apply lookup_lt_Some in Hi. rewrite length_fmap in Hi. lia.
  - rewrite <- (length_fmap wave_services waves). by apply length_waves_le.
  - transitivity (length (keys si)).
    + apply submseteq_length, NoDup_submseteq; [done|]. intros x Hx. by apply Hmem.
    + apply submseteq_length, NoDup_submseteq; [done|]. intros x Hx. by apply parse_keys in Hx.
Qed.

Lemma answer_counts_are_ordered_witness :
  match lambda_handler elements_order (sample_event "parallel_optimized") with
  | Response200 body =>
      1 ≤ max_dependency_depth (dependency_analysis body) ∧
      max_dependency_depth (dependency_analysis body) ≤ Z.of_nat (body_total_waves body) ∧
      (body_total_waves body ≤ total_services (deployment_plan body))%nat ∧
      (total_services (deployment_plan body) ≤ body_total_services body)%nat
  | Response500 _ => False
  end.
Proof.
  destruct (lambda_handler elements_order (sample_event "parallel_optimized"))
    as [body|e] eqn:Hresp.
  - apply (answer_counts_are_ordered elements_order (sample_event "parallel_optimized")).
    exact Hresp.
  - vm_compute in Hresp. discriminate Hresp.
Defined.

(** ** The two parallel strategies compared *)

Section frontier_ext.
Context {W : Type}.
Variable o : SetOrder.
Variables group_key1 group_key2 : ServiceInfo → Z.
Variable make_wave : nat → Z → list string → W.
Variable services : Dict ServiceInfo.
Hypothesis same_key :
  ∀ s info, dict_get s services = Some info → group_key1 info = group_key2 info.

Lemma build_groups_ext deployed remaining :
  build_groups o group_key1 services deployed remaining =
  build_groups o group_key2 services deployed remaining.
Proof.
  unfold build_groups. generalize (@nil (Z * list string)).
  induction (o remaining) as [|name names IH]; intros groups; [done|].
  cbn [foldl]. rewrite IH. f_equal.
  destruct (dict_get name services) as [info|] eqn:Hget; [|done].
  by rewrite (same_key name info Hget).
Qed.

Lemma frontier_loop_ext fuel n deployed remaining waves :
  frontier_loop o group_key1 make_wave services fuel n deployed remaining waves =
  frontier_loop o group_key2 make_wave services fuel n deployed remaining waves.
Proof.
  revert n deployed remaining waves.
  induction fuel as [|fuel IH]; intros n deployed remaining waves; [done|].
  simpl. rewrite build_groups_ext.
  destruct (decide (remaining = ∅)); [done|].
  destruct (build_groups o group_key2 services deployed remaining) as [|[k0 l0] rest];
    [done|]. apply IH.
Qed.
End frontier_ext.

Lemma parse_same_key (request : list string) (config : AnalyzerConfig) :
  Forall (λ kv, priority kv.2 = parallel_group kv.2) (ac_services config) →
  ∀ s info, dict_get s (parse_service_dependencies request config) = Some info →
            priority info = parallel_group info.
Proof.
  intros Hall s info Hget. rewrite parse_lookup in Hget.
  destruct (decide (s ∈ request)); [|done]. injection Hget as <-.
  destruct (dict_get s (ac_services config)) as [c|] eqn:Hc; [|done].
  rewrite Forall_forall in Hall. exact (Hall _ (dict_get_Some _ _ _ Hc)).
Qed.

(** On a service map where every service has [priority] equal to
    [parallel_group] the priority-based order is the parallel-optimized
    order.  The analyzer's built-in config is such a map, so for every
    request its two parallel planners put the same services in the same
    waves (the records differ in [max_concurrent] only). *)
Theorem priority_order_is_group_order (o : SetOrder) :
  (∀ services,
     (∀ s info, dict_get s services = Some info → priority info = parallel_group info) →
     _get_priority_based_order o services = _get_parallel_optimized_order o services) ∧
  (∀ request,
     let service_info := parse_service_dependencies request load_dependency_config in
     result_map (fmap wave_services)
       (create_priority_based_waves o service_info load_dependency_config) =
     result_map (fmap wave_services)
       (create_parallel_optimized_waves o service_info load_dependency_config)).
Proof.
  assert (∀ services,
            (∀ s info, dict_get s services = Some info →
                       priority info = parallel_group info) →
            _get_priority_based_order o services = _get_parallel_optimized_order o services)
    as Hmanager.
  { intros services Hsame. unfold _get_priority_based_order, _get_parallel_optimized_order,
      frontier_waves. by apply frontier_loop_ext. }
  split; [exact Hmanager|].
  intros request service_info.
  rewrite create_priority_members, create_parallel_members. apply Hmanager.
  apply parse_same_key. repeat constructor.
Qed.

Lemma priority_order_is_group_order_witness :
  _get_priority_based_order elements_order (dm_services sample_manager) =
  _get_parallel_optimized_order elements_order (dm_services sample_manager).
Proof.
  apply (proj1 (priority_order_is_group_order elements_order) (dm_services sample_manager)).
  intros s info Hget%dict_get_Some.
  assert (Forall (λ kv, priority kv.2 = parallel_group kv.2) (dm_services sample_manager))
    as Hall by (repeat constructor).
  rewrite Forall_forall in Hall. exact (Hall _ Hget).
Defined.
